(** * yarn-nixpkgs: the Nix store path codec and the store-backed fetch

    A shallow embedding of [nixUtils.ts]: hash compression, the Nix flavour
    of base32, fixed-output store paths, derivation-name sanitisation and
    [fetchPackageFromNixStore], together with the properties the
    specification states about them; then of what surrounds them: SRI
    hashes, the loader of [NpmSemverFetcher.ts] with [convertTgzToZip], the
    fetch derivations of [generateNixExpr.ts] and the patching of the loader
    script in [generateSharedLoader.ts].

    Conventions.
    - A JavaScript string is the list of its UTF-16 code units ([jsstring]);
      [js "..."] turns an ASCII literal into one.
    - A Node [Buffer] is a list of bytes.
    - Asynchronous, effectful code is a term of the free monad [Prog] over
      the calls it makes to its collaborators; [run] executes it against an
      arbitrary handler and records the trace of calls. *)

From Stdlib Require Import Strings.String Strings.Ascii Strings.Byte.
From Stdlib Require Import List NArith ZArith Arith Bool Lia.
From Equations Require Import Equations.
Import ListNotations.

Set Implicit Arguments.

(* ===================================================================== *)
(** ** JavaScript strings and buffers *)
(* ===================================================================== *)

(** One UTF-16 code unit. *)
Definition char16 := N.

Definition jsstring := list char16.

Definition Buffer := list byte.

(** An ASCII literal as a JavaScript string. *)
Definition js (s : string) : jsstring :=
  map N_of_ascii (list_ascii_of_string s).

(** Equality of code units and of strings ([===] on strings). *)
Definition str_eqb (a b : jsstring) : bool :=
  if list_eq_dec N.eq_dec a b then true else false.

(** A string used as a condition: only the empty one is falsy. *)
Definition truthy (s : jsstring) : bool :=
  match s with
  | [] => false
  | _ :: _ => true
  end.

(** [s.startsWith(prefix)] *)
Fixpoint startsWith (s prefix : jsstring) : bool :=
  match prefix, s with
  | [], _ => true
  | _ :: _, [] => false
  | p :: prefix', c :: s' => (N.eqb c p) && startsWith s' prefix'
  end.

(** [s.slice(start)] for [0 <= start]. *)
Definition slice_from (start : nat) (s : jsstring) : jsstring := skipn start s.

(** [s.slice(0, stop)] for [0 <= stop]. *)
Definition slice_to (stop : nat) (s : jsstring) : jsstring := firstn stop s.

(** [s.padStart(len, fill)] for a one-character [fill]. *)
Definition padStart (len : nat) (fill : char16) (s : jsstring) : jsstring :=
  repeat fill (len - length s) ++ s.

(** [n.toString(2)]: binary digits, most significant first, no leading
    zero except for [0] itself. *)
Fixpoint pos_toString2 (p : positive) (acc : jsstring) : jsstring :=
  match p with
  | xH => 49%N :: acc
  | xO p' => pos_toString2 p' (48%N :: acc)
  | xI p' => pos_toString2 p' (49%N :: acc)
  end.

Definition toString2 (n : N) : jsstring :=
  match n with
  | N0 => [48%N]
  | Npos p => pos_toString2 p []
  end.

(** [parseInt(s, 2)] on the strings this program passes to it: the value of
    the longest prefix of binary digits, [None] (NaN) when that prefix is
    empty.  Every argument is a slice of at most five characters. *)
Fixpoint parse_bin_prefix (s : jsstring) (acc : option N) : option N :=
  match s with
  | c :: s' =>
      if N.eqb c 48 then
        parse_bin_prefix s' (Some (2 * match acc with Some a => a | None => 0 end))%N
      else if N.eqb c 49 then
        parse_bin_prefix s' (Some (2 * match acc with Some a => a | None => 0 end + 1))%N
      else acc
  | [] => acc
  end.

Definition parseInt2 (s : jsstring) : option N := parse_bin_prefix s None.

(** [str[i]] used as a string operand of [+=]: the one-character string at
    the index, and the text of [undefined] when the index is NaN or out of
    range. *)
Definition index_text (s : jsstring) (i : option N) : jsstring :=
  match i with
  | Some k =>
      match nth_error s (N.to_nat k) with
      | Some c => [c]
      | None => js "undefined"
      end
  | None => js "undefined"
  end.

(** Bitwise exclusive or of two bytes. *)
Definition byte_xor (a b : byte) : byte :=
  let '(a0, (a1, (a2, (a3, (a4, (a5, (a6, a7))))))) := Byte.to_bits a in
  let '(b0, (b1, (b2, (b3, (b4, (b5, (b6, b7))))))) := Byte.to_bits b in
  Byte.of_bits
    (xorb a0 b0, (xorb a1 b1, (xorb a2 b2, (xorb a3 b3,
    (xorb a4 b4, (xorb a5 b5, (xorb a6 b6, xorb a7 b7))))))).

(** [Buffer.alloc(size)]: [size] zero bytes. *)
Definition Buffer_alloc (size : nat) : Buffer := repeat x00 size.

(** [buf[i] ^= v]: a write outside the buffer changes no byte. *)
Fixpoint xor_at (buf : Buffer) (i : nat) (v : byte) : Buffer :=
  match buf, i with
  | [], _ => []
  | b :: buf', O => byte_xor b v :: buf'
  | b :: buf', S i' => b :: xor_at buf' i' v
  end.

(* ===================================================================== *)
(** ** nixUtils.ts: hash compression and base32 *)
(* ===================================================================== *)

Definition BASE32_CHARSET : jsstring := js "0123456789abcdfghijklmnpqrsvwxyz".
Definition CACHE_KEY_NS : jsstring := js "nix.1/".

(** [compressHash(hash, size)].  For [size = 0] the index [idx % size] is
    NaN and the assignment touches no element of the (empty) buffer. *)
Definition compressHash (hash : Buffer) (size : nat) : Buffer :=
  fold_left
    (fun result idx =>
       if Nat.eqb size 0 then result
       else xor_at result (idx mod size) (nth idx hash x00))
    (seq 0 (length hash))
    (Buffer_alloc size).

(** The loop of [encodeBase32]: [while (bits) { ... }]. *)
Equations? encodeBase32_loop (result bits : jsstring) : jsstring
  by wf (length bits) lt :=
  encodeBase32_loop result [] := result;
  encodeBase32_loop result (b :: bs) :=
    encodeBase32_loop
      (result ++ index_text BASE32_CHARSET (parseInt2 (slice_to 5 (b :: bs))))
      (slice_from 5 (b :: bs)).
Proof.
  unfold slice_from. change (length (skipn 4 bs) < S (length bs)).
  rewrite length_skipn. lia.
Qed.

(** [encodeBase32(buf)] *)
Definition encodeBase32 (buf : Buffer) : jsstring :=
  let bits :=
    concat (map (fun n => padStart 8 48%N (toString2 (Byte.to_N n))) (rev buf)) in
  encodeBase32_loop [] bits.

(* ===================================================================== *)
(** ** Node's [path.posix], which [ppath] of [@yarnpkg/fslib] delegates to *)
(* ===================================================================== *)

Definition PortablePath := jsstring.
Definition Filename := jsstring.

Definition SLASH : char16 := 47%N.
Definition DOT : char16 := 46%N.

(** [s.split("/")] *)
Fixpoint split_slash (s : jsstring) : list jsstring :=
  match s with
  | [] => [[]]
  | c :: s' =>
      if N.eqb c SLASH then [] :: split_slash s'
      else
        match split_slash s' with
        | seg :: rest => (c :: seg) :: rest
        | [] => [[c]]
        end
  end.

(** [segments.join("/")] *)
Fixpoint join_slash (segs : list jsstring) : jsstring :=
  match segs with
  | [] => []
  | [seg] => seg
  | seg :: rest => seg ++ SLASH :: join_slash rest
  end.

(** What [normalizeString] computes: empty and [.] segments vanish, [..]
    removes the segment before it, and where there is none it is kept on a
    relative path and dropped on an absolute one.  [stack] holds the
    segments kept so far, last one first. *)
Fixpoint resolve_segments (allowAboveRoot : bool) (stack segs : list jsstring)
  : list jsstring :=
  match segs with
  | [] => rev stack
  | seg :: rest =>
      if str_eqb seg [] || str_eqb seg [DOT] then
        resolve_segments allowAboveRoot stack rest
      else if str_eqb seg [DOT; DOT] then
        match stack with
        | top :: stack' =>
            if str_eqb top [DOT; DOT]
            then resolve_segments allowAboveRoot (seg :: stack) rest
            else resolve_segments allowAboveRoot stack' rest
        | [] =>
            if allowAboveRoot
            then resolve_segments allowAboveRoot [seg] rest
            else resolve_segments allowAboveRoot [] rest
        end
      else resolve_segments allowAboveRoot (seg :: stack) rest
  end.

(** [path.posix.normalize(path)] *)
Definition posix_normalize (path : jsstring) : jsstring :=
  match path with
  | [] => [DOT]
  | c0 :: _ =>
      let isAbsolute := N.eqb c0 SLASH in
      let trailingSeparator := N.eqb (last path 0%N) SLASH in
      let res :=
        join_slash (resolve_segments (negb isAbsolute) [] (split_slash path)) in
      match res with
      | [] =>
          if isAbsolute then [SLASH]
          else if trailingSeparator then [DOT; SLASH] else [DOT]
      | _ :: _ =>
          let res' := if trailingSeparator then res ++ [SLASH] else res in
          if isAbsolute then SLASH :: res' else res'
      end
  end.

(** [ppath.join(a, b)]: the non-empty arguments joined by a slash, then
    normalised; [.] when both are empty. *)
Definition ppath_join (a b : jsstring) : PortablePath :=
  match a, b with
  | [], [] => [DOT]
  | [], _ :: _ => posix_normalize b
  | _ :: _, [] => posix_normalize a
  | _ :: _, _ :: _ => posix_normalize (a ++ SLASH :: b)
  end.

(** The backwards scan of [path.posix.dirname]: [r] holds the characters at
    indices [i, i-1, ..., 1]. *)
Fixpoint dirname_end (r : jsstring) (matchedSlash : bool) (i : nat) : option nat :=
  match r with
  | [] => None
  | c :: r' =>
      if N.eqb c SLASH then
        if matchedSlash then dirname_end r' true (i - 1) else Some i
      else dirname_end r' false (i - 1)
  end.

(** [ppath.dirname(path)] *)
Definition ppath_dirname (path : PortablePath) : PortablePath :=
  match path with
  | [] => [DOT]
  | c0 :: rest =>
      let hasRoot := N.eqb c0 SLASH in
      match dirname_end (rev rest) true (length rest) with
      | None => if hasRoot then [SLASH] else [DOT]
      | Some e =>
          if hasRoot && Nat.eqb e 1 then [SLASH; SLASH] else slice_to e path
      end
  end.

(* ===================================================================== *)
(** ** nixUtils.ts: store paths and derivation names *)
(* ===================================================================== *)

(** The collaborators outside the repository that the pure part of
    [nixUtils.ts] calls. *)
Class Externals := {
  (** [Locator] of [@yarnpkg/core] *)
  Locator : Type;
  (** [structUtils.stringifyLocator] *)
  stringifyLocator : Locator -> jsstring;
  (** [createHash(algorithm).update(data).digest()] of Node's [crypto] *)
  createHash : jsstring -> jsstring -> Buffer;
}.

(** One hexadecimal digit, lower case. *)
Definition hex_digit (n : N) : char16 :=
  if N.ltb n 10 then (48 + n)%N else (87 + n)%N.

(** [buf.toString("hex")] *)
Definition toString_hex (buf : Buffer) : jsstring :=
  flat_map
    (fun b => [hex_digit (N.div (Byte.to_N b) 16); hex_digit (N.modulo (Byte.to_N b) 16)])
    buf.

Definition DEFAULT_HASH_ALGORITHM : jsstring := js "sha512".
Definition DEFAULT_STORE_PATH : PortablePath := js "/nix/store".

(** Characters the regular expression class [[a-zA-Z0-9+._?=-]] accepts. *)
Definition is_name_char (c : char16) : bool :=
  (N.leb 97 c && N.leb c 122) ||      (* a-z *)
  (N.leb 65 c && N.leb c 90) ||       (* A-Z *)
  (N.leb 48 c && N.leb c 57) ||       (* 0-9 *)
  N.eqb c 43 || N.eqb c 46 || N.eqb c 95 ||   (* + . _ *)
  N.eqb c 63 || N.eqb c 61 || N.eqb c 45.     (* ? = - *)

(** [s.replace(/^\.+/, "")] *)
Fixpoint strip_leading_dots (s : jsstring) : jsstring :=
  match s with
  | c :: s' => if N.eqb c DOT then strip_leading_dots s' else s
  | [] => []
  end.

(** [s.replace(/[^a-zA-Z0-9+._?=-]+/g, "-")]: every maximal run of rejected
    characters becomes one dash.  [in_run] tells that the previous character
    was rejected, so the dash of this run is already out. *)
Fixpoint replace_invalid_runs (in_run : bool) (s : jsstring) : jsstring :=
  match s with
  | [] => []
  | c :: s' =>
      if is_name_char c then c :: replace_invalid_runs false s'
      else if in_run then replace_invalid_runs true s'
      else 45%N :: replace_invalid_runs true s'
  end.

(** [sanitizeDerivationName(name)] *)
Definition sanitizeDerivationName (name : jsstring) : jsstring :=
  match slice_to 207 (replace_invalid_runs false (strip_leading_dots name)) with
  | [] => js "unknown"
  | c :: s => c :: s
  end.

Section Pure.
Context `{Ext : Externals}.

(** [computeHash(algorithm, data)] *)
Definition computeHash (algorithm : jsstring) (data : jsstring) : Buffer :=
  createHash algorithm data.

(** [computeFixedOutputStorePath(name, hash, hashAlgorithm, storePath)] *)
Definition computeFixedOutputStorePath
    (name hash hashAlgorithm : jsstring) (storePath : PortablePath) : PortablePath :=
  let hash :=
    if startsWith hash CACHE_KEY_NS
    then slice_from (length CACHE_KEY_NS) hash
    else hash in
  let innerStr := js "fixed:out:" ++ hashAlgorithm ++ js ":" ++ hash ++ js ":" in
  let innerHash := computeHash (js "sha256") innerStr in
  let innerHashHex := toString_hex innerHash in
  let outerStr :=
    js "output:out:sha256:" ++ innerHashHex ++ js ":" ++ storePath ++ js ":" ++ name in
  let outerHash := computeHash (js "sha256") outerStr in
  let outerHash32 := encodeBase32 (compressHash outerHash 20) in
  ppath_join storePath (outerHash32 ++ js "-" ++ name).

(** [locatorDerivationName(locator)] *)
Definition locatorDerivationName (locator : Locator) : jsstring :=
  sanitizeDerivationName (stringifyLocator locator ++ js ".zip").

End Pure.

(* ===================================================================== *)
(** ** Effects: the calls [fetchPackageFromNixStore] awaits *)
(* ===================================================================== *)

(** White space and line terminators, the characters [String.prototype.trim]
    removes. *)
Definition is_js_space (c : char16) : bool :=
  (N.leb 9 c && N.leb c 13) || N.eqb c 32 || N.eqb c 160 || N.eqb c 5760 ||
  (N.leb 8192 c && N.leb c 8202) || N.eqb c 8232 || N.eqb c 8233 ||
  N.eqb c 8239 || N.eqb c 8287 || N.eqb c 12288 || N.eqb c 65279.

Fixpoint trimStart (s : jsstring) : jsstring :=
  match s with
  | c :: s' => if is_js_space c then trimStart s' else s
  | [] => []
  end.

(** [s.trim()] *)
Definition trim (s : jsstring) : jsstring :=
  rev (trimStart (rev (trimStart s))).

(** The objects of [@yarnpkg/libzip] and [@yarnpkg/fslib] that the fetch
    hands around without looking inside, and the exceptions its
    collaborators may raise. *)
Class Runtime := {
  Libzip : Type;
  ZipFS : Type;
  Exn : Type;
}.

Section Effects.
Context `{Ext : Externals} `{Rt : Runtime}.

(** One awaited or invoked collaborator, indexed by what it answers. *)
Inductive Call : Type -> Type :=
| xfs_existsPromise (p : PortablePath) : Call bool
| onHit : Call unit
| onMiss : Call unit
| loader : Call PortablePath
| hashUtils_checksumFile (p : PortablePath) : Call jsstring
| xfs_unlinkPromise (p : PortablePath) : Call unit
| xfs_renamePromise (oldP newP : PortablePath) : Call unit
(** [execUtils.execvp(fileName, args, {cwd, strict})], answering [stdout] *)
| execUtils_execvp (fileName : jsstring) (args : list jsstring)
    (cwd : PortablePath) (strict : bool) : Call jsstring
| getLibzipPromise : Call Libzip
(** [new ZipFS(p, {libzip, readOnly})] *)
| new_ZipFS (p : PortablePath) (libzip : Libzip) (readOnly : bool) : Call ZipFS.

(** How a fetch can fail: by its own [throw Error(message)], or by an
    exception of a collaborator, which it never catches. *)
Inductive Failure : Type :=
| ThrownError (message : jsstring)
| Rejected (e : Exn).

(** Programs over [Call]. *)
Inductive Prog (A : Type) : Type :=
| Ret (a : A)
| Throw (message : jsstring)
| Await (X : Type) (c : Call X) (k : X -> Prog A).

Arguments Ret {A} a.
Arguments Throw {A} message.
Arguments Await {A X} c k.

Fixpoint bind {A B : Type} (p : Prog A) (f : A -> Prog B) : Prog B :=
  match p with
  | Ret a => f a
  | Throw m => Throw m
  | Await c k => Await c (fun x => bind (k x) f)
  end.

Definition await {X : Type} (c : Call X) : Prog X := Await c Ret.

(** [() => { packageFs.discardAndClose(); }] *)
Inductive ReleaseFn : Type :=
| discardAndClose (packageFs : ZipFS).

Local Notation "x <- p ;; q" := (bind p (fun x => q))
  (at level 61, p at next level, right associativity).
Local Notation "p ;; q" := (bind p (fun _ => q))
  (at level 61, right associativity).

Definition ASSERTION_MESSAGE : jsstring :=
  js "Assertion failed: nix-store path and computed path mismatch".

(** [fetchPackageFromNixStore(locator, expectedChecksum, {onHit, onMiss, loader})].
    Both [expectedChecksum ? ... : null] and [storePath && ...] test a
    [string | null] for truthiness, so the empty string counts like [null]. *)
Definition fetchPackageFromNixStore
    (locator : Locator) (expectedChecksum : option jsstring)
  : Prog (ZipFS * ReleaseFn * jsstring) :=
  let derivationName := locatorDerivationName locator in
  let storePath : option PortablePath :=
    match expectedChecksum with
    | Some expected =>
        if truthy expected
        then Some (computeFixedOutputStorePath derivationName expected
                     DEFAULT_HASH_ALGORITHM DEFAULT_STORE_PATH)
        else None
    | None => None
    end in
  let open (storePath : PortablePath) (checksum : jsstring) :=
    libzip <- await getLibzipPromise ;;
    packageFs <- await (new_ZipFS storePath libzip true) ;;
    Ret (packageFs, discardAndClose packageFs, checksum) in
  let miss :=
    await onMiss ;;
    resultPath <- await loader ;;
    fileSum <- await (hashUtils_checksumFile resultPath) ;;
    let checksum := CACHE_KEY_NS ++ fileSum in
    let storePath :=
      computeFixedOutputStorePath derivationName checksum
        DEFAULT_HASH_ALGORITHM DEFAULT_STORE_PATH in
    present <- await (xfs_existsPromise storePath) ;;
    (if present : bool then
       await (xfs_unlinkPromise resultPath)
     else
       let tempDir := ppath_dirname resultPath in
       let loadPath := ppath_join tempDir derivationName in
       await (xfs_renamePromise resultPath loadPath) ;;
       stdout <- await (execUtils_execvp (js "nix-store")
                   [js "--add-fixed"; js "sha512"; js "./" ++ derivationName]
                   tempDir true) ;;
       (if negb (str_eqb (trim stdout) storePath)
        then Throw ASSERTION_MESSAGE
        else Ret tt) ;;
       await (xfs_unlinkPromise loadPath)) ;;
    open storePath checksum in
  match storePath, expectedChecksum with
  | Some predicted, Some expected =>
      if truthy predicted then
        present <- await (xfs_existsPromise predicted) ;;
        if present : bool then
          await onHit ;;
          open predicted expected
        else miss
      else miss
  | _, _ => miss
  end.

(** [opts.checksums.get(locator.locatorHash) || null], the expected
    checksum [NpmSemverFetcher.fetch], the one caller, passes on: [value] is
    what the map holds for the locator, a string, [null] or nothing, and an
    empty string, like no entry, becomes [null]. *)
Definition or_null (value : option jsstring) : option jsstring :=
  match value with
  | Some s => if truthy s then Some s else None
  | None => None
  end.

(** *** Running a program against its collaborators *)

(** One call with the answer it got. *)
Inductive Entry : Type :=
| Called (X : Type) (c : Call X) (r : Exn + X).

Arguments Called {X} c r.

Section Run.
Variable World : Type.
(** The collaborators: any answer, or an exception, and a new state of the
    world. *)
Variable handler : forall X : Type, Call X -> World -> (Exn + X) * World.

Fixpoint run {A : Type} (p : Prog A) (w : World)
  : list Entry * (Failure + A) :=
  match p with
  | Ret a => ([], inr a)
  | Throw m => ([], inl (ThrownError m))
  | Await c k =>
      match handler c w with
      | (inl e, _) => ([Called c (inl e)], inl (Rejected e))
      | (inr x, w') =>
          let '(tr, res) := run (k x) w' in
          (Called c (inr x) :: tr, res)
      end
  end.

(** In world [w] the collaborators answer call [c] with [x] and leave the
    world [w']. *)
Definition answers {X : Type} (w : World) (c : Call X) (x : X) (w' : World) : Prop :=
  handler c w = (inr x, w').

(** A fetch started in world [w] reaches its miss branch in world [w']:
    there is no expected checksum to predict a path from, or the predicted
    path was looked up and is not there. *)
Definition takes_miss_branch
    (locator : Locator) (expectedChecksum : option jsstring) (w w' : World) : Prop :=
  match expectedChecksum with
  | Some expected =>
      if truthy expected then
        answers w
          (xfs_existsPromise
             (computeFixedOutputStorePath (locatorDerivationName locator) expected
                DEFAULT_HASH_ALGORITHM DEFAULT_STORE_PATH))
          false w'
      else w' = w
  | None => w' = w
  end.

End Run.

(** What a trace says. *)
Definition is_loader (e : Entry) : bool :=
  match e with Called c _ => match c with loader => true | _ => false end end.

Definition is_onHit (e : Entry) : bool :=
  match e with Called c _ => match c with onHit => true | _ => false end end.

Definition is_onMiss (e : Entry) : bool :=
  match e with Called c _ => match c with onMiss => true | _ => false end end.

Definition is_execvp (e : Entry) : bool :=
  match e with
  | Called c _ => match c with execUtils_execvp _ _ _ _ => true | _ => false end
  end.

(** The collaborator an entry names. *)
Definition call_name (e : Entry) : string :=
  match e with
  | Called c _ =>
      match c with
      | xfs_existsPromise _ => "xfs.existsPromise"
      | onHit => "onHit"
      | onMiss => "onMiss"
      | loader => "loader"
      | hashUtils_checksumFile _ => "hashUtils.checksumFile"
      | xfs_unlinkPromise _ => "xfs.unlinkPromise"
      | xfs_renamePromise _ _ => "xfs.renamePromise"
      | execUtils_execvp _ _ _ _ => "execUtils.execvp"
      | getLibzipPromise => "getLibzipPromise"
      | new_ZipFS _ _ _ => "new ZipFS"
      end
  end.

(** The call was answered, not rejected. *)
Definition answered (e : Entry) : bool :=
  match e with Called _ (inr _) => true | Called _ (inl _) => false end.

Definition count (f : Entry -> bool) (tr : list Entry) : nat :=
  length (filter f tr).

End Effects.

(* ===================================================================== *)
(** ** A concrete platform: SHA-256 and UTF-8, as Node provides them *)
(* ===================================================================== *)

Module SHA256.

Local Open Scope N_scope.

Definition mask32 : N := 0xffffffff.
Definition add32 (a b : N) : N := N.land (a + b) mask32.
Definition rotr (n x : N) : N :=
  N.lor (N.shiftr x n) (N.land (N.shiftl x (32 - n)) mask32).
Definition shr (n x : N) : N := N.shiftr x n.
Definition not32 (x : N) : N := N.lxor x mask32.

Definition Ch (x y z : N) : N := N.lxor (N.land x y) (N.land (not32 x) z).
Definition Maj (x y z : N) : N :=
  N.lxor (N.lxor (N.land x y) (N.land x z)) (N.land y z).
Definition Sigma0 (x : N) : N := N.lxor (N.lxor (rotr 2 x) (rotr 13 x)) (rotr 22 x).
Definition Sigma1 (x : N) : N := N.lxor (N.lxor (rotr 6 x) (rotr 11 x)) (rotr 25 x).
Definition sigma0 (x : N) : N := N.lxor (N.lxor (rotr 7 x) (rotr 18 x)) (shr 3 x).
Definition sigma1 (x : N) : N := N.lxor (N.lxor (rotr 17 x) (rotr 19 x)) (shr 10 x).

(** The first [n] primes. *)
Definition is_prime (n : nat) : bool :=
  Nat.ltb 1 n && forallb (fun d => negb (Nat.eqb (Nat.modulo n d) 0)) (seq 2 (n - 2)).

Definition primes (n : nat) : list N :=
  map N.of_nat (firstn n (filter is_prime (seq 2 400))).

(** The integer cube root, one bit at a time. *)
Definition cube_root (x : N) : N :=
  fold_left
    (fun r i =>
       let r' := r + N.shiftl 1 (N.of_nat i) in
       if r' * r' * r' <=? x then r' else r)
    (rev (seq 0 40)) 0.

(** The round constants: the first 32 bits of the fractional parts of the
    cube roots of the first 64 primes. *)
Definition K : list N :=
  Eval vm_compute in
    map (fun p => N.land (cube_root (N.shiftl p 96)) mask32) (primes 64).

(** The initial hash value: the same of the square roots of the first 8
    primes. *)
Definition H0 : list N :=
  Eval vm_compute in
    map (fun p => N.land (N.sqrt (N.shiftl p 64)) mask32) (primes 8).

(** Big-endian words of a block. *)
Fixpoint words (bs : list N) : list N :=
  match bs with
  | b0 :: b1 :: b2 :: b3 :: rest =>
      (b0 * 0x1000000 + b1 * 0x10000 + b2 * 0x100 + b3) :: words rest
  | _ => []
  end.

(** The message schedule, newest word first. *)
Fixpoint extend (n : nat) (w : list N) : list N :=
  match n with
  | O => w
  | S n' =>
      let x := add32 (add32 (sigma1 (nth 1 w 0)) (nth 6 w 0))
                     (add32 (sigma0 (nth 14 w 0)) (nth 15 w 0)) in
      extend n' (x :: w)
  end.

Definition round (s : list N) (kw : N * N) : list N :=
  match s with
  | [a; b; c; d; e; f; g; h] =>
      let t1 := add32 (add32 (add32 h (Sigma1 e)) (add32 (Ch e f g) (fst kw))) (snd kw) in
      let t2 := add32 (Sigma0 a) (Maj a b c) in
      [add32 t1 t2; a; b; c; add32 d t1; e; f; g]
  | _ => s
  end.

Definition compress (h : list N) (block : list N) : list N :=
  let w := rev (extend 48 (rev (words block))) in
  let s := fold_left round (combine K w) h in
  map (fun p => add32 (fst p) (snd p)) (combine h s).

Definition be_bytes (n : nat) (x : N) : list N :=
  map (fun i => N.land (N.shiftr x (8 * N.of_nat i)) 0xff) (rev (seq 0 n)).

Definition pad (msg : list N) : list N :=
  let len := N.of_nat (length msg) in
  let zeros := N.to_nat ((119 - len mod 64) mod 64) in
  msg ++ 0x80 :: repeat 0 zeros ++ be_bytes 8 (8 * len).

Definition digest_words (msg : list N) : list N :=
  let padded := pad msg in
  fold_left
    (fun h i => compress h (firstn 64 (skipn (64 * i) padded)))
    (seq 0 (Nat.div (length padded) 64))
    H0.

Definition to_byte (n : N) : byte :=
  match Byte.of_N (N.land n 0xff) with
  | Some b => b
  | None => x00
  end.

Definition sha256 (msg : list byte) : list byte :=
  map to_byte (flat_map (be_bytes 4) (digest_words (map Byte.to_N msg))).

End SHA256.

(** UTF-8 of a JavaScript string, as [Buffer.from(s, "utf8")] encodes it: a
    surrogate pair is one code point, a lone surrogate becomes U+FFFD. *)
Definition utf8_of_code_point (cp : N) : list N :=
  (if cp <? 0x80 then [cp]
   else if cp <? 0x800 then [0xc0 + cp / 64; 0x80 + cp mod 64]
   else if cp <? 0x10000 then
     [0xe0 + cp / 4096; 0x80 + (cp / 64) mod 64; 0x80 + cp mod 64]
   else
     [0xf0 + cp / 262144; 0x80 + (cp / 4096) mod 64;
      0x80 + (cp / 64) mod 64; 0x80 + cp mod 64])%N.

Definition is_high_surrogate (c : char16) : bool := (0xd800 <=? c)%N && (c <=? 0xdbff)%N.
Definition is_low_surrogate (c : char16) : bool := (0xdc00 <=? c)%N && (c <=? 0xdfff)%N.

Fixpoint utf8_encode (s : jsstring) : list N :=
  match s with
  | [] => []
  | c :: s' =>
      if is_high_surrogate c then
        match s' with
        | d :: s'' =>
            if is_low_surrogate d
            then utf8_of_code_point (0x10000 + (c - 0xd800) * 1024 + (d - 0xdc00))%N
                   ++ utf8_encode s''
            else utf8_of_code_point 0xfffd%N ++ utf8_encode s'
        | [] => utf8_of_code_point 0xfffd%N
        end
      else if is_low_surrogate c then utf8_of_code_point 0xfffd%N ++ utf8_encode s'
      else utf8_of_code_point c ++ utf8_encode s'
  end.

(** A locator as [@yarnpkg/core] prints it: [@scope/name@reference], or
    [name@reference] without a scope. *)
Record YarnLocator := {
  scope : option jsstring;
  name : jsstring;
  reference : jsstring;
}.

Definition yarn_stringifyLocator (l : YarnLocator) : jsstring :=
  match scope l with
  | Some (c :: s) => js "@" ++ (c :: s) ++ js "/" ++ name l ++ js "@" ++ reference l
  | _ => name l ++ js "@" ++ reference l
  end.

(** Node's [crypto] for the one algorithm this program asks for. *)
Definition node_createHash (algorithm data : jsstring) : Buffer :=
  if str_eqb algorithm (js "sha256")
  then SHA256.sha256 (map SHA256.to_byte (utf8_encode data))
  else [].

#[local] Instance node_externals : Externals := {|
  Locator := YarnLocator;
  stringifyLocator := yarn_stringifyLocator;
  createHash := node_createHash;
|}.

(* ===================================================================== *)
(** ** The codec as the specification words it *)
(* ===================================================================== *)

(** XOR of a list of bytes. *)
Definition xor_all (bs : list byte) : byte := fold_left byte_xor bs x00.

(** "XOR-accumulating each input byte into the output position [i mod
    size]": position [j] of the output is the XOR of the input bytes whose
    index is [j] modulo [size]. *)
Definition spec_compressHash (digest : Buffer) (size : nat) : Buffer :=
  map
    (fun j =>
       xor_all
         (map (fun i => nth i digest x00)
            (filter (fun i => Nat.eqb (i mod size) j) (seq 0 (length digest)))))
    (seq 0 size).

(** "Digits 0-9 and lowercase letters excluding e, o, u, t". *)
Definition spec_alphabet : list char16 :=
  filter
    (fun c => negb (existsb (N.eqb c) (js "eout")))
    (js "0123456789abcdefghijklmnopqrstuvwxyz").

(** The bits of a byte "in natural order", most significant first. *)
Definition byte_bits (b : byte) : list bool :=
  map (fun i => N.testbit (Byte.to_N b) (N.of_nat i)) [7; 6; 5; 4; 3; 2; 1; 0].

(** "One big bit string read starting from the last byte's most significant
    bit (bytes reversed, then each byte's bits in natural order)". *)
Definition spec_bit_string (buffer : Buffer) : list bool :=
  flat_map byte_bits (rev buffer).

(** The number a group of bits denotes, first bit most significant. *)
Definition bits_value (group : list bool) : nat :=
  fold_left (fun acc (b : bool) => 2 * acc + (if b then 1 else 0)) group 0.

(** "Emit one output character per 5-bit group until bits are exhausted":
    [ceil(bit-length / 5)] characters.  Where the bit length is no multiple
    of five the last group is shorter and stands for the number its bits
    denote; the 160 bits of a store path identifier make 32 full groups. *)
Definition spec_encodeBase32 (buffer : Buffer) : jsstring :=
  let bits := spec_bit_string buffer in
  map
    (fun k => nth (bits_value (firstn 5 (skipn (5 * k) bits))) spec_alphabet 0%N)
    (seq 0 (Nat.div (length bits + 4) 5)).

(** "Strip the cache namespace prefix from [checksum] if present". *)
Fixpoint strip_prefix (prefix s : jsstring) : option jsstring :=
  match prefix, s with
  | [], _ => Some s
  | p :: prefix', c :: s' => if N.eqb p c then strip_prefix prefix' s' else None
  | _ :: _, [] => None
  end.

Definition spec_strippedChecksum (checksum : jsstring) : jsstring :=
  match strip_prefix (js "nix.1/") checksum with
  | Some rest => rest
  | None => checksum
  end.

(** A hexadecimal digest: digits and the letters a to f, in either case. *)
Definition is_hex_char (c : char16) : bool :=
  (N.leb 48 c && N.leb c 57) || (N.leb 97 c && N.leb c 102) ||
  (N.leb 65 c && N.leb c 70).

Definition is_hex_digest (h : jsstring) : bool := forallb is_hex_char h.

(* ===================================================================== *)
(** ** Auxiliary notions used in the statements and proofs *)
(* ===================================================================== *)

(** The character [toString(2)] prints for a bit. *)
Definition bit_char (b : bool) : char16 := if b then 49%N else 48%N.

(** A string is free of slashes. *)
Definition no_slash (s : jsstring) : Prop := Forall (fun c => c <> SLASH) s.

(** A derivation name: what [sanitizeDerivationName] returns, and so what
    [locatorDerivationName] hands to [computeFixedOutputStorePath]. *)
Definition derivation_name (n : jsstring) : Prop :=
  exists raw, sanitizeDerivationName raw = n.

(** What [ppath_join root] puts in front of a last segment that is an
    ordinary file name: the normalised root and its separator. *)
Definition join_prefix (root : jsstring) : jsstring :=
  match root with
  | [] => []
  | c0 :: _ =>
      let isAbsolute := N.eqb c0 SLASH in
      (if isAbsolute then [SLASH] else []) ++
      match resolve_segments (negb isAbsolute) [] (split_slash root) with
      | [] => []
      | seg :: segs => join_slash (seg :: segs) ++ [SLASH]
      end
  end.

(* ===================================================================== *)
(** ** A simulated machine to run fetches on *)
(* ===================================================================== *)

(** Files are a list of paths; the loader drops an archive with a fixed
    SHA-512 into a temporary directory; [nix-store --add-fixed] copies a
    file into the store under the path Nix derives for it and prints that
    path, or, when [drift] is set, a path derived some other way. *)
Module Sim.

#[export] Instance runtime : Runtime := {|
  Libzip := unit;
  ZipFS := PortablePath;
  Exn := jsstring;
|}.

Record World := {
  files : list PortablePath;
  artifact_sha512 : jsstring;
  drift : bool;
}.

Definition has_file (w : World) (p : PortablePath) : bool :=
  existsb (str_eqb p) (files w).

Definition with_files (w : World) (fs : list PortablePath) : World :=
  {| files := fs; artifact_sha512 := artifact_sha512 w; drift := drift w |}.

Definition remove_file (w : World) (p : PortablePath) : World :=
  with_files w (filter (fun q => negb (str_eqb p q)) (files w)).

Definition ENOENT : jsstring := js "ENOENT".
Definition DOWNLOAD : PortablePath := js "/tmp/xfs-3fa1c2d4/archive.zip".

Definition nix_store_add_fixed (w : World) (args : list jsstring)
  : (jsstring + jsstring) * World :=
  match args with
  | [_; algorithm; file] =>
      match strip_prefix (js "./") file with
      | Some name =>
          let path :=
            computeFixedOutputStorePath name (artifact_sha512 w) algorithm
              DEFAULT_STORE_PATH in
          if drift w
          then (inr (js "/nix/store/00000000000000000000000000000000-" ++ name ++ [10%N]), w)
          else (inr (path ++ [10%N]), with_files w (path :: files w))
      | None => (inl ENOENT, w)
      end
  | _ => (inl ENOENT, w)
  end.

Definition handler (X : Type) (c : Call X) (w : World) : (Exn + X) * World :=
  match c in Call X return (Exn + X) * World with
  | xfs_existsPromise p => (inr (has_file w p), w)
  | onHit => (inr tt, w)
  | onMiss => (inr tt, w)
  | loader => (inr DOWNLOAD, with_files w (DOWNLOAD :: files w))
  | hashUtils_checksumFile p =>
      if has_file w p then (inr (artifact_sha512 w), w) else (inl ENOENT, w)
  | xfs_unlinkPromise p =>
      if has_file w p then (inr tt, remove_file w p) else (inl ENOENT, w)
  | xfs_renamePromise oldP newP =>
      if has_file w oldP
      then (inr tt, with_files w (newP :: files (remove_file w oldP)))
      else (inl ENOENT, w)
  | execUtils_execvp fileName args cwd strict =>
      if str_eqb fileName (js "nix-store")
      then nix_store_add_fixed w args
      else (inl ENOENT, w)
  | getLibzipPromise => (inr tt, w)
  | new_ZipFS p libzip readOnly =>
      if has_file w p then (inr p, w) else (inl ENOENT, w)
  end.

Definition left_pad : YarnLocator :=
  {| scope := None; name := js "left-pad"; reference := js "npm:1.3.0" |}.

Definition SHA512_OF_EMPTY : jsstring :=
  js "cf83e1357eefb8bdf1542850d66d8007d620e4050b5715dc83f4a921d36ce9ce47d0d13c5d85f2b0ff8318d2877eec2f63b931bd47417a81a538327af927da3e".

(** A machine with an empty store. *)
Definition fresh : World :=
  {| files := []; artifact_sha512 := SHA512_OF_EMPTY; drift := false |}.

(** The same machine, its [nix-store] deriving paths differently. *)
Definition drifting : World :=
  {| files := []; artifact_sha512 := SHA512_OF_EMPTY; drift := true |}.

(** A machine whose store holds the archive of [left_pad]. *)
Definition stocked : World :=
  with_files fresh
    [computeFixedOutputStorePath (locatorDerivationName left_pad) SHA512_OF_EMPTY
       DEFAULT_HASH_ALGORITHM DEFAULT_STORE_PATH].

(** The world after a call. *)
Definition after {X : Type} (c : Call X) (w : World) : World := snd (handler c w).

End Sim.

(** The names a fetch of [Sim.left_pad] gives to things on that machine. *)
Module SimRuns.
Import Sim.

Definition derivationName : jsstring := locatorDerivationName left_pad.
Definition storePath : PortablePath :=
  computeFixedOutputStorePath derivationName (js "nix.1/" ++ SHA512_OF_EMPTY)
    DEFAULT_HASH_ALGORITHM DEFAULT_STORE_PATH.
Definition loadPath : PortablePath := ppath_join (ppath_dirname DOWNLOAD) derivationName.
Definition import : Call jsstring :=
  execUtils_execvp (js "nix-store")
    [js "--add-fixed"; js "sha512"; js "./" ++ derivationName]
    (ppath_dirname DOWNLOAD) true.

(** The worlds a miss goes through, from the world it starts in. *)
Definition reported (w : World) : World := after onMiss w.
Definition loaded (w : World) : World := after loader (reported w).
Definition summed (w : World) : World :=
  after (hashUtils_checksumFile DOWNLOAD) (loaded w).
Definition probed (w : World) : World :=
  after (xfs_existsPromise storePath) (summed w).
Definition renamed (w : World) : World :=
  after (xfs_renamePromise DOWNLOAD loadPath) (probed w).
Definition imported (w : World) : World := after import (renamed w).
Definition printed (w : World) : jsstring :=
  match fst (handler import (renamed w)) with
  | inr stdout => stdout
  | inl _ => []
  end.

End SimRuns.

(* ===================================================================== *)
(** ** nixUtils.ts: hexadecimal, base64 and SRI hashes *)
(* ===================================================================== *)

(** The byte a number below 256 is. *)
Definition byte_of_N (n : N) : byte :=
  match Byte.of_N (N.land n 255) with
  | Some b => b
  | None => x00
  end.

(** The value of a hexadecimal digit, in either case. *)
Definition unhex (c : char16) : option N :=
  if N.leb 48 c && N.leb c 57 then Some (c - 48)%N
  else if N.leb 97 c && N.leb c 102 then Some (c - 87)%N
  else if N.leb 65 c && N.leb c 70 then Some (c - 55)%N
  else None.

(** [Buffer.from(s, "hex")]: one byte per pair of digits, up to the first
    pair that is incomplete or holds something else than a digit.  This is
    Node's decoder on texts of characters below U+0100, all checksums among
    them; what Node makes of other characters is not modelled: the
    properties below keep to such texts, or hold of whatever bytes come
    out. *)
Fixpoint Buffer_from_hex (s : jsstring) : Buffer :=
  match s with
  | a :: b :: rest =>
      match unhex a, unhex b with
      | Some x, Some y => byte_of_N (16 * x + y) :: Buffer_from_hex rest
      | _, _ => []
      end
  | _ => []
  end.

Definition BASE64_ALPHABET : jsstring :=
  js "ABCDEFGHIJKLMNOPQRSTUVWXYZabcdefghijklmnopqrstuvwxyz0123456789+/".

Definition base64_char (i : N) : char16 := nth (N.to_nat i) BASE64_ALPHABET 0%N.

Definition PAD : char16 := 61%N.

(** [buf.toString("base64")]: four characters per three bytes, padded
    with [=]. *)
Fixpoint toString_base64 (buf : Buffer) : jsstring :=
  match buf with
  | [] => []
  | [a] =>
      let a := Byte.to_N a in
      [base64_char (a / 4); base64_char (a mod 4 * 16); PAD; PAD]%N
  | [a; b] =>
      let a := Byte.to_N a in
      let b := Byte.to_N b in
      [base64_char (a / 4); base64_char (a mod 4 * 16 + b / 16);
       base64_char (b mod 16 * 4); PAD]%N
  | a :: b :: c :: rest =>
      let a := Byte.to_N a in
      let b := Byte.to_N b in
      let c := Byte.to_N c in
      [base64_char (a / 4); base64_char (a mod 4 * 16 + b / 16);
       base64_char (b mod 16 * 4 + c / 64); base64_char (c mod 64)]%N
      ++ toString_base64 rest
  end.

(** [hashToSri(hash, hashAlgorithm)] *)
Definition hashToSri (hash hashAlgorithm : jsstring) : jsstring :=
  let b64 := toString_base64 (Buffer_from_hex hash) in
  hashAlgorithm ++ js "-" ++ b64.

(** Lower-case hexadecimal digits, as [toString("hex")] prints them. *)
Definition is_lower_hex_char (c : char16) : bool :=
  (N.leb 48 c && N.leb c 57) || (N.leb 97 c && N.leb c 102).

(** Where a character first stands in a string. *)
Fixpoint position_of (c : char16) (s : jsstring) : option nat :=
  match s with
  | [] => None
  | d :: s' => if N.eqb c d then Some 0 else option_map S (position_of c s')
  end.

(** Byte-wise exclusive or of two buffers, as long as the shorter one. *)
Definition xor_buffers (a b : Buffer) : Buffer :=
  map (fun p => byte_xor (fst p) (snd p)) (combine a b).

(** The byte whose bits, most significant first, are given. *)
Definition byte_of_bits (l : list bool) : byte :=
  match l with
  | [b7; b6; b5; b4; b3; b2; b1; b0] =>
      Byte.of_bits (b0, (b1, (b2, (b3, (b4, (b5, (b6, b7)))))))
  | _ => x00
  end.

(** A path segment that normalisation keeps as it is: not empty, free of
    slashes, neither [.] nor [..]. *)
Definition plain_segment (seg : jsstring) : Prop :=
  seg <> [] /\ no_slash seg /\ seg <> [DOT] /\ seg <> [DOT; DOT].

(** An absolute path in normal form: a slash, then plain segments joined
    by slashes. *)
Definition normal_absolute (p : PortablePath) : Prop :=
  exists seg segs,
    Forall plain_segment (seg :: segs) /\ p = SLASH :: join_slash (seg :: segs).

(** A string of white space only. *)
Definition blank (s : jsstring) : Prop := Forall (fun c => is_js_space c = true) s.

(** More of what a trace says. *)
Definition is_unlink `{Externals} `{Runtime} (e : Entry) : bool :=
  match e with
  | Called c _ => match c with xfs_unlinkPromise _ => true | _ => false end
  end.

Definition is_rename `{Externals} `{Runtime} (e : Entry) : bool :=
  match e with
  | Called c _ => match c with xfs_renamePromise _ _ => true | _ => false end
  end.

Definition is_new_ZipFS `{Externals} `{Runtime} (e : Entry) : bool :=
  match e with
  | Called c _ => match c with new_ZipFS _ _ _ => true | _ => false end
  end.

Definition is_checksumFile `{Externals} `{Runtime} (e : Entry) : bool :=
  match e with
  | Called c _ => match c with hashUtils_checksumFile _ => true | _ => false end
  end.

(* ===================================================================== *)
(** ** The loader: NpmSemverFetcher.ts and [convertTgzToZip] of nixUtils.ts *)
(* ===================================================================== *)

(** What the loader takes from the npm plugin and from [@yarnpkg/fslib]:
    [OriginalFetcher.getLocatorUrl] and [constants.SAFE_TIME]. *)
Class NpmPlugin `{Externals} := {
  getLocatorUrl : Locator -> jsstring;
  SAFE_TIME : N;
}.

Definition PERCENT : char16 := 37%N.
Definition DIGIT_2 : char16 := 50%N.
Definition LOWER_F : char16 := 102%N.

(** [url.replace(/%2f/g, "/")]: every [%2f], from left to right, the
    search resuming after each one. *)
Fixpoint replace_2f (s : jsstring) : jsstring :=
  match s with
  | [] => []
  | a :: rest =>
      match rest with
      | b :: c :: rest' =>
          if N.eqb a PERCENT && N.eqb b DIGIT_2 && N.eqb c LOWER_F
          then SLASH :: replace_2f rest'
          else a :: replace_2f rest
      | _ => a :: replace_2f rest
      end
  end.

(** [s.includes(needle)] *)
Fixpoint includes (s needle : jsstring) : bool :=
  startsWith s needle ||
  match s with
  | [] => false
  | _ :: s' => includes s' needle
  end.

Module Loader.
Section Calls.
Context `{Ext : Externals} `{Rt : Runtime} `{Npm : !NpmPlugin}.

(** The calls the loader awaits.  [npmHttpUtils.get] is given the same
    options, the project's configuration and the locator as [ident], both
    times. *)
Inductive Call : Type -> Type :=
| npmHttpUtils_get (url : jsstring) (ident : Locator) : Call Buffer
| xfs_mktempPromise : Call PortablePath
| xfs_writeFilePromise (p : PortablePath) (content : Buffer) : Call unit
| xfs_utimesPromise (p : PortablePath) (atime mtime : N) : Call unit
(** [execUtils.execvp(fileName, args, {cwd, strict, env})] *)
| execUtils_execvp (fileName : jsstring) (args : list jsstring)
    (cwd : PortablePath) (strict : bool) (env : list (jsstring * jsstring))
    : Call jsstring
| xfs_unlinkPromise (p : PortablePath) : Call unit.

(** Programs over [Call] that can catch: an awaited call goes on one way
    when it answers and another when it rejects. *)
Inductive Prog (A : Type) : Type :=
| Ret (a : A)
| Raise (e : Exn)
| Await (X : Type) (c : Call X) (ok : X -> Prog A) (err : Exn -> Prog A).

Arguments Ret {A} a.
Arguments Raise {A} e.
Arguments Await {A X} c ok err.

Fixpoint bind {A B : Type} (p : Prog A) (f : A -> Prog B) : Prog B :=
  match p with
  | Ret a => f a
  | Raise e => Raise e
  | Await c ok err => Await c (fun x => bind (ok x) f) (fun e => bind (err e) f)
  end.

(** [try { p } catch (error) { h(error) }] *)
Fixpoint try_catch {A : Type} (p : Prog A) (h : Exn -> Prog A) : Prog A :=
  match p with
  | Ret a => Ret a
  | Raise e => h e
  | Await c ok err =>
      Await c (fun x => try_catch (ok x) h) (fun e => try_catch (err e) h)
  end.

Definition await {X : Type} (c : Call X) : Prog X := Await c Ret Raise.

Local Notation "x <- p ;; q" := (bind p (fun x => q))
  (at level 61, p at next level, right associativity).
Local Notation "p ;; q" := (bind p (fun _ => q))
  (at level 61, right associativity).

Definition tgzPathIn (tempDir : PortablePath) : PortablePath :=
  ppath_join tempDir (js "archive.tgz").

Definition zipPathIn (tempDir : PortablePath) : PortablePath :=
  ppath_join tempDir (js "archive.zip").

(** [convertTgzToZip(tgz)], with the value [bsdtarExe] of globalEnv.ts has
    when it is called. *)
Definition convertTgzToZip (bsdtarExe : jsstring) (tgz : Buffer) : Prog PortablePath :=
  tempDir <- await xfs_mktempPromise ;;
  let tgzPath := tgzPathIn tempDir in
  let zipPath := zipPathIn tempDir in
  await (xfs_writeFilePromise tgzPath tgz) ;;
  await (xfs_utimesPromise tgzPath SAFE_TIME SAFE_TIME) ;;
  await (execUtils_execvp bsdtarExe
           [js "-cf"; zipPath; js "--format=zip"; js "@" ++ tgzPath]
           [SLASH] true [(js "TZ", js "UTC")]) ;;
  await (xfs_unlinkPromise tgzPath) ;;
  Ret zipPath.

(** [NpmSemverFetcher.fetchFromNetworkAlt(locator, opts)] *)
Definition fetchFromNetworkAlt (bsdtarExe : jsstring) (locator : Locator)
  : Prog PortablePath :=
  sourceBuffer <-
    try_catch
      (await (npmHttpUtils_get (getLocatorUrl locator) locator))
      (fun error =>
         await (npmHttpUtils_get (replace_2f (getLocatorUrl locator)) locator)) ;;
  convertTgzToZip bsdtarExe sourceBuffer.

(** One call with the answer it got. *)
Inductive Entry : Type :=
| Called (X : Type) (c : Call X) (r : Exn + X).

Arguments Called {X} c r.

Section Run.
Variable World : Type.
Variable handler : forall X : Type, Call X -> World -> (Exn + X) * World.

Fixpoint run {A : Type} (p : Prog A) (w : World) : list Entry * (Exn + A) :=
  match p with
  | Ret a => ([], inr a)
  | Raise e => ([], inl e)
  | Await c ok err =>
      match handler c w with
      | (inl e, w') =>
          let '(tr, res) := run (err e) w' in (Called c (inl e) :: tr, res)
      | (inr x, w') =>
          let '(tr, res) := run (ok x) w' in (Called c (inr x) :: tr, res)
      end
  end.

End Run.

Definition is_get (e : Entry) : bool :=
  match e with
  | Called c _ => match c with npmHttpUtils_get _ _ => true | _ => false end
  end.

Definition is_mktemp (e : Entry) : bool :=
  match e with
  | Called c _ => match c with xfs_mktempPromise => true | _ => false end
  end.

Definition is_unlink (e : Entry) : bool :=
  match e with
  | Called c _ => match c with xfs_unlinkPromise _ => true | _ => false end
  end.

Definition answered (e : Entry) : bool :=
  match e with Called _ (inr _) => true | Called _ (inl _) => false end.

Definition count (f : Entry -> bool) (tr : list Entry) : nat :=
  length (filter f tr).

End Calls.
End Loader.

(** A registry and a disk to run the loader on: the registry answers the
    URLs it lists, [mktemp] hands out one directory, and [bsdtar] writes
    the archive it is asked for next to its input. *)
Module LoaderSim.

Definition npm_url (l : YarnLocator) : jsstring :=
  match scope l with
  | Some (c :: s) => js "/@" ++ (c :: s) ++ js "%2f" ++ name l
  | _ => js "/" ++ name l
  end ++ js "/-/" ++ name l ++ js "-" ++ skipn 4 (reference l) ++ js ".tgz".

#[export] Instance npm : @NpmPlugin node_externals := {|
  getLocatorUrl := npm_url;
  SAFE_TIME := 456789000;
|}.

Record World := {
  served : list (jsstring * Buffer);
  files : list PortablePath;
}.

Definition lookup (url : jsstring) (w : World) : option Buffer :=
  match find (fun entry => str_eqb url (fst entry)) (served w) with
  | Some entry => Some (snd entry)
  | None => None
  end.

Definition has_file (w : World) (p : PortablePath) : bool :=
  existsb (str_eqb p) (files w).

Definition with_files (w : World) (fs : list PortablePath) : World :=
  {| served := served w; files := fs |}.

Definition NOT_FOUND : jsstring := js "404 (Not Found)".
Definition ENOENT : jsstring := js "ENOENT".
Definition TEMP_DIR : PortablePath := js "/tmp/xfs-3fa1c2d4".
Definition BSDTAR : jsstring := js "bsdtar".

Definition handler (X : Type) (c : @Loader.Call node_externals X) (w : World)
  : (@Exn Sim.runtime + X) * World :=
  match c in Loader.Call X return (@Exn Sim.runtime + X) * World with
  | Loader.npmHttpUtils_get url _ =>
      match lookup url w with
      | Some body => (inr body, w)
      | None => (inl NOT_FOUND, w)
      end
  | Loader.xfs_mktempPromise => (inr TEMP_DIR, w)
  | Loader.xfs_writeFilePromise p _ => (inr tt, with_files w (p :: files w))
  | Loader.xfs_utimesPromise p _ _ =>
      if has_file w p then (inr tt, w) else (inl ENOENT, w)
  | Loader.execUtils_execvp fileName args _ _ _ =>
      match args with
      | [_; out; _; source] =>
          if str_eqb fileName BSDTAR && has_file w (skipn 1 source)
          then (inr [], with_files w (out :: files w))
          else (inl ENOENT, w)
      | _ => (inl ENOENT, w)
      end
  | Loader.xfs_unlinkPromise p =>
      if has_file w p
      then (inr tt, with_files w (filter (fun q => negb (str_eqb p q)) (files w)))
      else (inl ENOENT, w)
  end.

Definition babel_core : YarnLocator :=
  {| scope := Some (js "babel"); name := js "core"; reference := js "npm:7.0.0" |}.

Definition TARBALL : Buffer := [x1f; x8b; x08].

(** A registry that knows the package under its plain URL only. *)
Definition plain_registry : World :=
  {| served := [(js "/@babel/core/-/core-7.0.0.tgz", TARBALL)]; files := [] |}.

(** A registry that knows it under the escaped URL. *)
Definition escaping_registry : World :=
  {| served := [(js "/@babel%2fcore/-/core-7.0.0.tgz", TARBALL)]; files := [] |}.

(** A registry that does not know it. *)
Definition empty_registry : World := {| served := []; files := [] |}.

End LoaderSim.

(** The file an entry asks [nix-store] to import: the third argument, seen
    from the working directory of the call. *)
Definition import_target `{Externals} `{Runtime} (e : Entry) : option PortablePath :=
  match e with
  | Called c _ =>
      match c with
      | execUtils_execvp _ args cwd _ => Some (ppath_join cwd (nth 2 args []))
      | _ => None
      end
  end.

(** The path an entry has moved a file to. *)
Definition renamed_to `{Externals} `{Runtime} (e : Entry) : option PortablePath :=
  match e with
  | Called c (inr _) =>
      match c with
      | xfs_renamePromise _ newP => Some newP
      | _ => None
      end
  | Called _ (inl _) => None
  end.

(* ===================================================================== *)
(** ** generateNixExpr.ts: the fetch derivations *)
(* ===================================================================== *)

(** What the generator reads from the project and from the platform: a
    package's [reference], its entry in [project.storedChecksums], the
    [__archiveUrl] parameter of [new URL(reference)], and
    [JSON.stringify] on strings. *)
Class Project `{Externals} := {
  reference_of : Locator -> jsstring;
  storedChecksums_get : Locator -> option jsstring;
  searchParams_archiveUrl : Locator -> option jsstring;
  JSON_stringify : jsstring -> jsstring;
}.

Definition NPM_REGISTRY : jsstring := js "https://registry.npmjs.org".

Definition QUOTE : char16 := 34%N.
Definition BACKSLASH : char16 := 92%N.
Definition DOLLAR : char16 := 36%N.
Definition NEWLINE : char16 := 10%N.

(** How the generation of the fetch derivations can fail: by its own
    [throw Error(...)], or by a [TypeError] of the platform, splitting a
    checksum that is not there or decoding one that has no second part. *)
Inductive GenError : Type :=
| CannotGenerate (message : jsstring)
| TypeError.

(** [const [, checksum] = stored.split("/")] *)
Definition second_part (stored : jsstring) : option jsstring :=
  nth_error (split_slash stored) 1.

Section GenerateNixExpr.
Context `{Ext : Externals} `{Npm : !NpmPlugin} `{Proj : !Project}.

(** The template of one fetch derivation, around the three values it
    interpolates; [url] comes quoted by [JSON.stringify]. *)
Definition fetchNpm_text (name url hash : jsstring) : jsstring :=
  [NEWLINE] ++ js "(fetchNpm {" ++ [NEWLINE] ++
  js "  name = " ++ [QUOTE] ++ name ++ [QUOTE] ++ js ";" ++ [NEWLINE] ++
  js "  url = " ++ url ++ js ";" ++ [NEWLINE] ++
  js "  hash = " ++ [QUOTE] ++ hash ++ [QUOTE] ++ js ";" ++ [NEWLINE] ++
  js "})" ++ [NEWLINE].

(** [url.searchParams.get("__archiveUrl") || NPM_REGISTRY + getLocatorUrl(pkg)] *)
Definition archiveUrl_of (pkg : Locator) : jsstring :=
  match searchParams_archiveUrl pkg with
  | Some u => if truthy u then u else NPM_REGISTRY ++ getLocatorUrl pkg
  | None => NPM_REGISTRY ++ getLocatorUrl pkg
  end.

(** The text one [npm:] package adds to [packageDerivations]. *)
Definition fetchNpm_entry (pkg : Locator) : GenError + jsstring :=
  let archiveUrl := archiveUrl_of pkg in
  match storedChecksums_get pkg with
  | None => inl TypeError
  | Some stored =>
      match second_part stored with
      | None => inl TypeError
      | Some checksum =>
          inr (fetchNpm_text (locatorDerivationName pkg)
                 (JSON_stringify archiveUrl)
                 (hashToSri checksum (js "sha512")))
      end
  end.

(** The loop over [project.storedPackages.values()], from the text
    gathered so far. *)
Fixpoint packageDerivations_from (acc : jsstring) (pkgs : list Locator)
  : GenError + jsstring :=
  match pkgs with
  | [] => inr acc
  | pkg :: rest =>
      if startsWith (reference_of pkg) (js "npm:") then
        match fetchNpm_entry pkg with
        | inl e => inl e
        | inr entry => packageDerivations_from (acc ++ entry) rest
        end
      else if startsWith (reference_of pkg) (js "virtual:") then
        packageDerivations_from acc rest
      else if str_eqb (reference_of pkg) (js "workspace:.") then
        packageDerivations_from acc rest
      else
        inl (CannotGenerate
               (js "Cannot generate fetch derivation for package: " ++
                stringifyLocator pkg))
  end.

Definition packageDerivations (pkgs : list Locator) : GenError + jsstring :=
  packageDerivations_from [] pkgs.

(** The kinds of package the loop knows. *)
Definition is_npm (pkg : Locator) : bool := startsWith (reference_of pkg) (js "npm:").

Definition is_ignored (pkg : Locator) : bool :=
  negb (is_npm pkg) &&
  (startsWith (reference_of pkg) (js "virtual:") ||
   str_eqb (reference_of pkg) (js "workspace:.")).

(** A package the loop gets past: an [npm:] one whose entry can be
    written, or one it ignores. *)
Definition passes (pkg : Locator) : Prop :=
  if is_npm pkg then exists text, fetchNpm_entry pkg = inr text
  else is_ignored pkg = true.

End GenerateNixExpr.

(** A character that neither ends a double-quoted Nix string, nor escapes
    in it, nor starts an interpolation. *)
Definition nix_string_safe (c : char16) : Prop :=
  c <> QUOTE /\ c <> BACKSLASH /\ c <> DOLLAR.

(** A project to generate from: references as locators carry them, one
    stored checksum, no archive URL of its own, and [JSON.stringify] on
    strings as ECMAScript defines it. *)
Module ProjectSim.

Definition hex4 (n : N) : jsstring :=
  [hex_digit (N.shiftr n 12); hex_digit (N.land (N.shiftr n 8) 15);
   hex_digit (N.land (N.shiftr n 4) 15); hex_digit (N.land n 15)].

Definition unicode_escape (c : char16) : jsstring := js "\u" ++ hex4 c.

Fixpoint quote_json (s : jsstring) : jsstring :=
  match s with
  | [] => []
  | c :: s' =>
      if N.eqb c QUOTE then BACKSLASH :: QUOTE :: quote_json s'
      else if N.eqb c BACKSLASH then BACKSLASH :: BACKSLASH :: quote_json s'
      else if N.eqb c 8 then js "\b" ++ quote_json s'
      else if N.eqb c 9 then js "\t" ++ quote_json s'
      else if N.eqb c 10 then js "\n" ++ quote_json s'
      else if N.eqb c 12 then js "\f" ++ quote_json s'
      else if N.eqb c 13 then js "\r" ++ quote_json s'
      else if N.ltb c 32 then unicode_escape c ++ quote_json s'
      else if is_high_surrogate c then
        match s' with
        | d :: s'' =>
            if is_low_surrogate d then c :: d :: quote_json s''
            else unicode_escape c ++ quote_json s'
        | [] => unicode_escape c
        end
      else if is_low_surrogate c then unicode_escape c ++ quote_json s'
      else c :: quote_json s'
  end.

Definition stringify (s : jsstring) : jsstring := [QUOTE] ++ quote_json s ++ [QUOTE].

Definition checksum_of (l : YarnLocator) : option jsstring :=
  if str_eqb (name l) (js "left-pad")
  then Some (js "nix.1/" ++ Sim.SHA512_OF_EMPTY)
  else None.

#[export] Instance project : @Project node_externals := {|
  reference_of := reference;
  storedChecksums_get := checksum_of;
  searchParams_archiveUrl := fun _ => None;
  JSON_stringify := stringify;
|}.

Definition workspace : YarnLocator :=
  {| scope := None; name := js "yarn-nixpkgs-install"; reference := js "workspace:." |}.

Definition patched : YarnLocator :=
  {| scope := None; name := js "resolve";
     reference := js "patch:resolve@1.20.0#builtin<compat/resolve>" |}.

End ProjectSim.

(* ===================================================================== *)
(** ** generateSharedLoader.ts: patching the loader *)
(* ===================================================================== *)

Definition LBRACE : char16 := 123%N.
Definition RBRACE : char16 := 125%N.

Definition SETUP_STATE : jsstring :=
  [NEWLINE] ++
  js "  var path = require('path');" ++ [NEWLINE] ++
  js "  var dataLocation = path.resolve(process.env.NIX_YARN_PNP_BASE, " ++
  [QUOTE] ++ js "pnp.data.json" ++ [QUOTE] ++ js ");" ++ [NEWLINE] ++
  js "  return hydrateRuntimeState(require(dataLocation), {basePath: basePath || path.dirname(dataLocation)});" ++
  [NEWLINE].

Definition SETUP_STATE_MARKER : jsstring := js "$$SETUP_STATE".

Definition NO_SETUP_STATE : jsstring := js "Invalid loader: no $$SETUP_STATE found".
Definition UNBALANCED_BRACES : jsstring := js "Invalid loader: unbalanced braces".

(** [s.indexOf(needle)], counting from [i]; [None] for [-1]. *)
Fixpoint indexOf_from (i : nat) (s needle : jsstring) : option nat :=
  if startsWith s needle then Some i
  else
    match s with
    | [] => None
    | _ :: s' => indexOf_from (S i) s' needle
    end.

Definition indexOf (s needle : jsstring) : option nat := indexOf_from 0 s needle.

(** What the regular expression [/[{}]/g] matches. *)
Definition is_brace (c : char16) : bool := N.eqb c LBRACE || N.eqb c RBRACE.

(** The loop over the braces of [loaderFile.slice(idx)]: [s] is what is
    left of the slice from position [index] on.  It ends by [throw], by
    [break] or with the last match, and leaves [start] and [end]; the
    [default] case of its [switch] cannot be taken, a match being one of
    the two braces. *)
Fixpoint scan_braces (idx index : nat) (s : jsstring) (start end_ : nat) (depth : Z)
  : jsstring + nat * nat :=
  match s with
  | [] => inr (start, end_)
  | c :: s' =>
      if is_brace c then
        if Z.eqb depth 0 && negb (N.eqb c LBRACE) then inl UNBALANCED_BRACES
        else
          let start := if Z.eqb depth 0 then idx + index + 1 else start in
          let depth := if N.eqb c LBRACE then (depth + 1)%Z else (depth - 1)%Z in
          if Z.eqb depth 0 then inr (start, idx + index)
          else scan_braces idx (S index) s' start end_ depth
      else scan_braces idx (S index) s' start end_ depth
  end.

(** [generateSharedLoader()], from the [loaderFile] that
    [generateSplitScript] of [@yarnpkg/pnp] returns. *)
Definition generateSharedLoader (loaderFile : jsstring) : jsstring + jsstring :=
  match indexOf loaderFile SETUP_STATE_MARKER with
  | None => inl NO_SETUP_STATE
  | Some idx =>
      match scan_braces idx 0 (slice_from idx loaderFile) 0 0 0 with
      | inl message => inl message
      | inr (start, end_) =>
          inr (slice_to start loaderFile ++ SETUP_STATE ++ slice_from end_ loaderFile)
      end
  end.

Definition no_braces (s : jsstring) : Prop := Forall (fun c => is_brace c = false) s.

(** The braces of [s] pair up, [depth] of them being open before it. *)
Fixpoint balanced_from (depth : nat) (s : jsstring) : bool :=
  match s with
  | [] => Nat.eqb depth 0
  | c :: s' =>
      if N.eqb c LBRACE then balanced_from (S depth) s'
      else if N.eqb c RBRACE then
        match depth with
        | 0 => false
        | S depth' => balanced_from depth' s'
        end
      else balanced_from depth s'
  end.

(** No brace of [s] closes the block [s] lies in, [depth] more being open
    before it. *)
Fixpoint never_closes (depth : nat) (s : jsstring) : bool :=
  match s with
  | [] => true
  | c :: s' =>
      if N.eqb c LBRACE then never_closes (S depth) s'
      else if N.eqb c RBRACE then
        match depth with
        | 0 => false
        | S depth' => never_closes depth' s'
        end
      else never_closes depth s'
  end.

(* ===================================================================== *)
(** * Properties *)
(* ===================================================================== *)

(* --------------------------------------------------------------------- *)
(** ** The definitions at work *)
(* --------------------------------------------------------------------- *)

Example encodeBase32_one : encodeBase32 [x00] = js "00".
Proof. reflexivity. Qed.

Example encodeBase32_three :
  encodeBase32 ["001"; "002"; "255"]%byte = js "zw101".
Proof. vm_compute. reflexivity. Qed.

Example compressHash_four :
  compressHash ["001"; "002"; "255"; "004"]%byte 3 = ["005"; "002"; "255"]%byte.
Proof. reflexivity. Qed.

Example sha256_abc :
  toString_hex (node_createHash (js "sha256") (js "abc")) =
  js "ba7816bf8f01cfea414140de5dae2223b00361a396177a9cb410ff61f20015ad".
Proof. vm_compute. reflexivity. Qed.

Example ppath_join_store :
  ppath_join (js "/nix/store") (js "abc-left-pad.zip") = js "/nix/store/abc-left-pad.zip".
Proof. vm_compute. reflexivity. Qed.

Example ppath_join_dots :
  ppath_join (js "/nix/store/") (js "./x//../y/") = js "/nix/store/y/".
Proof. vm_compute. reflexivity. Qed.

Example ppath_dirname_shapes :
  map ppath_dirname [js "a//b"; js "//a"; js "/a"; js "a"; js ""; js "/a/b/"] =
  [js "a/"; js "//"; js "/"; js "."; js "."; js "/a"].
Proof. vm_compute. reflexivity. Qed.

Example ppath_dirname_download :
  ppath_dirname Sim.DOWNLOAD = js "/tmp/xfs-3fa1c2d4".
Proof. vm_compute. reflexivity. Qed.

Example sanitize_weird_name :
  sanitizeDerivationName (js ".././weird name!!.zip") = js "-.-weird-name-.zip".
Proof. vm_compute. reflexivity. Qed.

Example store_path_left_pad :
  computeFixedOutputStorePath (locatorDerivationName Sim.left_pad)
    (js "nix.1/" ++ Sim.SHA512_OF_EMPTY) (js "sha512") (js "/nix/store") =
  js "/nix/store/xvmalxaz4ajf2i9vivra82slk4lcq1gz-left-pad-npm-1.3.0.zip".
Proof. vm_compute. reflexivity. Qed.

Example ppath_join_parent :
  ppath_join (js "/nix/store") (js "0123-a/..") = js "/nix/store".
Proof. vm_compute. reflexivity. Qed.

Example hit_on_stocked_machine :
  map call_name
    (fst (run Sim.handler
            (fetchPackageFromNixStore Sim.left_pad (Some Sim.SHA512_OF_EMPTY))
            Sim.stocked)) =
  ["xfs.existsPromise"; "onHit"; "getLibzipPromise"; "new ZipFS"]%string.
Proof. vm_compute. reflexivity. Qed.

Example miss_on_fresh_machine :
  map call_name
    (fst (run Sim.handler (fetchPackageFromNixStore Sim.left_pad None) Sim.fresh)) =
  ["onMiss"; "loader"; "hashUtils.checksumFile"; "xfs.existsPromise";
   "xfs.renamePromise"; "execUtils.execvp"; "xfs.unlinkPromise";
   "getLibzipPromise"; "new ZipFS"]%string.
Proof. vm_compute. reflexivity. Qed.

Example miss_on_stocked_machine :
  map call_name
    (fst (run Sim.handler (fetchPackageFromNixStore Sim.left_pad None) Sim.stocked)) =
  ["onMiss"; "loader"; "hashUtils.checksumFile"; "xfs.existsPromise";
   "xfs.unlinkPromise"; "getLibzipPromise"; "new ZipFS"]%string.
Proof. vm_compute. reflexivity. Qed.

Example miss_on_drifting_machine :
  let '(tr, res) :=
    run Sim.handler (fetchPackageFromNixStore Sim.left_pad None) Sim.drifting in
  map call_name tr =
    ["onMiss"; "loader"; "hashUtils.checksumFile"; "xfs.existsPromise";
     "xfs.renamePromise"; "execUtils.execvp"]%string /\
  res = inl (ThrownError ASSERTION_MESSAGE).
Proof. vm_compute. split; reflexivity. Qed.

Example trim_output : trim (js "  /nix/store/x " ++ [10%N]) = js "/nix/store/x".
Proof. vm_compute. reflexivity. Qed.

(* --------------------------------------------------------------------- *)
(** ** encodeBase32 *)
(* --------------------------------------------------------------------- *)

Lemma flat_map_map {A B C : Type} (f : B -> list C) (g : A -> B) (l : list A) :
  flat_map f (map g l) = flat_map (fun x => f (g x)) l.
Proof.
  induction l as [| x l IH]; simpl; [reflexivity | now rewrite IH].
Qed.

(** The loop emits one piece of text per group of five characters. *)
Lemma encodeBase32_loop_groups (bits result : jsstring) :
  encodeBase32_loop result bits =
  result ++
  flat_map
    (fun k => index_text BASE32_CHARSET (parseInt2 (slice_to 5 (skipn (5 * k) bits))))
    (seq 0 (Nat.div (length bits + 4) 5)).
Proof.
  funelim (encodeBase32_loop result bits).
  - simpl. now rewrite app_nil_r.
  - rewrite H. rewrite <- app_assoc. f_equal.
    unfold slice_from.
    assert (E : Nat.div (length (b :: bs) + 4) 5
                = S (Nat.div (length (skipn 5 (b :: bs)) + 4) 5)).
    { rewrite length_skipn.
      destruct (le_lt_dec 5 (length (b :: bs))) as [Hl | Hl].
      - replace (length (b :: bs) + 4) with (length (b :: bs) - 5 + 4 + 1 * 5) by lia.
        rewrite Nat.div_add by lia. lia.
      - replace (length (b :: bs) - 5) with 0 by lia.
        simpl length in *. 
        assert (Hd : Nat.div (S (length bs) + 4) 5 = 1).
        { symmetry. apply Nat.div_unique with (r := length bs); lia. }
        rewrite Hd. reflexivity. }
    rewrite E. rewrite <- cons_seq, <- seq_shift. 
    cbn [flat_map]. rewrite Nat.mul_0_r. cbn [skipn]. f_equal.
    rewrite flat_map_map.
    apply flat_map_ext. intros k.
    replace (5 * S k) with (5 * k + 5) by lia.
    now rewrite <- skipn_skipn.
Qed.

Lemma byte_text_bits (b : byte) :
  padStart 8 48%N (toString2 (Byte.to_N b)) = map bit_char (byte_bits b).
Proof. destruct b; reflexivity. Qed.

Lemma byte_bits_length (b : byte) : length (byte_bits b) = 8.
Proof. reflexivity. Qed.

Lemma bit_text_of_buffer (l : Buffer) :
  concat (map (fun n => padStart 8 48%N (toString2 (Byte.to_N n))) l) =
  map bit_char (flat_map byte_bits l).
Proof.
  induction l as [| b l IH]; simpl concat; [reflexivity |].
  cbn [flat_map]. rewrite map_app, IH, byte_text_bits. reflexivity.
Qed.

Lemma spec_bit_string_length (buf : Buffer) :
  length (spec_bit_string buf) = 8 * length buf.
Proof.
  unfold spec_bit_string. rewrite <- (length_rev buf).
  induction (rev buf) as [| b l IH]; [reflexivity |].
  cbn [flat_map]. rewrite length_app, IH, byte_bits_length. simpl length. lia.
Qed.

Lemma parse_bin_prefix_bits (g : list bool) (a : nat) :
  parse_bin_prefix (map bit_char g) (Some (N.of_nat a)) =
  Some (N.of_nat
          (fold_left (fun acc (b : bool) => 2 * acc + (if b then 1 else 0)) g a)).
Proof.
  revert a. induction g as [| b g IH]; intros a; [reflexivity |].
  destruct b; cbn [map bit_char parse_bin_prefix fold_left N.eqb Pos.eqb].
  - replace (2 * N.of_nat a + 1)%N with (N.of_nat (2 * a + 1)) by lia. apply IH.
  - replace (2 * N.of_nat a)%N with (N.of_nat (2 * a + 0)) by lia. apply IH.
Qed.

Lemma parseInt2_bits (g : list bool) :
  g <> [] -> parseInt2 (map bit_char g) = Some (N.of_nat (bits_value g)).
Proof.
  destruct g as [| b g]; [congruence | intros _].
  unfold parseInt2, bits_value.
  destruct b; cbn [map bit_char parse_bin_prefix fold_left N.eqb Pos.eqb].
  - apply (parse_bin_prefix_bits g 1).
  - apply (parse_bin_prefix_bits g 0).
Qed.

Lemma bits_value_bound (g : list bool) : bits_value g < 2 ^ length g.
Proof.
  unfold bits_value.
  assert (G : forall a, fold_left (fun acc (b : bool) => 2 * acc + (if b then 1 else 0)) g a
                        < (a + 1) * 2 ^ length g).
  { induction g as [| b g IH]; intros a; cbn [fold_left length].
    - rewrite Nat.pow_0_r. lia.
    - specialize (IH (2 * a + (if b then 1 else 0))).
      rewrite Nat.pow_succ_r'.
      set (P := 2 ^ length g) in *. destruct b; nia. }
  specialize (G 0). lia.
Qed.

Lemma charset_is_spec_alphabet : BASE32_CHARSET = spec_alphabet.
Proof. reflexivity. Qed.

Lemma charset_length : length BASE32_CHARSET = 32.
Proof. reflexivity. Qed.

Lemma index_text_in_range (v : nat) :
  v < 32 ->
  index_text BASE32_CHARSET (Some (N.of_nat v)) = [nth v spec_alphabet 0%N].
Proof.
  intros Hv. unfold index_text. rewrite Nat2N.id.
  destruct (nth_error BASE32_CHARSET v) as [c |] eqn:E.
  - f_equal. symmetry. apply nth_error_nth. exact E.
  - apply nth_error_None in E. rewrite charset_length in E. lia.
Qed.

(** A group cut out of a bit string at a position inside it. *)
Lemma group_shape (bits : list bool) (k : nat) :
  k < Nat.div (length bits + 4) 5 ->
  let g := firstn 5 (skipn (5 * k) bits) in
  g <> [] /\ length g <= 5.
Proof.
  intros Hk g. subst g. split.
  - intros E. apply (f_equal (@length bool)) in E.
    rewrite length_firstn, length_skipn in E. cbn [length] in E.
    assert (5 * k < length bits).
    { assert (5 * S k <= length bits + 4).
      { transitivity (5 * Nat.div (length bits + 4) 5).
        - apply Nat.mul_le_mono_l. lia.
        - apply Nat.Div0.mul_div_le. }
      lia. }
    lia.
  - rewrite length_firstn. lia.
Qed.

Lemma flat_map_singletons {A B : Type} (g : A -> list B) (f : A -> B) (l : list A) :
  (forall x, In x l -> g x = [f x]) -> flat_map g l = map f l.
Proof.
  induction l as [| x l IH]; intros H; [reflexivity |].
  cbn [flat_map map]. rewrite (H x (or_introl eq_refl)), IH; [reflexivity |].
  intros y Hy. apply H. now right.
Qed.

(** The code's encoder is the encoder of the specification. *)
Lemma encodeBase32_spec (buf : Buffer) : encodeBase32 buf = spec_encodeBase32 buf.
Proof.
  unfold encodeBase32, spec_encodeBase32.
  rewrite encodeBase32_loop_groups, bit_text_of_buffer. cbn [app].
  fold (spec_bit_string buf). rewrite length_map.
  set (bits := spec_bit_string buf).
  apply flat_map_singletons. intros k Hk.
  apply in_seq in Hk.
  destruct (@group_shape bits k) as [Hne Hlen]; [lia |].
  unfold slice_to. rewrite skipn_map, firstn_map.
  rewrite parseInt2_bits by exact Hne.
  apply index_text_in_range.
  eapply Nat.lt_le_trans; [apply bits_value_bound |].
  change 32 with (2 ^ 5). apply Nat.pow_le_mono_r; lia.
Qed.

Lemma encodeBase32_length (buf : Buffer) :
  length (encodeBase32 buf) = Nat.div (8 * length buf + 4) 5.
Proof.
  rewrite encodeBase32_spec. unfold spec_encodeBase32.
  now rewrite length_map, length_seq, spec_bit_string_length.
Qed.

Lemma encodeBase32_alphabet (buf : Buffer) :
  Forall (fun c => In c BASE32_CHARSET) (encodeBase32 buf).
Proof.
  rewrite encodeBase32_spec. unfold spec_encodeBase32.
  apply Forall_forall. intros c Hc.
  apply in_map_iff in Hc. destruct Hc as [k [<- Hk]].
  apply in_seq in Hk.
  destruct (@group_shape (spec_bit_string buf) k) as [_ Hlen]; [lia |].
  rewrite charset_is_spec_alphabet. apply nth_In.
  change (length spec_alphabet) with (2 ^ 5).
  eapply Nat.lt_le_trans; [apply bits_value_bound |].
  apply Nat.pow_le_mono_r; lia.
Qed.

(** C5. [encodeBase32] returns [ceil(8 * byteLength / 5)] characters, each
    of them from the 32-character alphabet (the digits and the lowercase
    letters without e, o, u, t); twenty bytes give 32 characters. *)
Theorem encodeBase32_length_and_alphabet (buf : Buffer) :
  8 * length buf <= 5 * length (encodeBase32 buf) < 8 * length buf + 5 /\
  Forall (fun c => In c BASE32_CHARSET) (encodeBase32 buf) /\
  BASE32_CHARSET = spec_alphabet /\
  length BASE32_CHARSET = 32 /\
  (length buf = 20 -> length (encodeBase32 buf) = 32).
Proof.
  rewrite encodeBase32_length.
  repeat split.
  - pose proof (Nat.div_mod_eq (8 * length buf + 4) 5) as E.
    pose proof (Nat.mod_upper_bound (8 * length buf + 4) 5). 
    assert ((8 * length buf + 4) mod 5 <= 4) by lia.
    lia.
  - pose proof (Nat.Div0.mul_div_le (8 * length buf + 4) 5). lia.
  - apply encodeBase32_alphabet.
  - intros ->. reflexivity.
Qed.

Lemma encodeBase32_length_and_alphabet_witness :
  length (repeat x00 20) = 20 /\ length (encodeBase32 (repeat x00 20)) = 32.
Proof.
  split; [reflexivity |].
  apply (encodeBase32_length_and_alphabet (repeat x00 20)). reflexivity.
Defined.

(* --------------------------------------------------------------------- *)
(** ** compressHash *)
(* --------------------------------------------------------------------- *)

Lemma xor_all_snoc (l : list byte) (x : byte) :
  xor_all (l ++ [x]) = byte_xor (xor_all l) x.
Proof. unfold xor_all. now rewrite fold_left_app. Qed.

Lemma xor_at_length (buf : Buffer) (i : nat) (v : byte) :
  length (xor_at buf i v) = length buf.
Proof.
  revert i. induction buf as [| b buf IH]; intros [| i]; simpl; auto.
Qed.

(** Writing at index [i] of a buffer given position by position. *)
Lemma xor_at_tabulated (F : nat -> byte) (v : byte) (size a i : nat) :
  xor_at (map F (seq a size)) i v =
  map (fun j => if Nat.eqb j (a + i) then byte_xor (F j) v else F j) (seq a size).
Proof.
  revert a i. induction size as [| size IH]; intros a i; [reflexivity |].
  cbn [seq map]. destruct i as [| i]; cbn [xor_at].
  - rewrite Nat.add_0_r, Nat.eqb_refl. f_equal.
    apply map_ext_in. intros j Hj. apply in_seq in Hj.
    destruct (Nat.eqb_spec j a); [lia | reflexivity].
  - destruct (Nat.eqb_spec a (a + S i)); [lia |]. f_equal.
    rewrite IH. apply map_ext. intros j.
    now replace (S a + i) with (a + S i) by lia.
Qed.

Lemma compressHash_prefix (hash : Buffer) (size n : nat) :
  fold_left
    (fun result idx =>
       if Nat.eqb size 0 then result
       else xor_at result (idx mod size) (nth idx hash x00))
    (seq 0 n) (Buffer_alloc size) =
  map
    (fun j =>
       xor_all
         (map (fun i => nth i hash x00)
            (filter (fun i => Nat.eqb (i mod size) j) (seq 0 n))))
    (seq 0 size).
Proof.
  induction n as [| n IH].
  - cbn [seq fold_left filter map]. unfold Buffer_alloc.
    generalize 0 as a.
    induction size as [| size IH]; intros a; [reflexivity |].
    cbn [repeat seq map]. now rewrite <- IH.
  - rewrite seq_S, fold_left_app, IH. cbn [fold_left Nat.add].
    destruct (Nat.eqb_spec size 0) as [-> | Hsize]; [reflexivity |].
    rewrite xor_at_tabulated. apply map_ext. intros j.
    rewrite filter_app, map_app. cbn [filter Nat.add].
    rewrite (Nat.eqb_sym j).
    destruct (Nat.eqb (n mod size) j).
    + cbn [map]. apply eq_sym, xor_all_snoc.
    + cbn [map]. now rewrite app_nil_r.
Qed.

(** The code's fold is the position-wise XOR of the specification. *)
Lemma compressHash_spec (hash : Buffer) (size : nat) :
  compressHash hash size = spec_compressHash hash size.
Proof. apply compressHash_prefix. Qed.

Lemma compressHash_length (hash : Buffer) (size : nat) :
  length (compressHash hash size) = size.
Proof.
  rewrite compressHash_spec. unfold spec_compressHash.
  now rewrite length_map, length_seq.
Qed.

(* --------------------------------------------------------------------- *)
(** ** ppath.join on an ordinary last segment *)
(* --------------------------------------------------------------------- *)

Lemma str_eqb_eq (a b : jsstring) : str_eqb a b = true <-> a = b.
Proof.
  unfold str_eqb. destruct (list_eq_dec N.eq_dec a b); split; congruence.
Qed.

Lemma str_eqb_neq (a b : jsstring) : a <> b -> str_eqb a b = false.
Proof.
  unfold str_eqb. destruct (list_eq_dec N.eq_dec a b); congruence.
Qed.

Lemma str_eqb_refl (a : jsstring) : str_eqb a a = true.
Proof. now apply str_eqb_eq. Qed.

Lemma split_slash_nonempty (s : jsstring) : split_slash s <> [].
Proof.
  destruct s as [| c s]; cbn [split_slash]; [discriminate |].
  destruct (N.eqb c SLASH); [discriminate |].
  destruct (split_slash s); discriminate.
Qed.

Lemma split_slash_no_slash (s : jsstring) : no_slash s -> split_slash s = [s].
Proof.
  induction 1 as [| c s Hc Hs IH]; [reflexivity |].
  cbn [split_slash]. apply N.eqb_neq in Hc. now rewrite Hc, IH.
Qed.

Lemma split_slash_app (a b : jsstring) :
  split_slash (a ++ SLASH :: b) = split_slash a ++ split_slash b.
Proof.
  induction a as [| c a IH]; [reflexivity |].
  cbn [app split_slash]. rewrite IH.
  destruct (N.eqb c SLASH); [reflexivity |].
  pose proof (split_slash_nonempty a) as Hne.
  destruct (split_slash a) as [| seg rest]; [congruence | reflexivity].
Qed.

Lemma resolve_segments_app (allow : bool) (l1 l2 stack : list jsstring) :
  resolve_segments allow stack (l1 ++ l2) =
  resolve_segments allow (rev (resolve_segments allow stack l1)) l2.
Proof.
  revert stack. induction l1 as [| seg l1 IH]; intros stack.
  - cbn [app resolve_segments]. now rewrite rev_involutive.
  - cbn [app resolve_segments].
    destruct (str_eqb seg [] || str_eqb seg [DOT]); [apply IH |].
    destruct (str_eqb seg [DOT; DOT]); [| apply IH].
    destruct stack as [| top stack']; [destruct allow; apply IH |].
    destruct (str_eqb top [DOT; DOT]); apply IH.
Qed.

Lemma resolve_segments_plain (allow : bool) (stack : list jsstring) (seg : jsstring) :
  3 <= length seg ->
  resolve_segments allow stack [seg] = rev stack ++ [seg].
Proof.
  intros Hlen. cbn [resolve_segments].
  rewrite !str_eqb_neq; [reflexivity | | |];
    intros E; rewrite E in Hlen; cbn in Hlen; lia.
Qed.

Lemma join_slash_snoc (R : list jsstring) (seg : jsstring) :
  join_slash (R ++ [seg]) =
  match R with
  | [] => seg
  | _ :: _ => join_slash R ++ SLASH :: seg
  end.
Proof.
  induction R as [| r R IH]; [reflexivity |].
  destruct R as [| r' R]; [reflexivity |].
  change (join_slash ((r :: r' :: R) ++ [seg]))
    with (r ++ SLASH :: join_slash ((r' :: R) ++ [seg])).
  rewrite IH. change (join_slash (r :: r' :: R)) with (r ++ SLASH :: join_slash (r' :: R)).
  now rewrite <- app_assoc.
Qed.

Lemma last_no_slash (pre seg : jsstring) :
  no_slash seg -> seg <> [] -> N.eqb (last (pre ++ seg) 0%N) SLASH = false.
Proof.
  intros Hns Hne. apply N.eqb_neq.
  destruct (exists_last Hne) as [seg' [c ->]].
  rewrite app_assoc, last_last. apply Forall_app in Hns. destruct Hns as [_ Hc].
  now inversion Hc.
Qed.

Lemma posix_normalize_nonempty (path : jsstring) :
  path <> [] ->
  posix_normalize path =
  let isAbsolute := N.eqb (hd 0%N path) SLASH in
  let trailingSeparator := N.eqb (last path 0%N) SLASH in
  let res :=
    join_slash (resolve_segments (negb isAbsolute) [] (split_slash path)) in
  match res with
  | [] =>
      if isAbsolute then [SLASH]
      else if trailingSeparator then [DOT; SLASH] else [DOT]
  | _ :: _ =>
      let res' := if trailingSeparator then res ++ [SLASH] else res in
      if isAbsolute then SLASH :: res' else res'
  end.
Proof. destruct path; [congruence | reflexivity]. Qed.

Lemma ppath_join_nonempty_args (a b : jsstring) :
  b <> [] ->
  ppath_join a b =
  posix_normalize (match a with [] => b | _ :: _ => a ++ SLASH :: b end).
Proof. destruct a, b; congruence || reflexivity. Qed.

(** Joining a root with a file name of three characters or more, free of
    slashes, appends the name to the normalised root. *)
Lemma ppath_join_plain (root seg : jsstring) :
  no_slash seg -> 3 <= length seg ->
  ppath_join root seg = join_prefix root ++ seg.
Proof.
  intros Hns Hlen.
  assert (Hne : seg <> []) by (intros ->; cbn in Hlen; lia).
  assert (Hhd : N.eqb (hd 0%N seg) SLASH = false).
  { destruct seg as [| s0 seg']; [congruence |].
    apply N.eqb_neq. now inversion Hns. }
  rewrite ppath_join_nonempty_args by exact Hne.
  destruct root as [| r0 root'].
  - rewrite posix_normalize_nonempty by exact Hne. cbn zeta.
    rewrite Hhd. cbn [negb join_prefix app].
    rewrite split_slash_no_slash by exact Hns.
    rewrite resolve_segments_plain by exact Hlen. cbn [rev app join_slash].
    pose proof (last_no_slash [] Hns Hne) as Hlast. cbn [app] in Hlast.
    rewrite Hlast.
    destruct seg; [congruence | reflexivity].
  - rewrite posix_normalize_nonempty by discriminate. cbn zeta.
    cbn [app hd]. unfold join_prefix.
    change (r0 :: root' ++ SLASH :: seg) with ((r0 :: root') ++ SLASH :: seg).
    rewrite split_slash_app, (split_slash_no_slash Hns), resolve_segments_app.
    rewrite resolve_segments_plain by exact Hlen. rewrite rev_involutive.
    rewrite join_slash_snoc.
    replace ((r0 :: root') ++ SLASH :: seg) with (((r0 :: root') ++ [SLASH]) ++ seg)
      by (now rewrite <- app_assoc).
    rewrite (last_no_slash _ Hns Hne).
    destruct (resolve_segments (negb (N.eqb r0 SLASH)) [] (split_slash (r0 :: root')))
      as [| g gs].
    + destruct seg; [congruence |]. destruct (N.eqb r0 SLASH); reflexivity.
    + destruct (join_slash (g :: gs) ++ SLASH :: seg) as [| x xs] eqn:E.
      { destruct (join_slash (g :: gs)); discriminate. }
      rewrite <- E.
      destruct (N.eqb r0 SLASH); cbn [app]; now rewrite <- app_assoc.
Qed.

(* --------------------------------------------------------------------- *)
(** ** computeFixedOutputStorePath *)
(* --------------------------------------------------------------------- *)

Lemma startsWith_strip_prefix (prefix s : jsstring) :
  strip_prefix prefix s =
  if startsWith s prefix then Some (slice_from (length prefix) s) else None.
Proof.
  revert s. induction prefix as [| p prefix IH]; intros s;
    [destruct s; reflexivity |].
  destruct s as [| c s]; [reflexivity |].
  cbn [strip_prefix startsWith length]. rewrite (N.eqb_sym p c).
  destruct (N.eqb c p); [apply IH | reflexivity].
Qed.

Lemma startsWith_app (prefix s : jsstring) : startsWith (prefix ++ s) prefix = true.
Proof.
  induction prefix as [| p prefix IH]; [destruct s; reflexivity |].
  cbn [app startsWith]. now rewrite N.eqb_refl.
Qed.

(** The prefix test and slice of the code strip the namespace prefix. *)
Lemma strip_namespace (hash : jsstring) :
  (if startsWith hash CACHE_KEY_NS
   then slice_from (length CACHE_KEY_NS) hash
   else hash) = spec_strippedChecksum hash.
Proof.
  unfold spec_strippedChecksum. change (js "nix.1/") with CACHE_KEY_NS.
  rewrite startsWith_strip_prefix.
  now destruct (startsWith hash CACHE_KEY_NS).
Qed.

Lemma app_inj_length {A : Type} (a b c d : list A) :
  length a = length c -> a ++ b = c ++ d -> a = c /\ b = d.
Proof.
  revert c. induction a as [| x a IH]; intros [| y c] Hlen E;
    try discriminate; [now split |].
  injection E as -> E. injection Hlen as Hlen.
  destruct (IH c Hlen E) as [-> ->]. now split.
Qed.

Section StorePath.
Context `{Ext : Externals}.

(** The identifier in front of the name has 32 characters, none a slash. *)
Lemma store_id_shape (digest : Buffer) :
  length (encodeBase32 (compressHash digest 20)) = 32 /\
  no_slash (encodeBase32 (compressHash digest 20)).
Proof.
  split.
  - now rewrite encodeBase32_length, compressHash_length.
  - eapply Forall_impl; [| apply encodeBase32_alphabet].
    intros c Hc ->. cbn in Hc.
    repeat (destruct Hc as [Hc | Hc]; [discriminate |]). exact Hc.
Qed.

(** For a name free of slashes the path is the normalised root, a slash
    where needed, the identifier, a dash and the name. *)
Lemma computeFixedOutputStorePath_plain
    (name hash hashAlgorithm : jsstring) (storePath : PortablePath) :
  no_slash name ->
  exists id : jsstring,
    length id = 32 /\
    computeFixedOutputStorePath name hash hashAlgorithm storePath =
    join_prefix storePath ++ id ++ js "-" ++ name.
Proof.
  intros Hname. unfold computeFixedOutputStorePath.
  match goal with
  | |- context [encodeBase32 (compressHash ?d 20)] =>
      destruct (store_id_shape d) as [Hlen Hns];
      exists (encodeBase32 (compressHash d 20))
  end.
  split; [exact Hlen |].
  apply ppath_join_plain.
  - apply Forall_app. split; [exact Hns |].
    apply Forall_app. split; [| exact Hname].
    constructor; [discriminate | constructor].
  - rewrite length_app, Hlen. lia.
Qed.

(** C1. The store path is [storeRoot / (id + "-" + name)] with [id] the
    base32 text of the outer SHA-256 digest folded to 20 bytes, the outer
    digest taken over ["output:out:sha256:" + hex(inner) + ":" + storeRoot +
    ":" + name] and the inner one over ["fixed:out:" + hashAlgorithm + ":" +
    strippedChecksum + ":"]; folding and encoding are the XOR fold and the
    reversed-byte 5-bit-group encoding of the specification.  The identifier
    has 32 characters, and for a name free of slashes under the default
    store root the path reads [/nix/store/<id>-<name>]. *)
Theorem computeFixedOutputStorePath_spec
    (name checksum hashAlgorithm : jsstring) (storeRoot : PortablePath) :
  let sha256 := createHash (js "sha256") in
  let strippedChecksum := spec_strippedChecksum checksum in
  let innerDigest :=
    sha256 (js "fixed:out:" ++ hashAlgorithm ++ js ":" ++ strippedChecksum ++ js ":") in
  let outerDigest :=
    sha256 (js "output:out:sha256:" ++ toString_hex innerDigest ++ js ":"
              ++ storeRoot ++ js ":" ++ name) in
  let id := spec_encodeBase32 (spec_compressHash outerDigest 20) in
  computeFixedOutputStorePath name checksum hashAlgorithm storeRoot =
    ppath_join storeRoot (id ++ js "-" ++ name) /\
  length id = 32 /\
  (no_slash name -> storeRoot = js "/nix/store" ->
   computeFixedOutputStorePath name checksum hashAlgorithm storeRoot =
     js "/nix/store/" ++ id ++ js "-" ++ name).
Proof.
  intros.
  assert (E : computeFixedOutputStorePath name checksum hashAlgorithm storeRoot =
              ppath_join storeRoot (id ++ js "-" ++ name)).
  { unfold computeFixedOutputStorePath, computeHash.
    rewrite strip_namespace, compressHash_spec, encodeBase32_spec. reflexivity. }
  destruct (store_id_shape outerDigest) as [Hlen Hns].
  rewrite compressHash_spec, encodeBase32_spec in Hlen, Hns. fold id in Hlen, Hns.
  split; [exact E |]. split; [exact Hlen |].
  intros Hname Hroot. rewrite E. rewrite ppath_join_plain.
  - rewrite Hroot. reflexivity.
  - apply Forall_app. split; [exact Hns |].
    apply Forall_app. split; [| exact Hname].
    constructor; [discriminate | constructor].
  - rewrite length_app, Hlen. lia.
Qed.

(** C4. The cache namespace prefix in front of a hexadecimal digest does
    not change the store path. *)
Theorem namespace_prefix_ignored
    (name h hashAlgorithm : jsstring) (storeRoot : PortablePath) :
  is_hex_digest h = true ->
  computeFixedOutputStorePath name (js "nix.1/" ++ h) hashAlgorithm storeRoot =
  computeFixedOutputStorePath name h hashAlgorithm storeRoot.
Proof.
  intros Hhex. unfold computeFixedOutputStorePath.
  assert (Hh : startsWith h CACHE_KEY_NS = false).
  { destruct h as [| c h]; [reflexivity |].
    cbn [is_hex_digest forallb] in Hhex. apply andb_true_iff in Hhex.
    destruct Hhex as [Hc _].
    change CACHE_KEY_NS with (110%N :: js "ix.1/"). cbn [startsWith].
    destruct (N.eqb_spec c 110) as [-> |]; [discriminate | reflexivity]. }
  rewrite Hh. change (js "nix.1/") with CACHE_KEY_NS.
  rewrite startsWith_app. unfold slice_from. rewrite skipn_app, skipn_all.
  now rewrite Nat.sub_diag.
Qed.

(** Two distinct names free of slashes give distinct store paths for the
    same checksum, algorithm and store root. *)
Lemma slash_free_names_distinct_paths
    (n1 n2 checksum hashAlgorithm : jsstring) (storeRoot : PortablePath) :
  no_slash n1 -> no_slash n2 -> n1 <> n2 ->
  computeFixedOutputStorePath n1 checksum hashAlgorithm storeRoot <>
  computeFixedOutputStorePath n2 checksum hashAlgorithm storeRoot.
Proof.
  intros H1 H2 Hneq E.
  destruct (computeFixedOutputStorePath_plain checksum hashAlgorithm storeRoot H1)
    as [id1 [L1 E1]].
  destruct (computeFixedOutputStorePath_plain checksum hashAlgorithm storeRoot H2)
    as [id2 [L2 E2]].
  rewrite E1, E2 in E. apply app_inv_head in E.
  apply app_inj_length in E; [| congruence].
  destruct E as [_ Hn]. now inversion Hn.
Qed.

End StorePath.

Lemma no_slash_check (s : jsstring) :
  forallb (fun c => negb (N.eqb c SLASH)) s = true -> no_slash s.
Proof.
  intros H. apply Forall_forall. intros c Hc ->.
  rewrite forallb_forall in H. specialize (H _ Hc). discriminate.
Qed.

Lemma namespace_prefix_ignored_witness :
  is_hex_digest (js "cf83e1357eefb8bd") = true /\
  computeFixedOutputStorePath (js "left-pad@npm:1.3.0.zip")
    (js "nix.1/" ++ js "cf83e1357eefb8bd") (js "sha512") (js "/nix/store") =
  computeFixedOutputStorePath (js "left-pad@npm:1.3.0.zip")
    (js "cf83e1357eefb8bd") (js "sha512") (js "/nix/store").
Proof.
  split; [reflexivity |].
  apply (namespace_prefix_ignored (js "left-pad@npm:1.3.0.zip")
           (js "cf83e1357eefb8bd") (js "sha512") (js "/nix/store")).
  reflexivity.
Defined.


Lemma computeFixedOutputStorePath_spec_witness :
  no_slash (js "left-pad-npm-1.3.0.zip") /\
  computeFixedOutputStorePath (js "left-pad-npm-1.3.0.zip")
    (js "nix.1/" ++ Sim.SHA512_OF_EMPTY) (js "sha512") (js "/nix/store") =
  js "/nix/store/xvmalxaz4ajf2i9vivra82slk4lcq1gz-left-pad-npm-1.3.0.zip".
Proof.
  assert (Hname : no_slash (js "left-pad-npm-1.3.0.zip"))
    by (apply no_slash_check; reflexivity).
  split; [exact Hname |].
  destruct (computeFixedOutputStorePath_spec (js "left-pad-npm-1.3.0.zip")
              (js "nix.1/" ++ Sim.SHA512_OF_EMPTY) (js "sha512") (js "/nix/store"))
    as (_ & _ & Htext).
  rewrite (Htext Hname eq_refl). vm_compute. reflexivity.
Defined.

(* --------------------------------------------------------------------- *)
(** ** sanitizeDerivationName *)
(* --------------------------------------------------------------------- *)

Lemma strip_leading_dots_head (s : jsstring) :
  hd_error (strip_leading_dots s) <> Some DOT.
Proof.
  induction s as [| c s IH]; cbn [strip_leading_dots]; [discriminate |].
  destruct (N.eqb_spec c DOT) as [-> | Hc]; [exact IH |].
  cbn. congruence.
Qed.

Lemma replace_invalid_runs_chars (in_run : bool) (s : jsstring) :
  Forall (fun c => is_name_char c = true) (replace_invalid_runs in_run s).
Proof.
  revert in_run. induction s as [| c s IH]; intros in_run; cbn [replace_invalid_runs].
  - constructor.
  - destruct (is_name_char c) eqn:Hc; [constructor; auto |].
    destruct in_run; [apply IH |]. constructor; [reflexivity | apply IH].
Qed.

Lemma replace_invalid_runs_head (s : jsstring) :
  hd_error s <> Some DOT ->
  hd_error (replace_invalid_runs false s) <> Some DOT.
Proof.
  destruct s as [| c s]; cbn [replace_invalid_runs hd_error]; [discriminate |].
  intros Hc. destruct (is_name_char c); cbn [hd_error]; [exact Hc | discriminate].
Qed.

Lemma replace_invalid_runs_valid (in_run : bool) (s : jsstring) :
  Forall (fun c => is_name_char c = true) s -> replace_invalid_runs in_run s = s.
Proof.
  intros H. revert in_run. induction H as [| c s Hc Hs IH]; intros in_run;
    cbn [replace_invalid_runs]; [reflexivity |].
  now rewrite Hc, IH.
Qed.

Lemma strip_leading_dots_no_dot (s : jsstring) :
  hd_error s <> Some DOT -> strip_leading_dots s = s.
Proof.
  destruct s as [| c s]; cbn [strip_leading_dots hd_error]; [reflexivity |].
  intros Hc. destruct (N.eqb_spec c DOT) as [-> | _]; congruence.
Qed.

Lemma Forall_prefix {A : Type} (P : A -> Prop) (n : nat) (l : list A) :
  Forall P l -> Forall P (firstn n l).
Proof.
  intros H. revert n. induction H as [| x l Hx Hl IH]; intros [| n];
    cbn [firstn]; constructor; auto.
Qed.

Lemma firstn_head {A : Type} (n : nat) (l : list A) :
  hd_error (firstn (S n) l) = hd_error l.
Proof. destruct l; reflexivity. Qed.

(** The shape of every sanitised name. *)
Lemma sanitize_shape (raw : jsstring) :
  let out := sanitizeDerivationName raw in
  out <> [] /\
  length out <= 207 /\
  Forall (fun c => is_name_char c = true) out /\
  hd_error out <> Some DOT.
Proof.
  unfold sanitizeDerivationName, slice_to.
  set (t := replace_invalid_runs false (strip_leading_dots raw)).
  assert (Hlen : length (firstn 207 t) <= 207) by (rewrite length_firstn; lia).
  assert (Hch : Forall (fun c => is_name_char c = true) (firstn 207 t)).
  { apply Forall_prefix. apply replace_invalid_runs_chars. }
  assert (Hhd : hd_error (firstn 207 t) <> Some DOT).
  { rewrite firstn_head. apply replace_invalid_runs_head, strip_leading_dots_head. }
  destruct (firstn 207 t) as [| c s].
  - cbv zeta. repeat split.
    + discriminate.
    + cbn. lia.
    + apply Forall_forall. intros c Hc. cbn in Hc.
      repeat (destruct Hc as [<- | Hc]; [reflexivity |]). contradiction.
    + discriminate.
  - cbv zeta. repeat split; auto. discriminate.
Qed.

(** C7. A sanitised name is never empty, has at most 207 characters, all of
    them in [[A-Za-z0-9+._?=-]], and does not begin with a dot; where the
    pipeline leaves nothing the name is ["unknown"]. *)
Theorem sanitizeDerivationName_valid (raw : jsstring) :
  let pipeline := slice_to 207 (replace_invalid_runs false (strip_leading_dots raw)) in
  let out := sanitizeDerivationName raw in
  out <> [] /\
  length out <= 207 /\
  Forall (fun c => is_name_char c = true) out /\
  hd_error out <> Some DOT /\
  (pipeline = [] -> out = js "unknown") /\
  (pipeline <> [] -> out = pipeline).
Proof.
  cbv zeta. destruct (sanitize_shape raw) as (H1 & H2 & H3 & H4).
  repeat split; auto; unfold sanitizeDerivationName.
  - now intros ->.
  - destruct (slice_to 207 _); congruence.
Qed.

Lemma sanitizeDerivationName_valid_witness :
  slice_to 207 (replace_invalid_runs false (strip_leading_dots (js "..."))) = [] /\
  sanitizeDerivationName (js "...") = js "unknown" /\
  slice_to 207 (replace_invalid_runs false
                  (strip_leading_dots (js ".././weird name!!.zip"))) <> [] /\
  sanitizeDerivationName (js ".././weird name!!.zip") = js "-.-weird-name-.zip".
Proof.
  split; [reflexivity |]. split.
  - apply (sanitizeDerivationName_valid (js "...")). reflexivity.
  - split; [discriminate |].
    transitivity (slice_to 207 (replace_invalid_runs false
                    (strip_leading_dots (js ".././weird name!!.zip"))));
      [| reflexivity].
    apply (sanitizeDerivationName_valid (js ".././weird name!!.zip")). discriminate.
Defined.

(** A name of that shape is left alone. *)
(** C6. Two distinct derivation names give distinct store paths for the
    same checksum, algorithm and store root: a derivation name holds no
    slash, so it is kept to the letter as the end of the path. *)
Theorem distinct_names_distinct_paths `{Ext : Externals}
    (n1 n2 checksum hashAlgorithm : jsstring) (storeRoot : PortablePath) :
  derivation_name n1 -> derivation_name n2 -> n1 <> n2 ->
  computeFixedOutputStorePath n1 checksum hashAlgorithm storeRoot <>
  computeFixedOutputStorePath n2 checksum hashAlgorithm storeRoot.
Proof.
  assert (Hplain : forall n, derivation_name n -> no_slash n).
  { intros n [raw <-]. destruct (sanitize_shape raw) as (_ & _ & Hch & _).
    eapply Forall_impl; [| exact Hch].
    intros c Hc ->. discriminate Hc. }
  intros H1 H2 Hne.
  apply slash_free_names_distinct_paths; auto.
Qed.

Lemma distinct_names_distinct_paths_witness :
  sanitizeDerivationName (js "left-pad@npm:1.3.0.zip") = js "left-pad-npm-1.3.0.zip" /\
  sanitizeDerivationName (js "left-pad@npm:1.2.0.zip") = js "left-pad-npm-1.2.0.zip" /\
  computeFixedOutputStorePath (js "left-pad-npm-1.3.0.zip")
    (js "cf83e1357eefb8bd") (js "sha512") (js "/nix/store") <>
  computeFixedOutputStorePath (js "left-pad-npm-1.2.0.zip")
    (js "cf83e1357eefb8bd") (js "sha512") (js "/nix/store").
Proof.
  split; [reflexivity |]. split; [reflexivity |].
  apply (@distinct_names_distinct_paths node_externals
           (js "left-pad-npm-1.3.0.zip") (js "left-pad-npm-1.2.0.zip")).
  - exists (js "left-pad@npm:1.3.0.zip"). reflexivity.
  - exists (js "left-pad@npm:1.2.0.zip"). reflexivity.
  - discriminate.
Defined.

Lemma sanitize_fixed_point (s : jsstring) :
  s <> [] -> length s <= 207 ->
  Forall (fun c => is_name_char c = true) s ->
  hd_error s <> Some DOT ->
  sanitizeDerivationName s = s.
Proof.
  intros Hne Hlen Hch Hhd. unfold sanitizeDerivationName, slice_to.
  rewrite strip_leading_dots_no_dot by exact Hhd.
  rewrite replace_invalid_runs_valid by exact Hch.
  rewrite firstn_all2 by exact Hlen.
  destruct s; congruence.
Qed.

(** C8. Sanitising is idempotent. *)
Theorem sanitizeDerivationName_idempotent (x : jsstring) :
  sanitizeDerivationName (sanitizeDerivationName x) = sanitizeDerivationName x.
Proof.
  destruct (sanitize_shape x) as (H1 & H2 & H3 & H4).
  now apply sanitize_fixed_point.
Qed.

(* --------------------------------------------------------------------- *)
(** ** fetchPackageFromNixStore *)
(* --------------------------------------------------------------------- *)

Lemma posix_normalize_truthy (path : jsstring) : truthy (posix_normalize path) = true.
Proof.
  destruct path as [| c0 path']; [reflexivity |].
  rewrite posix_normalize_nonempty by discriminate. cbv zeta.
  destruct (join_slash _) as [| x xs] eqn:E.
  - destruct (N.eqb _ SLASH); [reflexivity |].
    destruct (N.eqb _ SLASH); reflexivity.
  - destruct (N.eqb (hd _ _) SLASH); [reflexivity |].
    destruct (N.eqb _ SLASH); reflexivity.
Qed.

Lemma ppath_join_truthy (a b : jsstring) : truthy (ppath_join a b) = true.
Proof.
  destruct a, b; cbn [ppath_join]; [reflexivity | | |]; apply posix_normalize_truthy.
Qed.

Section FetchProperties.
Context `{Ext : Externals} `{Rt : Runtime}.
Variable World : Type.
Variable handler : forall X : Type, Call X -> World -> (Exn + X) * World.

Lemma store_path_truthy (name hash algorithm : jsstring) (store : PortablePath) :
  truthy (computeFixedOutputStorePath name hash algorithm store) = true.
Proof. apply ppath_join_truthy. Qed.

(** [computeFixedOutputStorePath(name, checksum)], both defaults taken. *)
Local Abbreviation storePathFor name checksum :=
  (computeFixedOutputStorePath name checksum DEFAULT_HASH_ALGORITHM DEFAULT_STORE_PATH).

Ltac ask :=
  match goal with
  | H : @handler ?X ?c ?w = _ |- context [@handler ?X ?c ?w] => rewrite H
  | |- context [@handler ?X ?c ?w] =>
      let e := fresh "e" in
      let x := fresh "x" in
      let w' := fresh "w" in
      let E := fresh "E" in
      destruct (@handler X c w) as [[e | x] w'] eqn:E
  end.

Local Arguments computeFixedOutputStorePath : simpl never.
Local Arguments locatorDerivationName : simpl never.
Local Arguments ppath_join : simpl never.
Local Arguments ppath_dirname : simpl never.
Local Arguments trim : simpl never.
Local Arguments str_eqb : simpl never.
Local Arguments js : simpl never.

Ltac units := repeat match goal with x : unit |- _ => destruct x end.

(** Run a fetch symbolically: one case per answer of the collaborators. *)
Ltac drive :=
  repeat first
    [ progress cbn [run bind await negb fst snd]
    | ask; units
    | match goal with
      | |- context [if ?b then _ else _] => destruct b eqn:?
      end ].

(** Point at an entry of a trace written out in full. *)
Ltac find_in := cbn [In]; repeat (first [left; reflexivity | right]).

(** A hit: an expected checksum that is not empty and whose predicted path
    is found. *)
Lemma hit_run (locator : Locator) (expected : jsstring) (w w1 : World) :
  truthy expected = true ->
  answers handler w
    (xfs_existsPromise (storePathFor (locatorDerivationName locator) expected))
    true w1 ->
  let '(tr, res) := run handler (fetchPackageFromNixStore locator (Some expected)) w in
  count is_loader tr = 0 /\
  count is_onHit tr = 1 /\
  (forall r, res = inr r -> snd r = expected) /\
  (forall m, res <> inl (ThrownError m)) /\
  (forallb answered tr = true ->
   exists fs, res = inr (fs, discardAndClose fs, expected)).
Proof.
  intros Hexp Hhit. unfold answers in Hhit.
  unfold fetchPackageFromNixStore. rewrite Hexp, store_path_truthy.
  cbn [run bind await]. rewrite Hhit. drive.
  all: repeat apply conj; try reflexivity; try (intros; discriminate).
  all: try (intros r Hr; injection Hr as <-; reflexivity).
  all: intros _; eexists; reflexivity.
Qed.

(** C2. Whatever the checksum map holds for the locator, when the expected
    checksum the caller passes, [stored || null], is not null and the path
    predicted from it is found on disk, the loader is not invoked, the hit
    is reported, and the checksum handed back is the expected one: the
    fetch returns it as soon as the archive opens, and it raises no error
    of its own. *)
Theorem hit_skips_loader
    (locator : Locator) (stored : option jsstring) (expected : jsstring) (w w1 : World) :
  let expectedChecksum := or_null stored in
  expectedChecksum = Some expected ->
  answers handler w
    (xfs_existsPromise (storePathFor (locatorDerivationName locator) expected))
    true w1 ->
  let '(tr, res) := run handler (fetchPackageFromNixStore locator expectedChecksum) w in
  count is_loader tr = 0 /\
  count is_onHit tr = 1 /\
  (forall r, res = inr r -> snd r = expected) /\
  (forall m, res <> inl (ThrownError m)) /\
  (forallb answered tr = true ->
   exists fs, res = inr (fs, discardAndClose fs, expected)).
Proof.
  cbv zeta. intros Hpassed Hhit. rewrite Hpassed.
  apply hit_run with (w1 := w1); [| exact Hhit].
  unfold or_null in Hpassed. destruct stored as [s |]; [| discriminate].
  destruct (truthy s) eqn:Hs; [| discriminate].
  injection Hpassed as <-. exact Hs.
Qed.

Lemma run_after {A : Type} (pre : list Entry) (p : list Entry * (Failure + A)) :
  (let '(tr, res) := p in (pre ++ tr, res)) = (pre ++ fst p, snd p).
Proof. now destruct p. Qed.

(** Reaching the miss branch: the three ways to get there leave the same
    program to run. *)
Lemma miss_branch_run (locator : Locator) (expectedChecksum : option jsstring)
    (w w1 : World) :
  takes_miss_branch handler locator expectedChecksum w w1 ->
  exists pre,
    run handler (fetchPackageFromNixStore locator expectedChecksum) w =
    (pre ++ fst (run handler (fetchPackageFromNixStore locator None) w1),
     snd (run handler (fetchPackageFromNixStore locator None) w1)) /\
    count is_loader pre = 0 /\ count is_onMiss pre = 0 /\
    count is_execvp pre = 0 /\ forallb answered pre = true.
Proof.
  unfold takes_miss_branch. destruct expectedChecksum as [expected |].
  - destruct (truthy expected) eqn:Hexp.
    + intros H.
      exists [Called (xfs_existsPromise
                        (storePathFor (locatorDerivationName locator) expected))
                (inr false)].
      split; [| now cbn].
      unfold fetchPackageFromNixStore at 1.
      rewrite Hexp, store_path_truthy. cbn [run bind await].
      unfold answers in H. rewrite H.
      exact (run_after
               [Called (xfs_existsPromise
                          (storePathFor (locatorDerivationName locator) expected))
                  (inr false)]
               (run handler (fetchPackageFromNixStore locator None) w1)).
    + intros ->. exists []. split; [| now cbn].
      unfold fetchPackageFromNixStore at 1. rewrite Hexp.
      change (run handler (fetchPackageFromNixStore locator None) w =
              (fst (run handler (fetchPackageFromNixStore locator None) w),
               snd (run handler (fetchPackageFromNixStore locator None) w))).
      now destruct (run handler _ w).
  - intros ->. exists []. split; [| now cbn].
    now destruct (run handler _ w).
Qed.

Lemma count_app (f : Entry -> bool) (a b : list Entry) :
  count f (a ++ b) = count f a + count f b.
Proof. unfold count. now rewrite filter_app, length_app. Qed.

(** The miss branch on its own: what a run of it looks like, up to the
    second look at the store. *)
Lemma miss_run_loader (locator : Locator) (w1 : World) :
  let derivationName := locatorDerivationName locator in
  let '(tr, res) := run handler (fetchPackageFromNixStore locator None) w1 in
  count is_onMiss tr = 1 /\
  count is_loader tr <= 1 /\
  (forall w2, answers handler w1 onMiss tt w2 -> count is_loader tr = 1) /\
  (forall fs release checksum, res = inr (fs, release, checksum) ->
   exists w2 resultPath w3 fileSum w4 present libzip,
     answers handler w1 onMiss tt w2 /\
     answers handler w2 loader resultPath w3 /\
     answers handler w3 (hashUtils_checksumFile resultPath) fileSum w4 /\
     checksum = js "nix.1/" ++ fileSum /\
     In (Called (xfs_existsPromise (storePathFor derivationName checksum))
           (inr present)) tr /\
     In (Called (new_ZipFS (storePathFor derivationName checksum) libzip true)
           (inr fs)) tr /\
     release = discardAndClose fs).
Proof.
  cbv zeta. unfold fetchPackageFromNixStore. drive.
  all: (split; [reflexivity |]);
    (split; [cbn; lia |]);
    (split; [intros ? H2; unfold answers in H2; try congruence; reflexivity |]);
    intros fs release checksum Hres; try discriminate;
    injection Hres as <- <- <-;
    do 7 eexists; unfold answers;
    repeat apply conj; try eassumption; try reflexivity; find_in.
Qed.

Lemma str_eqb_false (a b : jsstring) : str_eqb a b = false <-> a <> b.
Proof.
  unfold str_eqb. destruct (list_eq_dec N.eq_dec a b); split; congruence.
Qed.

(** Two answers to one call in one world are the same answer. *)
Ltac same_answers :=
  unfold answers in *;
  repeat match goal with
  | H1 : @handler ?X ?c ?w = _, H2 : @handler ?X ?c ?w = _ |- _ =>
      rewrite H1 in H2;
      first [ discriminate H2 | inversion H2; subst; clear H2 ]
  end.


(** The miss branch on its own, from the file the loader produced on: its
    checksum is taken, the path derived from the prefixed checksum is looked
    up, and unless a call is rejected or the import prints another path the
    fetch returns that checksum with the archive opened there. *)
Lemma miss_run_checksum (locator : Locator) (w1 : World) :
  let derivationName := locatorDerivationName locator in
  let '(tr, res) := run handler (fetchPackageFromNixStore locator None) w1 in
  (forall w2 resultPath w3,
     answers handler w1 onMiss tt w2 ->
     answers handler w2 loader resultPath w3 ->
     exists r, In (Called (hashUtils_checksumFile resultPath) r) tr) /\
  (forall w2 resultPath w3 fileSum w4,
     answers handler w1 onMiss tt w2 ->
     answers handler w2 loader resultPath w3 ->
     answers handler w3 (hashUtils_checksumFile resultPath) fileSum w4 ->
     let checksum := js "nix.1/" ++ fileSum in
     let storePath := storePathFor derivationName checksum in
     (exists r, In (Called (xfs_existsPromise storePath) r) tr) /\
     (forallb answered tr = true ->
      (exists fs libzip,
         res = inr (fs, discardAndClose fs, checksum) /\
         In (Called (new_ZipFS storePath libzip true) (inr fs)) tr) \/
      (res = inl (ThrownError ASSERTION_MESSAGE) /\
       exists stdout,
         In (Called
               (execUtils_execvp (js "nix-store")
                  [js "--add-fixed"; js "sha512"; js "./" ++ derivationName]
                  (ppath_dirname resultPath) true)
               (inr stdout)) tr /\
         trim stdout <> storePath))).
Proof.
  cbv zeta. unfold fetchPackageFromNixStore.
  change CACHE_KEY_NS with (js "nix.1/"). drive.
  all: split;
    [ intros w2' resultPath' w3' A1 A2; same_answers; eexists; find_in
    | intros w2' resultPath' w3' fileSum' w4' A1 A2 A3; same_answers;
      (split; [eexists; find_in |]);
      cbn [forallb answered andb]; intros Hans; try discriminate Hans;
      first
        [ left; do 2 eexists; split; [reflexivity | find_in]
        | right; split; [reflexivity |]; eexists; split; [find_in |];
          apply str_eqb_false;
          match goal with
          | Hb : negb (str_eqb _ _) = true |- _ =>
              apply negb_true_iff in Hb; exact Hb
          end ] ].
Qed.


(** C3. On the miss branch the miss is reported and the loader is invoked
    at most once, exactly once as soon as the miss callback returns.  Once
    the loader has produced a file, the checksum of that file is taken;
    once that is known, the store path derived from ["nix.1/"] followed by
    it is the one looked up, and a fetch none of whose calls is rejected
    returns just that prefixed checksum with the archive opened at that
    path, unless the store import printed another path.  A fetch that
    returns at all returns this checksum. *)
Theorem miss_invokes_loader_once
    (locator : Locator) (expectedChecksum : option jsstring) (w w1 : World) :
  takes_miss_branch handler locator expectedChecksum w w1 ->
  let derivationName := locatorDerivationName locator in
  let '(tr, res) := run handler (fetchPackageFromNixStore locator expectedChecksum) w in
  count is_onMiss tr = 1 /\
  count is_loader tr <= 1 /\
  (forall w2, answers handler w1 onMiss tt w2 -> count is_loader tr = 1) /\
  (forall w2 resultPath w3,
     answers handler w1 onMiss tt w2 ->
     answers handler w2 loader resultPath w3 ->
     exists r, In (Called (hashUtils_checksumFile resultPath) r) tr) /\
  (forall w2 resultPath w3 fileSum w4,
     answers handler w1 onMiss tt w2 ->
     answers handler w2 loader resultPath w3 ->
     answers handler w3 (hashUtils_checksumFile resultPath) fileSum w4 ->
     let checksum := js "nix.1/" ++ fileSum in
     let storePath := storePathFor derivationName checksum in
     (exists r, In (Called (xfs_existsPromise storePath) r) tr) /\
     (forallb answered tr = true ->
      (exists fs libzip,
         res = inr (fs, discardAndClose fs, checksum) /\
         In (Called (new_ZipFS storePath libzip true) (inr fs)) tr) \/
      (res = inl (ThrownError ASSERTION_MESSAGE) /\
       exists stdout,
         In (Called
               (execUtils_execvp (js "nix-store")
                  [js "--add-fixed"; js "sha512"; js "./" ++ derivationName]
                  (ppath_dirname resultPath) true)
               (inr stdout)) tr /\
         trim stdout <> storePath))) /\
  (forall fs release checksum, res = inr (fs, release, checksum) ->
   exists w2 resultPath w3 fileSum w4 present libzip,
     answers handler w1 onMiss tt w2 /\
     answers handler w2 loader resultPath w3 /\
     answers handler w3 (hashUtils_checksumFile resultPath) fileSum w4 /\
     checksum = js "nix.1/" ++ fileSum /\
     In (Called (xfs_existsPromise (storePathFor derivationName checksum))
           (inr present)) tr /\
     In (Called (new_ZipFS (storePathFor derivationName checksum) libzip true)
           (inr fs)) tr /\
     release = discardAndClose fs).
Proof.
  intros Hmiss. cbv zeta.
  destruct (miss_branch_run _ _ _ _ Hmiss) as (pre & -> & Hl & Hm & _ & _).
  pose proof (miss_run_loader locator w1) as M. cbv zeta in M.
  pose proof (miss_run_checksum locator w1) as P. cbv zeta in P.
  destruct (run handler (fetchPackageFromNixStore locator None) w1) as [tr res].
  cbn [fst snd]. destruct M as (M1 & M0 & M2 & M3). destruct P as (P1 & P2).
  rewrite !count_app, Hl, Hm.
  split; [exact M1 |]. split; [exact M0 |]. split; [exact M2 |].
  split; [| split].
  - intros w2 resultPath w3 A1 A2.
    destruct (P1 _ _ _ A1 A2) as [r Hr]. exists r. apply in_or_app. now right.
  - intros w2 resultPath w3 fileSum w4 A1 A2 A3.
    destruct (P2 _ _ _ _ _ A1 A2 A3) as ([r Hr] & Hret).
    split; [exists r; apply in_or_app; now right |].
    intros Hans. rewrite forallb_app in Hans.
    apply andb_true_iff in Hans. destruct Hans as [_ Hans].
    destruct (Hret Hans) as [(fs & libzip & R & Hopen) | (R & stdout & Hrun & Hne)].
    + left. exists fs, libzip. split; [exact R | apply in_or_app; now right].
    + right. split; [exact R |]. exists stdout.
      split; [apply in_or_app; now right | exact Hne].
  - intros fs release checksum Hres.
    destruct (M3 _ _ _ Hres)
      as (w2 & resultPath & w3 & fileSum & w4 & present & libzip & H).
    exists w2, resultPath, w3, fileSum, w4, present, libzip.
    destruct H as (A1 & A2 & A3 & A4 & A5 & A6 & A7).
    repeat apply conj; auto using in_or_app.
Qed.

(** The miss branch past a store that lacks the path: renaming, then the
    import and its check. *)
Lemma miss_run_import (locator : Locator)
    (w1 w2 w3 w4 w5 w6 : World) (resultPath : PortablePath) (fileSum : jsstring) :
  let derivationName := locatorDerivationName locator in
  let storePath := storePathFor derivationName (js "nix.1/" ++ fileSum) in
  let tempDir := ppath_dirname resultPath in
  let loadPath := ppath_join tempDir derivationName in
  let import :=
    execUtils_execvp (js "nix-store")
      [js "--add-fixed"; js "sha512"; js "./" ++ derivationName] tempDir true in
  answers handler w1 onMiss tt w2 ->
  answers handler w2 loader resultPath w3 ->
  answers handler w3 (hashUtils_checksumFile resultPath) fileSum w4 ->
  answers handler w4 (xfs_existsPromise storePath) false w5 ->
  answers handler w5 (xfs_renamePromise resultPath loadPath) tt w6 ->
  let '(tr, res) := run handler (fetchPackageFromNixStore locator None) w1 in
  count is_execvp tr = 1 /\
  (exists r, In (Called import r) tr) /\
  (forall stdout w7, answers handler w6 import stdout w7 ->
     (res = inl (ThrownError ASSERTION_MESSAGE) <-> trim stdout <> storePath) /\
     (trim stdout = storePath ->
        (exists r, In (Called (xfs_unlinkPromise loadPath) r) tr) /\
        (forall m, res <> inl (ThrownError m)) /\
        (forallb answered tr = true ->
         exists fs, res = inr (fs, discardAndClose fs, js "nix.1/" ++ fileSum)))).
Proof.
  cbv zeta. unfold answers. intros H1 H2 H3 H4 H5.
  unfold fetchPackageFromNixStore. change CACHE_KEY_NS with (js "nix.1/").
  cbn [run bind await]. rewrite H1. cbn [run bind await]. rewrite H2.
  cbn [run bind await]. rewrite H3. cbn [run bind await]. rewrite H4.
  cbn [run bind await]. rewrite H5. cbn [run bind await].
  drive.
  all: split; [reflexivity |].
  all: split; [eexists; find_in |].
  all: intros stdout v7 H6; try congruence.
  all: injection H6 as <- <-.
  all: match goal with
       | Hb : negb (str_eqb _ _) = _ |- _ =>
           apply (f_equal negb) in Hb; rewrite negb_involutive in Hb; cbn [negb] in Hb;
           first [apply str_eqb_false in Hb | apply str_eqb_eq in Hb]
       end.
  all: split; [split; intros; congruence |].
  all: intros Heq; try congruence.
  all: split; [eexists; find_in |].
  all: split; [intros; discriminate |].
  all: cbn; intros; try discriminate; eexists; reflexivity.
Qed.

Lemma forallb_answered_suffix (pre tr : list Entry) :
  forallb answered (pre ++ tr) = true -> forallb answered tr = true.
Proof.
  rewrite forallb_app. intros H. now apply andb_true_iff in H.
Qed.

(** C9. On the miss branch, with the re-derived store path absent and the
    artifact renamed, the fetch runs the store import once; when the import
    answers, the fetch throws its assertion error exactly if the trimmed
    output differs from the computed store path, and on equality it goes on
    to remove the renamed file and, every later call answering, returns. *)
Theorem import_checks_reported_path
    (locator : Locator) (expectedChecksum : option jsstring)
    (w w1 w2 w3 w4 w5 w6 : World) (resultPath : PortablePath) (fileSum : jsstring) :
  let derivationName := locatorDerivationName locator in
  let storePath := storePathFor derivationName (js "nix.1/" ++ fileSum) in
  let tempDir := ppath_dirname resultPath in
  let loadPath := ppath_join tempDir derivationName in
  let import :=
    execUtils_execvp (js "nix-store")
      [js "--add-fixed"; js "sha512"; js "./" ++ derivationName] tempDir true in
  takes_miss_branch handler locator expectedChecksum w w1 ->
  answers handler w1 onMiss tt w2 ->
  answers handler w2 loader resultPath w3 ->
  answers handler w3 (hashUtils_checksumFile resultPath) fileSum w4 ->
  answers handler w4 (xfs_existsPromise storePath) false w5 ->
  answers handler w5 (xfs_renamePromise resultPath loadPath) tt w6 ->
  let '(tr, res) := run handler (fetchPackageFromNixStore locator expectedChecksum) w in
  count is_execvp tr = 1 /\
  (exists r, In (Called import r) tr) /\
  (forall stdout w7, answers handler w6 import stdout w7 ->
     (res = inl (ThrownError ASSERTION_MESSAGE) <-> trim stdout <> storePath) /\
     (trim stdout = storePath ->
        (exists r, In (Called (xfs_unlinkPromise loadPath) r) tr) /\
        (forall m, res <> inl (ThrownError m)) /\
        (forallb answered tr = true ->
         exists fs, res = inr (fs, discardAndClose fs, js "nix.1/" ++ fileSum)))).
Proof.
  cbv zeta. intros Hmiss H1 H2 H3 H4 H5.
  destruct (miss_branch_run _ _ _ _ Hmiss) as (pre & -> & _ & _ & Hx & _).
  pose proof (miss_run_import _ H1 H2 H3 H4 H5) as M. cbv zeta in M.
  destruct (run handler (fetchPackageFromNixStore locator None) w1) as [tr res].
  cbn [fst snd]. destruct M as (M1 & [r Mr] & M3).
  rewrite count_app, Hx. repeat apply conj.
  - exact M1.
  - exists r. apply in_or_app. now right.
  - intros stdout w7 H6. destruct (M3 _ _ H6) as (N1 & N2).
    split; [exact N1 |]. intros Heq.
    destruct (N2 Heq) as ([r' Hr'] & N3 & N4).
    repeat apply conj.
    + exists r'. apply in_or_app. now right.
    + exact N3.
    + intros Ha. apply N4. exact (forallb_answered_suffix _ _ Ha).
Qed.

(** The miss branch when the store already holds the path. *)
Lemma miss_run_race (locator : Locator)
    (w1 w2 w3 w4 w5 : World) (resultPath : PortablePath) (fileSum : jsstring) :
  let derivationName := locatorDerivationName locator in
  let storePath := storePathFor derivationName (js "nix.1/" ++ fileSum) in
  answers handler w1 onMiss tt w2 ->
  answers handler w2 loader resultPath w3 ->
  answers handler w3 (hashUtils_checksumFile resultPath) fileSum w4 ->
  answers handler w4 (xfs_existsPromise storePath) true w5 ->
  let '(tr, res) := run handler (fetchPackageFromNixStore locator None) w1 in
  (exists r, In (Called (xfs_unlinkPromise resultPath) r) tr) /\
  count is_execvp tr = 0 /\
  (forall m, res <> inl (ThrownError m)) /\
  (forallb answered tr = true ->
   exists fs, res = inr (fs, discardAndClose fs, js "nix.1/" ++ fileSum)).
Proof.
  cbv zeta. unfold answers. intros H1 H2 H3 H4.
  unfold fetchPackageFromNixStore. change CACHE_KEY_NS with (js "nix.1/").
  cbn [run bind await]. rewrite H1. cbn [run bind await]. rewrite H2.
  cbn [run bind await]. rewrite H3. cbn [run bind await]. rewrite H4.
  drive.
  all: split; [eexists; find_in |].
  all: split; [reflexivity |].
  all: split; [intros; discriminate |].
  all: cbn; intros; try discriminate; eexists; reflexivity.
Qed.

(** C10. On the miss branch, when the store path derived from the fresh
    checksum is already there, the fetch removes the file the loader
    produced, runs no store import, raises no error of its own, and, the
    removal and the opening of the archive answering, returns. *)
Theorem race_discards_artifact
    (locator : Locator) (expectedChecksum : option jsstring)
    (w w1 w2 w3 w4 w5 : World) (resultPath : PortablePath) (fileSum : jsstring) :
  let derivationName := locatorDerivationName locator in
  let storePath := storePathFor derivationName (js "nix.1/" ++ fileSum) in
  takes_miss_branch handler locator expectedChecksum w w1 ->
  answers handler w1 onMiss tt w2 ->
  answers handler w2 loader resultPath w3 ->
  answers handler w3 (hashUtils_checksumFile resultPath) fileSum w4 ->
  answers handler w4 (xfs_existsPromise storePath) true w5 ->
  let '(tr, res) := run handler (fetchPackageFromNixStore locator expectedChecksum) w in
  (exists r, In (Called (xfs_unlinkPromise resultPath) r) tr) /\
  count is_execvp tr = 0 /\
  (forall m, res <> inl (ThrownError m)) /\
  (forallb answered tr = true ->
   exists fs, res = inr (fs, discardAndClose fs, js "nix.1/" ++ fileSum)).
Proof.
  cbv zeta. intros Hmiss H1 H2 H3 H4.
  destruct (miss_branch_run _ _ _ _ Hmiss) as (pre & -> & _ & _ & Hx & _).
  pose proof (miss_run_race _ H1 H2 H3 H4) as M. cbv zeta in M.
  destruct (run handler (fetchPackageFromNixStore locator None) w1) as [tr res].
  cbn [fst snd]. destruct M as ([r Mr] & M2 & M3 & M4).
  rewrite count_app, Hx. repeat apply conj.
  - exists r. apply in_or_app. now right.
  - exact M2.
  - exact M3.
  - intros Ha. apply M4. exact (forallb_answered_suffix _ _ Ha).
Qed.

End FetchProperties.

(* --------------------------------------------------------------------- *)
(** ** The fetch on the simulated machine *)
(* --------------------------------------------------------------------- *)

Lemma hit_skips_loader_witness :
  let '(tr, res) :=
    run Sim.handler
      (fetchPackageFromNixStore Sim.left_pad (or_null (Some Sim.SHA512_OF_EMPTY)))
      Sim.stocked in
  count is_loader tr = 0 /\
  exists fs, res = inr (fs, discardAndClose fs, Sim.SHA512_OF_EMPTY).
Proof.
  pose proof (@hit_skips_loader _ _ _ Sim.handler Sim.left_pad
                (Some Sim.SHA512_OF_EMPTY) Sim.SHA512_OF_EMPTY
                Sim.stocked Sim.stocked) as H.
  cbv zeta in H.
  assert (H1 : or_null (Some Sim.SHA512_OF_EMPTY) = Some Sim.SHA512_OF_EMPTY)
    by reflexivity.
  assert (H2 : answers Sim.handler Sim.stocked
                 (xfs_existsPromise
                    (computeFixedOutputStorePath (locatorDerivationName Sim.left_pad)
                       Sim.SHA512_OF_EMPTY DEFAULT_HASH_ALGORITHM DEFAULT_STORE_PATH))
                 true Sim.stocked) by (vm_compute; reflexivity).
  specialize (H H1 H2).
  destruct (run Sim.handler _ Sim.stocked) as [tr res] eqn:E.
  destruct H as (Hl & _ & _ & _ & Hret). split; [exact Hl |].
  apply Hret. apply (f_equal fst) in E. cbn [fst] in E. rewrite <- E.
  vm_compute. reflexivity.
Defined.

Lemma miss_invokes_loader_once_witness :
  let '(tr, res) :=
    run Sim.handler
      (fetchPackageFromNixStore Sim.left_pad (Some Sim.SHA512_OF_EMPTY)) Sim.fresh in
  count is_onMiss tr = 1 /\ count is_loader tr = 1 /\
  (exists r, In (Called (hashUtils_checksumFile Sim.DOWNLOAD) r) tr) /\
  exists fs, res = inr (fs, discardAndClose fs, js "nix.1/" ++ Sim.SHA512_OF_EMPTY).
Proof.
  pose proof (@miss_invokes_loader_once _ _ _ Sim.handler Sim.left_pad
                (Some Sim.SHA512_OF_EMPTY) Sim.fresh Sim.fresh) as H.
  assert (H1 : takes_miss_branch Sim.handler Sim.left_pad
                 (Some Sim.SHA512_OF_EMPTY) Sim.fresh Sim.fresh)
    by (vm_compute; reflexivity).
  specialize (H H1). cbv zeta in H.
  destruct (run Sim.handler _ Sim.fresh) as [tr res] eqn:E.
  destruct H as (Hm & _ & Hl & Hsum & Hret & _).
  split; [exact Hm |].
  split; [apply (Hl (SimRuns.reported Sim.fresh)); vm_compute; reflexivity |].
  split.
  - apply (Hsum (SimRuns.reported Sim.fresh) Sim.DOWNLOAD (SimRuns.loaded Sim.fresh));
      vm_compute; reflexivity.
  - destruct (Hret (SimRuns.reported Sim.fresh) Sim.DOWNLOAD
                (SimRuns.loaded Sim.fresh) Sim.SHA512_OF_EMPTY
                (SimRuns.summed Sim.fresh)
                ltac:(vm_compute; reflexivity) ltac:(vm_compute; reflexivity)
                ltac:(vm_compute; reflexivity)) as (_ & Hout).
    assert (Hans : forallb answered tr = true).
    { apply (f_equal fst) in E. cbn [fst] in E. rewrite <- E. vm_compute. reflexivity. }
    destruct (Hout Hans) as [(fs & libzip & R & _) | (R & _)].
    + exists fs. exact R.
    + apply (f_equal snd) in E. cbn [snd] in E. rewrite R in E.
      vm_compute in E. discriminate E.
Defined.

Ltac sim_answer := unfold answers; vm_compute; reflexivity.

Lemma import_checks_reported_path_witness :
  (let '(tr, res) :=
     run Sim.handler (fetchPackageFromNixStore Sim.left_pad None) Sim.fresh in
   exists fs, res = inr (fs, discardAndClose fs, js "nix.1/" ++ Sim.SHA512_OF_EMPTY)) /\
  (let '(tr, res) :=
     run Sim.handler (fetchPackageFromNixStore Sim.left_pad None) Sim.drifting in
   res = inl (ThrownError ASSERTION_MESSAGE)).
Proof.
  split.
  - pose proof (@import_checks_reported_path _ _ _ Sim.handler Sim.left_pad None
                  Sim.fresh Sim.fresh
                  (SimRuns.reported Sim.fresh) (SimRuns.loaded Sim.fresh)
                  (SimRuns.summed Sim.fresh) (SimRuns.probed Sim.fresh)
                  (SimRuns.renamed Sim.fresh) Sim.DOWNLOAD Sim.SHA512_OF_EMPTY) as H.
    cbv zeta in H.
    specialize (H eq_refl ltac:(sim_answer) ltac:(sim_answer) ltac:(sim_answer)
                  ltac:(sim_answer) ltac:(sim_answer)).
    destruct (run Sim.handler _ Sim.fresh) as [tr res] eqn:E.
    destruct H as (_ & _ & H).
    destruct (H (SimRuns.printed Sim.fresh) (SimRuns.imported Sim.fresh)
                ltac:(sim_answer)) as (_ & Hok).
    destruct (Hok ltac:(vm_compute; reflexivity)) as (_ & _ & Hret).
    apply Hret. apply (f_equal fst) in E. cbn [fst] in E. rewrite <- E.
    vm_compute. reflexivity.
  - pose proof (@import_checks_reported_path _ _ _ Sim.handler Sim.left_pad None
                  Sim.drifting Sim.drifting
                  (SimRuns.reported Sim.drifting) (SimRuns.loaded Sim.drifting)
                  (SimRuns.summed Sim.drifting) (SimRuns.probed Sim.drifting)
                  (SimRuns.renamed Sim.drifting) Sim.DOWNLOAD Sim.SHA512_OF_EMPTY) as H.
    cbv zeta in H.
    specialize (H eq_refl ltac:(sim_answer) ltac:(sim_answer) ltac:(sim_answer)
                  ltac:(sim_answer) ltac:(sim_answer)).
    destruct (run Sim.handler _ Sim.drifting) as [tr res].
    destruct H as (_ & _ & H).
    destruct (H (SimRuns.printed Sim.drifting) (SimRuns.imported Sim.drifting)
                ltac:(sim_answer)) as (Hthrow & _).
    apply Hthrow. vm_compute. discriminate.
Defined.

Lemma race_discards_artifact_witness :
  let '(tr, res) :=
    run Sim.handler (fetchPackageFromNixStore Sim.left_pad None) Sim.stocked in
  count is_execvp tr = 0 /\
  exists fs, res = inr (fs, discardAndClose fs, js "nix.1/" ++ Sim.SHA512_OF_EMPTY).
Proof.
  pose proof (@race_discards_artifact _ _ _ Sim.handler Sim.left_pad None
                Sim.stocked Sim.stocked
                (SimRuns.reported Sim.stocked) (SimRuns.loaded Sim.stocked)
                (SimRuns.summed Sim.stocked) (SimRuns.probed Sim.stocked)
                Sim.DOWNLOAD Sim.SHA512_OF_EMPTY) as H.
  cbv zeta in H.
  specialize (H eq_refl ltac:(sim_answer) ltac:(sim_answer) ltac:(sim_answer)
                ltac:(sim_answer)).
  destruct (run Sim.handler _ Sim.stocked) as [tr res] eqn:E.
  destruct H as (_ & Hx & _ & Hret). split; [exact Hx |].
  apply Hret. apply (f_equal fst) in E. cbn [fst] in E. rewrite <- E.
  vm_compute. reflexivity.
Defined.

(* ===================================================================== *)
(** * Further properties of the code *)
(* ===================================================================== *)

(* --------------------------------------------------------------------- *)
(** ** Hexadecimal digests *)
(* --------------------------------------------------------------------- *)

Lemma list_pair_ind {A : Type} (P : list A -> Prop) :
  P [] -> (forall a, P [a]) ->
  (forall a b rest, P rest -> P (a :: b :: rest)) ->
  forall l, P l.
Proof.
  intros H0 H1 H2 l.
  assert (G : P l /\ forall a, P (a :: l)).
  { induction l as [| x l [IH1 IH2]]; split; auto. }
  apply G.
Qed.

Lemma list_triple_ind {A : Type} (P : list A -> Prop) :
  P [] -> (forall a, P [a]) -> (forall a b, P [a; b]) ->
  (forall a b c rest, P rest -> P (a :: b :: c :: rest)) ->
  forall l, P l.
Proof.
  intros H0 H1 H2 H3 l.
  assert (G : P l /\ (forall a, P (a :: l)) /\ forall a b, P (a :: b :: l)).
  { induction l as [| x l (IH1 & IH2 & IH3)]; repeat split; auto. }
  apply G.
Qed.

Lemma hex_pair_decodes (b : byte) (rest : jsstring) :
  Buffer_from_hex (toString_hex [b] ++ rest) = b :: Buffer_from_hex rest.
Proof. destruct b; reflexivity. Qed.

Lemma toString_hex_cons (b : byte) (buf : Buffer) :
  toString_hex (b :: buf) = toString_hex [b] ++ toString_hex buf.
Proof. reflexivity. Qed.

Lemma Buffer_from_hex_app (buf : Buffer) (t : jsstring) :
  Buffer_from_hex (toString_hex buf ++ t) = buf ++ Buffer_from_hex t.
Proof.
  induction buf as [| b buf IH]; [reflexivity |].
  rewrite toString_hex_cons, <- app_assoc, hex_pair_decodes, IH. reflexivity.
Qed.

(** Encoding to hexadecimal and decoding again. *)
Lemma hex_decode_encode (buf : Buffer) :
  Buffer_from_hex (toString_hex buf) = buf.
Proof.
  rewrite <- (app_nil_r (toString_hex buf)), Buffer_from_hex_app.
  apply app_nil_r.
Qed.

(** X1. Decoding the hexadecimal text of a buffer gives the buffer back. *)
Theorem hex_round_trip (buf : Buffer) :
  Buffer_from_hex (toString_hex buf) = buf.
Proof.
  rewrite <- (app_nil_r (toString_hex buf)), Buffer_from_hex_app.
  apply app_nil_r.
Qed.

Lemma lower_hex_cases (c : char16) :
  is_lower_hex_char c = true -> In c (js "0123456789abcdef").
Proof.
  unfold is_lower_hex_char. intros H.
  apply orb_true_iff in H.
  assert (E : (48 <= c <= 57 \/ 97 <= c <= 102)%N).
  { destruct H as [H | H]; apply andb_true_iff in H; destruct H as [H1 H2];
      apply N.leb_le in H1; apply N.leb_le in H2; lia. }
  assert (F : (c = 48 \/ c = 49 \/ c = 50 \/ c = 51 \/ c = 52 \/ c = 53 \/ c = 54 \/
               c = 55 \/ c = 56 \/ c = 57 \/ c = 97 \/ c = 98 \/ c = 99 \/
               c = 100 \/ c = 101 \/ c = 102)%N) by lia.
  cbn. repeat (destruct F as [-> | F]; [auto 20 |]). subst. auto 20.
Qed.

Lemma lower_hex_pair_encodes (a b : char16) (rest : jsstring) :
  is_lower_hex_char a = true -> is_lower_hex_char b = true ->
  exists x, Buffer_from_hex (a :: b :: rest) = x :: Buffer_from_hex rest /\
            toString_hex [x] = [a; b].
Proof.
  intros Ha Hb. apply lower_hex_cases in Ha. apply lower_hex_cases in Hb.
  cbn in Ha, Hb.
  repeat (destruct Ha as [<- | Ha];
          [repeat (destruct Hb as [<- | Hb]; [eexists; split; reflexivity |]);
           contradiction |]).
  contradiction.
Qed.

(** A canonical hexadecimal text is the print of its bytes. *)
Lemma canonical_hex_reencodes (h : jsstring) :
  forallb is_lower_hex_char h = true -> Nat.even (length h) = true ->
  toString_hex (Buffer_from_hex h) = h /\
  length (Buffer_from_hex h) = Nat.div2 (length h).
Proof.
  induction h as [| a | a b rest IH] using list_pair_ind.
  - intros _ _. split; reflexivity.
  - intros _ H. discriminate.
  - intros Hh Hlen. cbn [forallb] in Hh.
    apply andb_true_iff in Hh. destruct Hh as [Ha Hh].
    apply andb_true_iff in Hh. destruct Hh as [Hb Hh].
    destruct (@lower_hex_pair_encodes a b rest Ha Hb) as [x [-> Hx]].
    destruct (IH Hh Hlen) as [IH1 IH2].
    rewrite toString_hex_cons, Hx, IH1. cbn [length Nat.div2]. rewrite IH2.
    split; reflexivity.
Qed.

(** X3. A digest written with an even number of lower-case hexadecimal
    digits is what its bytes print as: decoding loses nothing. *)
Theorem hex_digest_canonical (h : jsstring) :
  forallb is_lower_hex_char h = true -> Nat.even (length h) = true ->
  toString_hex (Buffer_from_hex h) = h /\
  length (Buffer_from_hex h) = Nat.div2 (length h).
Proof.
  induction h as [| a | a b rest IH] using list_pair_ind.
  - intros _ _. split; reflexivity.
  - intros _ H. discriminate.
  - intros Hh Hlen. cbn [forallb] in Hh.
    apply andb_true_iff in Hh. destruct Hh as [Ha Hh].
    apply andb_true_iff in Hh. destruct Hh as [Hb Hh].
    destruct (@lower_hex_pair_encodes a b rest Ha Hb) as [x [-> Hx]].
    destruct (IH Hh Hlen) as [IH1 IH2].
    rewrite toString_hex_cons, Hx, IH1. cbn [length Nat.div2]. rewrite IH2.
    split; reflexivity.
Qed.

Lemma hex_digest_canonical_witness :
  toString_hex (Buffer_from_hex Sim.SHA512_OF_EMPTY) = Sim.SHA512_OF_EMPTY /\
  length (Buffer_from_hex Sim.SHA512_OF_EMPTY) = 64.
Proof.
  apply (hex_digest_canonical Sim.SHA512_OF_EMPTY); reflexivity.
Defined.

(* --------------------------------------------------------------------- *)
(** ** Base64 and SRI hashes *)
(* --------------------------------------------------------------------- *)

Lemma toString_base64_length (buf : Buffer) :
  length (toString_base64 buf) = 4 * Nat.div (length buf + 2) 3.
Proof.
  induction buf as [| a | a b | a b c rest IH] using list_triple_ind;
    try reflexivity.
  change (toString_base64 (a :: b :: c :: rest))
    with ([base64_char (Byte.to_N a / 4);
           base64_char (Byte.to_N a mod 4 * 16 + Byte.to_N b / 16);
           base64_char (Byte.to_N b mod 16 * 4 + Byte.to_N c / 64);
           base64_char (Byte.to_N c mod 64)]%N ++ toString_base64 rest).
  rewrite length_app, IH. cbn [length].
  replace (S (S (S (length rest))) + 2) with (length rest + 2 + 1 * 3) by lia.
  rewrite Nat.div_add by lia. lia.
Qed.

Lemma base64_char_position (i : N) :
  (i < 64)%N ->
  position_of (base64_char i) BASE64_ALPHABET = Some (N.to_nat i).
Proof.
  intros Hi. unfold base64_char.
  assert (Hn : N.to_nat i < 64) by lia.
  generalize dependent (N.to_nat i). intros n Hn.
  do 64 (destruct n as [| n]; [reflexivity |]). lia.
Qed.

Lemma base64_char_inj (i j : N) :
  (i < 64)%N -> (j < 64)%N -> base64_char i = base64_char j -> i = j.
Proof.
  intros Hi Hj E.
  pose proof (base64_char_position Hi) as Pi.
  pose proof (base64_char_position Hj) as Pj.
  rewrite E, Pj in Pi. injection Pi as Pi. lia.
Qed.

Lemma base64_char_not_pad (i : N) : (i < 64)%N -> base64_char i <> PAD.
Proof.
  intros Hi E. pose proof (base64_char_position Hi) as Pi.
  rewrite E in Pi. discriminate.
Qed.

Lemma byte_bound (b : byte) : (Byte.to_N b < 256)%N.
Proof. pose proof (Byte.to_N_bounded b). lia. Qed.

Lemma to_N_inj (a b : byte) : Byte.to_N a = Byte.to_N b -> a = b.
Proof.
  intros E. pose proof (Byte.of_to_N a) as Ha. rewrite E, Byte.of_to_N in Ha.
  now injection Ha.
Qed.

Ltac sextets :=
  repeat match goal with
  | b : byte |- _ =>
      let n := fresh "n" in
      let H := fresh "H" in
      pose proof (byte_bound b) as H;
      generalize dependent (Byte.to_N b); intros n H
  end.

(** The four sextets of three bytes, and where they sit. *)
Lemma sextet_bounds (a b c : N) :
  (a < 256 -> b < 256 -> c < 256 ->
   a / 4 < 64 /\ a mod 4 * 16 + b / 16 < 64 /\
   b mod 16 * 4 + c / 64 < 64 /\ c mod 64 < 64 /\
   a mod 4 * 16 < 64 /\ b mod 16 * 4 < 64)%N.
Proof.
  intros Ha Hb Hc.
  pose proof (N.mod_upper_bound a 4). pose proof (N.mod_upper_bound b 16).
  pose proof (N.mod_upper_bound c 64).
  assert (a / 4 < 64)%N by (apply N.Div0.div_lt_upper_bound; lia).
  assert (b / 16 < 16)%N by (apply N.Div0.div_lt_upper_bound; lia).
  assert (c / 64 < 4)%N by (apply N.Div0.div_lt_upper_bound; lia).
  lia.
Qed.

Lemma byte_sextet_bounds (a b c : byte) :
  (Byte.to_N a / 4 < 64 /\
   Byte.to_N a mod 4 * 16 + Byte.to_N b / 16 < 64 /\
   Byte.to_N b mod 16 * 4 + Byte.to_N c / 64 < 64 /\
   Byte.to_N c mod 64 < 64 /\
   Byte.to_N a mod 4 * 16 < 64 /\ Byte.to_N b mod 16 * 4 < 64)%N.
Proof. apply sextet_bounds; apply byte_bound. Qed.

Lemma sextets_inj (a b c a' b' c' : N) :
  (b < 256 -> c < 256 -> b' < 256 -> c' < 256 ->
   a / 4 = a' / 4 ->
   a mod 4 * 16 + b / 16 = a' mod 4 * 16 + b' / 16 ->
   b mod 16 * 4 + c / 64 = b' mod 16 * 4 + c' / 64 ->
   c mod 64 = c' mod 64 ->
   a = a' /\ b = b' /\ c = c')%N.
Proof.
  intros Hb Hc Hb' Hc' E1 E2 E3 E4.
  assert (b / 16 < 16)%N by (apply N.Div0.div_lt_upper_bound; lia).
  assert (c / 64 < 4)%N by (apply N.Div0.div_lt_upper_bound; lia).
  assert (b' / 16 < 16)%N by (apply N.Div0.div_lt_upper_bound; lia).
  assert (c' / 64 < 4)%N by (apply N.Div0.div_lt_upper_bound; lia).
  pose proof (N.div_mod a 4). pose proof (N.div_mod a' 4).
  pose proof (N.div_mod b 16). pose proof (N.div_mod b' 16).
  pose proof (N.div_mod c 64). pose proof (N.div_mod c' 64).
  pose proof (N.mod_upper_bound a 4). pose proof (N.mod_upper_bound a' 4).
  pose proof (N.mod_upper_bound b 16). pose proof (N.mod_upper_bound b' 16).
  pose proof (N.mod_upper_bound c 64). pose proof (N.mod_upper_bound c' 64).
  lia.
Qed.

Lemma toString_base64_triple (a b c : byte) (rest : Buffer) :
  toString_base64 (a :: b :: c :: rest) =
  [base64_char (Byte.to_N a / 4);
   base64_char (Byte.to_N a mod 4 * 16 + Byte.to_N b / 16);
   base64_char (Byte.to_N b mod 16 * 4 + Byte.to_N c / 64);
   base64_char (Byte.to_N c mod 64)]%N ++ toString_base64 rest.
Proof. reflexivity. Qed.

Lemma sextets_inj2 (a b a' b' : N) :
  (b < 256 -> b' < 256 ->
   a / 4 = a' / 4 ->
   a mod 4 * 16 + b / 16 = a' mod 4 * 16 + b' / 16 ->
   b mod 16 * 4 = b' mod 16 * 4 ->
   a = a' /\ b = b')%N.
Proof.
  intros Hb Hb' E1 E2 E3.
  assert (b / 16 < 16)%N by (apply N.Div0.div_lt_upper_bound; lia).
  assert (b' / 16 < 16)%N by (apply N.Div0.div_lt_upper_bound; lia).
  pose proof (N.div_mod a 4). pose proof (N.div_mod a' 4).
  pose proof (N.div_mod b 16). pose proof (N.div_mod b' 16).
  pose proof (N.mod_upper_bound a 4). pose proof (N.mod_upper_bound a' 4).
  pose proof (N.mod_upper_bound b 16). pose proof (N.mod_upper_bound b' 16).
  lia.
Qed.

Lemma quad_inj {A : Type} (x1 x2 x3 x4 y1 y2 y3 y4 : A) (r s : list A) :
  x1 :: x2 :: x3 :: x4 :: r = y1 :: y2 :: y3 :: y4 :: s ->
  x1 = y1 /\ x2 = y2 /\ x3 = y3 /\ x4 = y4 /\ r = s.
Proof. intros E. injection E. auto. Qed.

Ltac pad_clash :=
  match goal with
  | E : base64_char ?i = PAD |- _ =>
      exfalso; apply (@base64_char_not_pad i); [| exact E]
  | E : PAD = base64_char ?i |- _ =>
      exfalso; apply (@base64_char_not_pad i); [| symmetry; exact E]
  end.

(** Two buffers with the same base64 text are the same buffer. *)
Lemma toString_base64_inj (b1 b2 : Buffer) :
  toString_base64 b1 = toString_base64 b2 -> b1 = b2.
Proof.
  revert b2.
  induction b1 as [| a | a b | a b c rest IH] using list_triple_ind;
    intros [| a' [| b' [| c' rest']]];
    rewrite ?toString_base64_triple; cbn [toString_base64 app]; intros E;
    try discriminate; try reflexivity;
    apply quad_inj in E; destruct E as (E1 & E2 & E3 & E4 & E5).
  all: pose proof (byte_sextet_bounds a a a) as Ba.
  all: try pose proof (byte_sextet_bounds a' a' a') as Ba'.
  all: try pose proof (byte_sextet_bounds a b b) as Bb.
  all: try pose proof (byte_sextet_bounds a' b' b') as Bb'.
  all: try pose proof (byte_sextet_bounds a b c) as Bc.
  all: try pose proof (byte_sextet_bounds a' b' c') as Bc'.
  all: try pose proof (byte_bound a) as Ha.
  all: try pose proof (byte_bound a') as Ha'.
  all: try pose proof (byte_bound b) as Hb.
  all: try pose proof (byte_bound b') as Hb'.
  all: try pose proof (byte_bound c) as Hc.
  all: try pose proof (byte_bound c') as Hc'.
  all: try (pad_clash; lia).
  - (* one byte each *)
    apply base64_char_inj in E1, E2; try lia.
    f_equal. apply to_N_inj.
    pose proof (N.div_mod (Byte.to_N a) 4). pose proof (N.div_mod (Byte.to_N a') 4).
    lia.
  - (* two bytes each *)
    apply base64_char_inj in E1, E2, E3; try lia.
    destruct (@sextets_inj2 (Byte.to_N a) (Byte.to_N b) (Byte.to_N a') (Byte.to_N b'))
      as (Ea & Eb); try lia.
    apply to_N_inj in Ea, Eb. now subst.
  - (* three bytes and more *)
    apply base64_char_inj in E1, E2, E3, E4; try lia.
    destruct (@sextets_inj (Byte.to_N a) (Byte.to_N b) (Byte.to_N c)
                (Byte.to_N a') (Byte.to_N b') (Byte.to_N c'))
      as (Ea & Eb & Ec); try lia.
    apply to_N_inj in Ea, Eb, Ec. subst. f_equal. f_equal. f_equal.
    now apply IH.
Qed.

Lemma base64_char_in (i : N) : (i < 64)%N -> In (base64_char i) BASE64_ALPHABET.
Proof.
  intros Hi. unfold base64_char. apply nth_In.
  change (length BASE64_ALPHABET) with 64. lia.
Qed.

Lemma toString_base64_chars (buf : Buffer) :
  Forall (fun c => In c BASE64_ALPHABET \/ c = PAD) (toString_base64 buf).
Proof.
  induction buf as [| a | a b | a b c rest IH] using list_triple_ind.
  - constructor.
  - pose proof (byte_sextet_bounds a a a) as B. cbn [toString_base64].
    repeat (constructor;
            [first [left; apply base64_char_in; lia | right; reflexivity] |]).
    constructor.
  - pose proof (byte_sextet_bounds a b b) as B. cbn [toString_base64].
    repeat (constructor;
            [first [left; apply base64_char_in; lia | right; reflexivity] |]).
    constructor.
  - pose proof (byte_sextet_bounds a b c) as B. rewrite toString_base64_triple.
    apply Forall_app. split; [| exact IH].
    repeat (constructor; [left; apply base64_char_in; lia |]). constructor.
Qed.

(** X4. The SRI hash of a digest printed in hexadecimal is the algorithm,
    a dash and the base64 text of the digest's bytes: four characters for
    every three bytes, all from the base64 alphabet or the padding [=]. *)
Theorem hashToSri_of_digest (digest : Buffer) (hashAlgorithm : jsstring) :
  let sri := hashToSri (toString_hex digest) hashAlgorithm in
  sri = hashAlgorithm ++ js "-" ++ toString_base64 digest /\
  length sri = length hashAlgorithm + 1 + 4 * Nat.div (length digest + 2) 3 /\
  Forall (fun c => In c BASE64_ALPHABET \/ c = PAD) (toString_base64 digest).
Proof.
  cbv zeta. unfold hashToSri. rewrite hex_decode_encode. repeat apply conj.
  - reflexivity.
  - rewrite !length_app, toString_base64_length.
    change (length (js "-")) with 1. lia.
  - apply toString_base64_chars.
Qed.

(** X5. Distinct digests have distinct SRI hashes: two different digests,
    each written with an even number of lower-case hexadecimal digits, never
    get the same SRI hash under one algorithm. *)
Theorem hashToSri_inj (h1 h2 hashAlgorithm : jsstring) :
  forallb is_lower_hex_char h1 = true -> Nat.even (length h1) = true ->
  forallb is_lower_hex_char h2 = true -> Nat.even (length h2) = true ->
  h1 <> h2 ->
  hashToSri h1 hashAlgorithm <> hashToSri h2 hashAlgorithm.
Proof.
  intros A1 L1 A2 L2 Hneq E. apply Hneq. unfold hashToSri in E.
  apply app_inv_head in E. apply app_inv_head in E.
  apply toString_base64_inj in E.
  destruct (canonical_hex_reencodes h1 A1 L1) as [<- _].
  destruct (canonical_hex_reencodes h2 A2 L2) as [<- _].
  now rewrite E.
Qed.

Lemma hashToSri_inj_witness :
  hashToSri (js "00ff") (js "sha512") <> hashToSri (js "00fe") (js "sha512").
Proof.
  apply (@hashToSri_inj (js "00ff") (js "00fe") (js "sha512"));
    reflexivity || discriminate.
Defined.

(** X6. A checksum that still carries the cache prefix decodes to no byte
    at all, without an error: its SRI hash is the algorithm and a dash.  The
    same holds for every text that begins with two characters below U+0100
    of which one is no hexadecimal digit. *)
Theorem hashToSri_of_prefixed_checksum (h hashAlgorithm : jsstring) :
  hashToSri (CACHE_KEY_NS ++ h) hashAlgorithm = hashAlgorithm ++ js "-" /\
  (forall c d t, (c < 256)%N -> (d < 256)%N ->
     unhex c = None \/ unhex d = None ->
     hashToSri (c :: d :: t) hashAlgorithm = hashAlgorithm ++ js "-").
Proof.
  split; [reflexivity |].
  intros c d t _ _ H. unfold hashToSri. cbn [Buffer_from_hex].
  destruct H as [-> | H]; [reflexivity |].
  rewrite H. destruct (unhex c); reflexivity.
Qed.

(* --------------------------------------------------------------------- *)
(** ** More on compressHash *)
(* --------------------------------------------------------------------- *)

Lemma byte_xor_zero_l (v : byte) : byte_xor x00 v = v.
Proof. destruct v; reflexivity. Qed.

Lemma byte_xor_assoc (x y z : byte) :
  byte_xor (byte_xor x y) z = byte_xor x (byte_xor y z).
Proof.
  unfold byte_xor.
  destruct (Byte.to_bits x) as (x0 & x1 & x2 & x3 & x4 & x5 & x6 & x7).
  destruct (Byte.to_bits y) as (y0 & y1 & y2 & y3 & y4 & y5 & y6 & y7).
  destruct (Byte.to_bits z) as (z0 & z1 & z2 & z3 & z4 & z5 & z6 & z7).
  rewrite !Byte.to_bits_of_bits. now rewrite !xorb_assoc.
Qed.

Lemma xor_at_app (l r : Buffer) (x v : byte) :
  xor_at (l ++ x :: r) (length l) v = l ++ byte_xor x v :: r.
Proof.
  induction l as [| y l IH]; [reflexivity |].
  cbn [app length xor_at]. now rewrite IH.
Qed.

Lemma firstn_snoc_nth {A : Type} (d : A) (l : list A) (n : nat) :
  n < length l -> firstn (S n) l = firstn n l ++ [nth n l d].
Proof.
  revert n. induction l as [| x l IH]; intros n Hn; [cbn in Hn; lia |].
  destruct n as [| n]; [reflexivity |].
  cbn [length] in Hn. cbn [firstn nth app]. rewrite <- IH by lia. reflexivity.
Qed.

Lemma compressHash_short_prefix (hash : Buffer) (size n : nat) :
  n <= length hash -> length hash <= size ->
  fold_left
    (fun result idx =>
       if Nat.eqb size 0 then result
       else xor_at result (idx mod size) (nth idx hash x00))
    (seq 0 n) (Buffer_alloc size) =
  firstn n hash ++ repeat x00 (size - n).
Proof.
  intros Hn Hsize. induction n as [| n IH].
  - cbn [seq fold_left firstn app]. now rewrite Nat.sub_0_r.
  - rewrite seq_S, fold_left_app, IH by lia. cbn [fold_left Nat.add].
    destruct (Nat.eqb_spec size 0) as [E | _]; [lia |].
    rewrite Nat.mod_small by lia.
    replace (size - n) with (S (size - S n)) by lia. cbn [repeat].
    pose proof (xor_at_app (firstn n hash) (repeat x00 (size - S n)) x00
                  (nth n hash x00)) as X.
    rewrite length_firstn, Nat.min_l in X by lia. rewrite X, byte_xor_zero_l.
    rewrite (firstn_snoc_nth x00) by lia. now rewrite <- app_assoc.
Qed.

(** A short digest is padded, not folded. *)
Lemma compressHash_padded (hash : Buffer) (size : nat) :
  length hash <= size ->
  compressHash hash size = hash ++ repeat x00 (size - length hash).
Proof.
  intros H. unfold compressHash.
  rewrite compressHash_short_prefix by lia. now rewrite firstn_all.
Qed.

(** X7. A digest no longer than the target size is not folded at all: it
    comes back followed by zero bytes up to the size. *)
Theorem compressHash_short (hash : Buffer) (size : nat) :
  length hash <= size ->
  compressHash hash size = hash ++ repeat x00 (size - length hash).
Proof.
  intros H. unfold compressHash.
  rewrite compressHash_short_prefix by lia. now rewrite firstn_all.
Qed.

Lemma compressHash_short_witness :
  compressHash ["001"; "002"]%byte 4 = ["001"; "002"; "000"; "000"]%byte.
Proof. apply (@compressHash_short ["001"; "002"]%byte 4). cbn. lia. Defined.

Lemma xor_at_xor_buffers (a r : Buffer) (i : nat) (v : byte) :
  xor_at (xor_buffers a r) i v = xor_buffers a (xor_at r i v).
Proof.
  revert r i. induction a as [| x a IH]; intros [| y r] i;
    try reflexivity; try (destruct i; reflexivity).
  destruct i as [| i]; cbn [xor_buffers combine map xor_at fst snd].
  - now rewrite byte_xor_assoc.
  - f_equal. apply IH.
Qed.

Lemma xor_buffers_zeros (a : Buffer) :
  xor_buffers a (repeat x00 (length a)) = a.
Proof.
  induction a as [| x a IH]; [reflexivity |].
  cbn [length repeat xor_buffers combine map fst snd].
  fold (xor_buffers a (repeat x00 (length a))). rewrite IH.
  f_equal. destruct x; reflexivity.
Qed.

(** The fold of [compressHash] started from any buffer. *)
Lemma compress_fold_from (a b : Buffer) (size : nat) (l : list nat) (r : Buffer) :
  fold_left
    (fun result idx =>
       if Nat.eqb size 0 then result
       else xor_at result (idx mod size) (nth idx b x00))
    l (xor_buffers a r) =
  xor_buffers a
    (fold_left
       (fun result idx =>
          if Nat.eqb size 0 then result
          else xor_at result (idx mod size) (nth idx b x00))
       l r).
Proof.
  revert r. induction l as [| idx l IH]; intros r; [reflexivity |].
  cbn [fold_left]. destruct (Nat.eqb size 0); [apply IH |].
  rewrite xor_at_xor_buffers. apply IH.
Qed.

Lemma fold_left_ext_in {A B : Type} (f g : A -> B -> A) (l : list B) (a : A) :
  (forall x y, In y l -> f x y = g x y) -> fold_left f l a = fold_left g l a.
Proof.
  revert a. induction l as [| y l IH]; intros a H; [reflexivity |].
  cbn [fold_left]. rewrite (H a y (or_introl eq_refl)).
  apply IH. intros x z Hz. apply H. now right.
Qed.

Lemma fold_left_map {A B C : Type} (f : A -> C -> A) (g : B -> C) (l : list B) (a : A) :
  fold_left f (map g l) a = fold_left (fun x y => f x (g y)) l a.
Proof.
  revert a. induction l as [| y l IH]; intros a; [reflexivity |]. apply IH.
Qed.

Lemma seq_offset (a n : nat) : seq a n = map (Nat.add a) (seq 0 n).
Proof.
  induction n as [| n IH]; [reflexivity |].
  now rewrite !seq_S, map_app, IH.
Qed.

(** X8. Folding is XOR by blocks: a digest that begins with a block of
    exactly [size] bytes folds to that block XORed with the fold of what
    follows; so a 32-byte digest folds to its first 20 bytes with the last
    12 XORed onto the first 12 of them. *)
Theorem compressHash_block (a b : Buffer) (size : nat) :
  length a = size ->
  compressHash (a ++ b) size = xor_buffers a (compressHash b size) /\
  (size = 20 -> length b = 12 ->
   compressHash (a ++ b) size = xor_buffers a (b ++ repeat x00 8)).
Proof.
  intros Ha.
  assert (E1 : fold_left
                 (fun result idx =>
                    if Nat.eqb size 0 then result
                    else xor_at result (idx mod size) (nth idx (a ++ b) x00))
                 (seq 0 (length a)) (Buffer_alloc size) = a).
  { rewrite (@fold_left_ext_in _ _ _
               (fun result idx =>
                  if Nat.eqb size 0 then result
                  else xor_at result (idx mod size) (nth idx a x00))).
    - fold (compressHash a size). rewrite compressHash_padded by lia.
      now rewrite Ha, Nat.sub_diag, app_nil_r.
    - intros x idx Hidx. apply in_seq in Hidx.
      now rewrite app_nth1 by lia. }
  assert (E2 : forall r,
             fold_left
               (fun result idx =>
                  if Nat.eqb size 0 then result
                  else xor_at result (idx mod size) (nth idx (a ++ b) x00))
               (seq (length a) (length b)) r =
             fold_left
               (fun result idx =>
                  if Nat.eqb size 0 then result
                  else xor_at result (idx mod size) (nth idx b x00))
               (seq 0 (length b)) r).
  { intros r. rewrite seq_offset, fold_left_map.
    apply fold_left_ext_in. intros x idx _.
    destruct (Nat.eqb_spec size 0) as [| Hs]; [reflexivity |].
    rewrite app_nth2 by lia.
    replace (length a + idx - length a) with idx by lia.
    rewrite Ha. replace (size + idx) with (idx + 1 * size) by lia.
    now rewrite Nat.Div0.mod_add. }
  assert (E : compressHash (a ++ b) size = xor_buffers a (compressHash b size)).
  { unfold compressHash at 1. rewrite length_app, seq_app, fold_left_app.
    cbn [Nat.add]. rewrite E1, E2.
    rewrite <- (xor_buffers_zeros a) at 1. rewrite Ha.
    apply compress_fold_from. }
  split; [exact E |].
  intros Hs Hb. rewrite E, compressHash_padded by lia.
  now rewrite Hs, Hb.
Qed.

Lemma compressHash_block_witness :
  compressHash (repeat x01 20 ++ repeat x03 12) 20 =
  xor_buffers (repeat x01 20) (repeat x03 12 ++ repeat x00 8).
Proof.
  apply (@compressHash_block (repeat x01 20) (repeat x03 12) 20); reflexivity.
Defined.

(* --------------------------------------------------------------------- *)
(** ** More on encodeBase32 *)
(* --------------------------------------------------------------------- *)

Lemma byte_of_byte_bits (b : byte) : byte_of_bits (byte_bits b) = b.
Proof. destruct b; reflexivity. Qed.

Lemma bit_string_inj (l1 l2 : Buffer) :
  flat_map byte_bits l1 = flat_map byte_bits l2 -> l1 = l2.
Proof.
  revert l2. induction l1 as [| b1 l1 IH]; intros [| b2 l2] E;
    try reflexivity; try (apply (f_equal (@length bool)) in E; cbn in E; lia).
  cbn [flat_map] in E. apply app_inj_length in E; [| reflexivity].
  destruct E as [E1 E2]. apply (f_equal byte_of_bits) in E1.
  rewrite !byte_of_byte_bits in E1. subst. f_equal. now apply IH.
Qed.

Lemma spec_alphabet_position (v : nat) :
  v < 32 -> position_of (nth v spec_alphabet 0%N) spec_alphabet = Some v.
Proof.
  intros Hv. do 32 (destruct v as [| v]; [reflexivity |]). lia.
Qed.

Lemma bits_value_from (g : list bool) (a : nat) :
  fold_left (fun acc (b : bool) => 2 * acc + (if b then 1 else 0)) g a =
  a * 2 ^ length g + bits_value g.
Proof.
  unfold bits_value. revert a.
  induction g as [| b g IH]; intros a; cbn [fold_left length].
  - rewrite Nat.pow_0_r. lia.
  - rewrite IH, (IH (2 * 0 + _)), Nat.pow_succ_r'. lia.
Qed.

Lemma bits_value_inj (g1 g2 : list bool) :
  length g1 = length g2 -> bits_value g1 = bits_value g2 -> g1 = g2.
Proof.
  revert g2. induction g1 as [| b1 g1 IH]; intros [| b2 g2] Hlen E;
    try discriminate; [reflexivity |].
  injection Hlen as Hlen. unfold bits_value in E. cbn [fold_left] in E.
  rewrite !bits_value_from, <- Hlen in E.
  pose proof (bits_value_bound g1) as B1.
  pose proof (bits_value_bound g2) as B2. rewrite <- Hlen in B2.
  set (P := 2 ^ length g1) in *.
  assert (bits_value g1 = bits_value g2 /\ b1 = b2) as [Ev Eb]
    by (destruct b1, b2; split; try reflexivity; nia).
  subst. f_equal. now apply IH.
Qed.

Lemma groups_determine (n : nat) (l1 l2 : list bool) :
  length l1 <= 5 * n -> length l1 = length l2 ->
  (forall k, k < n ->
     firstn 5 (skipn (5 * k) l1) = firstn 5 (skipn (5 * k) l2)) ->
  l1 = l2.
Proof.
  revert l1 l2. induction n as [| n IH]; intros l1 l2 Hn Hlen H.
  - destruct l1, l2; cbn in *; try lia. reflexivity.
  - rewrite <- (firstn_skipn 5 l1), <- (firstn_skipn 5 l2). f_equal.
    + apply (H 0). lia.
    + apply IH.
      * rewrite length_skipn. lia.
      * rewrite !length_skipn. lia.
      * intros k Hk. rewrite !skipn_skipn.
        replace (5 * k + 5) with (5 * S k) by lia. apply H. lia.
Qed.

Lemma ceil_eight_fifths_inj (n1 n2 : nat) :
  Nat.div (8 * n1 + 4) 5 = Nat.div (8 * n2 + 4) 5 -> n1 = n2.
Proof.
  intros E.
  pose proof (Nat.div_mod_eq (8 * n1 + 4) 5).
  pose proof (Nat.div_mod_eq (8 * n2 + 4) 5).
  pose proof (Nat.mod_upper_bound (8 * n1 + 4) 5).
  pose proof (Nat.mod_upper_bound (8 * n2 + 4) 5).
  lia.
Qed.

(** X9. The encoding loses nothing: two different buffers, of whatever
    lengths, never have the same base32 text; in particular two different
    folded digests give two different store path identifiers. *)
Theorem encodeBase32_inj (b1 b2 : Buffer) :
  b1 <> b2 -> encodeBase32 b1 <> encodeBase32 b2.
Proof.
  intros Hne E. apply Hne.
  assert (Hlen : length b1 = length b2).
  { apply ceil_eight_fifths_inj. rewrite <- !encodeBase32_length. now rewrite E. }
  rewrite !encodeBase32_spec in E. unfold spec_encodeBase32 in E.
  rewrite !spec_bit_string_length, <- Hlen in E.
  assert (Hbits : spec_bit_string b1 = spec_bit_string b2).
  { apply (@groups_determine (Nat.div (8 * length b1 + 4) 5)).
    - rewrite spec_bit_string_length.
      pose proof (Nat.div_mod_eq (8 * length b1 + 4) 5).
      pose proof (Nat.mod_upper_bound (8 * length b1 + 4) 5). lia.
    - rewrite !spec_bit_string_length. lia.
    - intros k Hk.
      assert (Ek : nth (bits_value (firstn 5 (skipn (5 * k) (spec_bit_string b1))))
                     spec_alphabet 0%N =
                   nth (bits_value (firstn 5 (skipn (5 * k) (spec_bit_string b2))))
                     spec_alphabet 0%N).
      { apply (proj1 (@map_ext_in_iff _ _ _ _ _) E). apply in_seq. lia. }
      assert (B : forall bits : list bool,
                 bits_value (firstn 5 (skipn (5 * k) bits)) < 32).
      { intros bits. eapply Nat.lt_le_trans; [apply bits_value_bound |].
        change 32 with (2 ^ 5). apply Nat.pow_le_mono_r; [lia |].
        rewrite length_firstn. lia. }
      apply bits_value_inj.
      + rewrite !length_firstn, !length_skipn, !spec_bit_string_length. lia.
      + pose proof (spec_alphabet_position (B (spec_bit_string b1))) as P1.
        pose proof (spec_alphabet_position (B (spec_bit_string b2))) as P2.
        rewrite Ek, P2 in P1. now injection P1. }
  unfold spec_bit_string in Hbits. apply bit_string_inj in Hbits.
  rewrite <- (rev_involutive b1), <- (rev_involutive b2). now rewrite Hbits.
Qed.

Lemma encodeBase32_inj_witness :
  encodeBase32 (repeat x00 20) <> encodeBase32 (repeat x00 19 ++ [x01]).
Proof.
  apply (@encodeBase32_inj (repeat x00 20) (repeat x00 19 ++ [x01])). discriminate.
Defined.

(* --------------------------------------------------------------------- *)
(** ** Paths in normal form *)
(* --------------------------------------------------------------------- *)

Lemma resolve_segments_keeps (allow : bool) (segs stack : list jsstring) :
  Forall plain_segment segs ->
  resolve_segments allow stack segs = rev stack ++ segs.
Proof.
  intros H. revert stack. induction H as [| seg segs Hseg Hsegs IH]; intros stack.
  - cbn [resolve_segments]. now rewrite app_nil_r.
  - destruct Hseg as (H1 & _ & H2 & H3). cbn [resolve_segments].
    rewrite !str_eqb_neq by assumption. cbn [orb].
    rewrite IH. cbn [rev]. now rewrite <- app_assoc.
Qed.

Lemma split_slash_join (seg : jsstring) (segs : list jsstring) :
  Forall no_slash (seg :: segs) -> split_slash (join_slash (seg :: segs)) = seg :: segs.
Proof.
  revert seg. induction segs as [| s segs IH]; intros seg H.
  - cbn [join_slash]. apply split_slash_no_slash. now inversion H.
  - change (join_slash (seg :: s :: segs)) with (seg ++ SLASH :: join_slash (s :: segs)).
    inversion H as [| ? ? Hseg Hrest]; subst.
    rewrite split_slash_app, (split_slash_no_slash Hseg), IH by exact Hrest.
    reflexivity.
Qed.

Lemma plain_segments_no_slash (segs : list jsstring) :
  Forall plain_segment segs -> Forall no_slash segs.
Proof. apply Forall_impl. intros seg (_ & H & _). exact H. Qed.

Lemma join_prefix_normal (root : PortablePath) :
  normal_absolute root -> join_prefix root = root ++ [SLASH].
Proof.
  intros (seg & segs & Hplain & ->). unfold join_prefix.
  change (N.eqb SLASH SLASH) with true. cbn [negb].
  change (split_slash (SLASH :: join_slash (seg :: segs)))
    with ([] :: split_slash (join_slash (seg :: segs))).
  rewrite split_slash_join by (now apply plain_segments_no_slash).
  change (resolve_segments false [] ([] :: seg :: segs))
    with (resolve_segments false [] (seg :: segs)).
  rewrite resolve_segments_keeps by exact Hplain. reflexivity.
Qed.

(** Joining any root with a plain segment appends the segment to the
    normalised root. *)
Lemma ppath_join_segment (root seg : jsstring) :
  plain_segment seg -> ppath_join root seg = join_prefix root ++ seg.
Proof.
  intros (Hne & Hns & Hd & Hdd).
  assert (Hres : forall allow stack,
             resolve_segments allow stack [seg] = rev stack ++ [seg]).
  { intros allow stack. apply resolve_segments_keeps.
    constructor; [repeat split; assumption | constructor]. }
  assert (Hhd : N.eqb (hd 0%N seg) SLASH = false).
  { destruct seg as [| s0 seg']; [congruence |].
    apply N.eqb_neq. now inversion Hns. }
  rewrite ppath_join_nonempty_args by exact Hne.
  destruct root as [| r0 root'].
  - rewrite posix_normalize_nonempty by exact Hne. cbn zeta.
    rewrite Hhd. cbn [negb join_prefix app].
    rewrite split_slash_no_slash by exact Hns.
    rewrite Hres. cbn [rev app join_slash].
    pose proof (last_no_slash [] Hns Hne) as Hlast. cbn [app] in Hlast.
    rewrite Hlast.
    destruct seg; [congruence | reflexivity].
  - rewrite posix_normalize_nonempty by discriminate. cbn zeta.
    cbn [app hd]. unfold join_prefix.
    change (r0 :: root' ++ SLASH :: seg) with ((r0 :: root') ++ SLASH :: seg).
    rewrite split_slash_app, (split_slash_no_slash Hns), resolve_segments_app.
    rewrite Hres, rev_involutive, join_slash_snoc.
    replace ((r0 :: root') ++ SLASH :: seg) with (((r0 :: root') ++ [SLASH]) ++ seg)
      by (now rewrite <- app_assoc).
    rewrite (last_no_slash _ Hns Hne).
    destruct (resolve_segments (negb (N.eqb r0 SLASH)) [] (split_slash (r0 :: root')))
      as [| g gs].
    + destruct seg; [congruence |]. destruct (N.eqb r0 SLASH); reflexivity.
    + destruct (join_slash (g :: gs) ++ SLASH :: seg) as [| x xs] eqn:E.
      { destruct (join_slash (g :: gs)); discriminate. }
      rewrite <- E.
      destruct (N.eqb r0 SLASH); cbn [app]; now rewrite <- app_assoc.
Qed.

Lemma dirname_end_segment (s r : jsstring) (m : bool) (i : nat) :
  no_slash s -> s <> [] ->
  dirname_end (s ++ SLASH :: r) m i = Some (i - length s).
Proof.
  intros Hns. revert m i.
  induction Hns as [| c s Hc Hs IH]; intros m i Hne; [congruence |].
  cbn [app dirname_end length]. apply N.eqb_neq in Hc. rewrite Hc.
  destruct s as [| c' s'].
  - cbn [app dirname_end length]. change (N.eqb SLASH SLASH) with true.
    cbv iota. reflexivity.
  - rewrite IH by discriminate. f_equal. cbn [length]. lia.
Qed.

(** The directory of [root/seg] is [root], for every root but the empty
    one and the lone slash. *)
Lemma ppath_dirname_child (root seg : jsstring) :
  root <> [] -> root <> [SLASH] -> no_slash seg -> seg <> [] ->
  ppath_dirname (root ++ SLASH :: seg) = root.
Proof.
  intros Hr Hr' Hns Hne. destruct root as [| c0 root']; [congruence |].
  unfold ppath_dirname. cbn [app].
  rewrite rev_app_distr. cbn [rev]. rewrite <- app_assoc. cbn [app].
  rewrite dirname_end_segment.
  - rewrite length_app, length_rev. cbn [length].
    replace (length root' + S (length seg) - length seg) with (S (length root')) by lia.
    assert (E : N.eqb c0 SLASH && Nat.eqb (S (length root')) 1 = false).
    { destruct (N.eqb_spec c0 SLASH) as [-> |]; [| reflexivity].
      destruct root'; [congruence | reflexivity]. }
    rewrite E. unfold slice_to.
    change (c0 :: root' ++ SLASH :: seg) with ((c0 :: root') ++ SLASH :: seg).
    rewrite firstn_app. change (S (length root')) with (length (c0 :: root')).
    rewrite firstn_all, Nat.sub_diag. cbn [firstn]. apply app_nil_r.
  - apply Forall_rev. exact Hns.
  - intros E. apply Hne. apply (f_equal (@rev char16)) in E.
    now rewrite rev_involutive in E.
Qed.

Lemma normal_absolute_not_root (root : PortablePath) :
  normal_absolute root -> root <> [] /\ root <> [SLASH].
Proof.
  intros (seg & segs & Hplain & ->). split; [discriminate |].
  intros E. injection E as E.
  inversion Hplain as [| ? ? (Hne & _) _]; subst.
  destruct segs; cbn [join_slash] in E; [congruence |].
  destruct seg; [congruence | discriminate].
Qed.

(** Joining a path in normal form with a plain segment appends a slash
    and the segment; the directory of the result is the path. *)
Lemma ppath_join_normal (root seg : jsstring) :
  normal_absolute root -> plain_segment seg ->
  ppath_join root seg = root ++ SLASH :: seg /\
  ppath_dirname (ppath_join root seg) = root.
Proof.
  intros Hroot Hseg.
  assert (E : ppath_join root seg = root ++ SLASH :: seg).
  { rewrite ppath_join_segment, join_prefix_normal by assumption.
    now rewrite <- app_assoc. }
  split; [exact E |]. rewrite E.
  destruct (normal_absolute_not_root Hroot) as [H1 H2].
  destruct Hseg as (Hne & Hns & _).
  now apply ppath_dirname_child.
Qed.

Lemma store_root_normal : normal_absolute DEFAULT_STORE_PATH.
Proof.
  exists (js "nix"), [js "store"]. split; [| reflexivity].
  repeat constructor; try discriminate;
    apply no_slash_check; reflexivity.
Qed.

(* --------------------------------------------------------------------- *)
(** ** More on derivation names and the store paths of locators *)
(* --------------------------------------------------------------------- *)

Ltac bools :=
  repeat match goal with
  | H : _ || _ = true |- _ => apply orb_true_iff in H; destruct H as [H | H]
  | H : _ && _ = true |- _ =>
      let H' := fresh H in apply andb_true_iff in H; destruct H as [H H']
  | H : N.leb _ _ = true |- _ => apply N.leb_le in H
  | H : N.eqb _ _ = true |- _ => apply N.eqb_eq in H
  end.

Lemma name_char_not_slash (c : char16) : is_name_char c = true -> c <> SLASH.
Proof.
  unfold is_name_char, SLASH. intros H E. subst c. discriminate.
Qed.

Lemma name_char_not_space (c : char16) :
  is_name_char c = true -> is_js_space c = false.
Proof.
  intros H. destruct (is_js_space c) eqn:S; [| reflexivity].
  unfold is_name_char in H. unfold is_js_space in S. bools; lia.
Qed.

Lemma name_chars_no_slash (s : jsstring) :
  Forall (fun c => is_name_char c = true) s -> no_slash s.
Proof. apply Forall_impl. apply name_char_not_slash. Qed.

(** Every sanitised name is a plain path segment. *)
Lemma sanitized_plain (raw : jsstring) : plain_segment (sanitizeDerivationName raw).
Proof.
  destruct (sanitize_shape raw) as (H1 & _ & H3 & H4).
  repeat split.
  - exact H1.
  - now apply name_chars_no_slash.
  - intros E. rewrite E in H4. now apply H4.
  - intros E. rewrite E in H4. now apply H4.
Qed.

Lemma strip_leading_dots_all (x : jsstring) :
  Forall (fun c => c = DOT) x -> strip_leading_dots x = [].
Proof.
  induction 1 as [| c x -> Hx IH]; [reflexivity |].
  cbn [strip_leading_dots]. now rewrite N.eqb_refl.
Qed.

Lemma strip_leading_dots_some (x : jsstring) :
  ~ Forall (fun c => c = DOT) x -> strip_leading_dots x <> [].
Proof.
  induction x as [| c x IH]; intros H; [exfalso; apply H; constructor |].
  cbn [strip_leading_dots]. destruct (N.eqb_spec c DOT) as [-> | Hc]; [| discriminate].
  apply IH. intros Hx. apply H. now constructor.
Qed.

Lemma replace_invalid_runs_some (s : jsstring) :
  s <> [] -> replace_invalid_runs false s <> [].
Proof.
  destruct s as [| c s]; [congruence | intros _].
  cbn [replace_invalid_runs]. destruct (is_name_char c); discriminate.
Qed.

(** X10. The placeholder stands in exactly for the names that are nothing
    but dots, the empty name among them; any other name keeps at least
    one character of its own or a dash for it. *)
Theorem sanitizeDerivationName_placeholder (raw : jsstring) :
  (Forall (fun c => c = DOT) raw ->
   sanitizeDerivationName raw = js "unknown") /\
  (~ Forall (fun c => c = DOT) raw ->
   sanitizeDerivationName raw =
   slice_to 207 (replace_invalid_runs false (strip_leading_dots raw)) /\
   slice_to 207 (replace_invalid_runs false (strip_leading_dots raw)) <> []).
Proof.
  unfold sanitizeDerivationName. split.
  - intros H. now rewrite strip_leading_dots_all.
  - intros H.
    pose proof (replace_invalid_runs_some (strip_leading_dots_some H)) as R.
    destruct (replace_invalid_runs false (strip_leading_dots raw)) as [| c s];
      [congruence |].
    split; [reflexivity | discriminate].
Qed.

Lemma sanitizeDerivationName_placeholder_witness :
  sanitizeDerivationName (js "....") = js "unknown" /\
  sanitizeDerivationName (js "..a b") = js "a-b".
Proof.
  split.
  - apply (sanitizeDerivationName_placeholder (js "....")).
    repeat constructor.
  - transitivity (slice_to 207 (replace_invalid_runs false
                                  (strip_leading_dots (js "..a b"))));
      [| reflexivity].
    apply (sanitizeDerivationName_placeholder (js "..a b")).
    intros H. inversion H as [| ? ? _ H1]; subst.
    inversion H1 as [| ? ? _ H2]; subst.
    inversion H2 as [| ? ? H3 _]; subst. discriminate.
Defined.

(** X11. A name that is already valid (not empty, at most 207 characters
    of the accepted class, no leading dot) is returned unchanged. *)
Theorem sanitizeDerivationName_keeps_valid (name : jsstring) :
  name <> [] -> length name <= 207 ->
  forallb is_name_char name = true ->
  hd_error name <> Some DOT ->
  sanitizeDerivationName name = name.
Proof.
  intros H1 H2 H3 H4. apply sanitize_fixed_point; try assumption.
  apply Forall_forall. intros c Hc.
  rewrite forallb_forall in H3. now apply H3.
Qed.

Lemma sanitizeDerivationName_keeps_valid_witness :
  sanitizeDerivationName (js "left-pad-npm-1.3.0.zip") = js "left-pad-npm-1.3.0.zip".
Proof.
  apply (@sanitizeDerivationName_keeps_valid (js "left-pad-npm-1.3.0.zip"));
    try discriminate; try reflexivity. cbn. lia.
Defined.

Lemma trimStart_kept (s : jsstring) :
  match s with [] => True | c :: _ => is_js_space c = false end ->
  trimStart s = s.
Proof. destruct s as [| c s]; [reflexivity |]. cbn [trimStart]. now intros ->. Qed.

Lemma trimStart_blank (ws s : jsstring) : blank ws -> trimStart (ws ++ s) = trimStart s.
Proof.
  induction 1 as [| c ws Hc Hws IH]; [reflexivity |].
  cbn [app trimStart]. now rewrite Hc.
Qed.

(** White space around a text that neither begins nor ends with white
    space is all that [trim] removes. *)
Lemma trim_blank_around (ws1 ws2 s : jsstring) (first last : char16) (mid : jsstring) :
  blank ws1 -> blank ws2 ->
  is_js_space first = false -> is_js_space last = false ->
  s = first :: mid \/ s = [first] ->
  (exists front, s = front ++ [last]) ->
  trim (ws1 ++ s ++ ws2) = s.
Proof.
  intros B1 B2 Hf Hl Hs [front Hlast]. unfold trim.
  rewrite trimStart_blank by exact B1.
  rewrite (@trimStart_kept (s ++ ws2)).
  2:{ destruct Hs as [-> | ->]; exact Hf. }
  rewrite rev_app_distr, trimStart_blank by (now apply Forall_rev).
  rewrite trimStart_kept; [apply rev_involutive |].
  rewrite Hlast, rev_app_distr. exact Hl.
Qed.

Lemma dirname_end_positive (r : jsstring) (m : bool) (i e : nat) :
  length r <= i -> dirname_end r m i = Some e -> 1 + (i - length r) <= e.
Proof.
  revert m i. induction r as [| c r IH]; intros m i Hi H; [discriminate |].
  cbn [dirname_end length] in *.
  destruct (N.eqb c SLASH).
  - destruct m.
    + apply IH in H; lia.
    + injection H as <-. lia.
  - apply IH in H; lia.
Qed.

(** A directory name is never the empty string. *)
Lemma ppath_dirname_nonempty (path : PortablePath) : ppath_dirname path <> [].
Proof.
  destruct path as [| c0 rest]; [discriminate |].
  unfold ppath_dirname.
  destruct (dirname_end (rev rest) true (length rest)) as [e |] eqn:E.
  - destruct (N.eqb c0 SLASH && Nat.eqb e 1); [discriminate |].
    apply dirname_end_positive in E; [| rewrite length_rev; lia].
    destruct e as [| e]; [lia | discriminate].
  - destruct (N.eqb c0 SLASH); discriminate.
Qed.

Lemma last_app_nonempty {A : Type} (p n : list A) (d : A) :
  n <> [] -> last (p ++ n) d = last n d.
Proof.
  intros Hn. destruct (exists_last Hn) as (front & c & ->).
  now rewrite app_assoc, !last_last.
Qed.

(** A leading [./] on what is joined to a directory changes nothing. *)
Lemma ppath_join_dot_slash (dir name : jsstring) :
  dir <> [] -> name <> [] ->
  ppath_join dir (js "./" ++ name) = ppath_join dir name.
Proof.
  intros Hd Hn.
  rewrite !ppath_join_nonempty_args by (assumption || discriminate).
  destruct dir as [| d0 dir]; [congruence |].
  rewrite !posix_normalize_nonempty by discriminate.
  cbv zeta. cbn [hd app].
  change (js "./" ++ name) with (DOT :: SLASH :: name).
  assert (Hlast : last (d0 :: dir ++ SLASH :: DOT :: SLASH :: name) 0%N
                  = last (d0 :: dir ++ SLASH :: name) 0%N).
  { replace (d0 :: dir ++ SLASH :: DOT :: SLASH :: name)
      with ((d0 :: dir ++ [SLASH; DOT; SLASH]) ++ name)
      by (cbn [app]; now rewrite <- app_assoc).
    replace (d0 :: dir ++ SLASH :: name)
      with ((d0 :: dir ++ [SLASH]) ++ name)
      by (cbn [app]; now rewrite <- app_assoc).
    now rewrite !last_app_nonempty. }
  assert (Hsplit : forall allow,
            resolve_segments allow []
              (split_slash (d0 :: dir ++ SLASH :: DOT :: SLASH :: name))
            = resolve_segments allow [] (split_slash (d0 :: dir ++ SLASH :: name))).
  { intros allow.
    change (d0 :: dir ++ SLASH :: DOT :: SLASH :: name)
      with ((d0 :: dir) ++ SLASH :: ([DOT] ++ SLASH :: name)).
    change (d0 :: dir ++ SLASH :: name) with ((d0 :: dir) ++ SLASH :: name).
    rewrite !split_slash_app.
    change (split_slash [DOT]) with [[DOT]].
    rewrite (resolve_segments_app allow (split_slash (d0 :: dir))
               ([[DOT]] ++ split_slash name)).
    rewrite (resolve_segments_app allow (split_slash (d0 :: dir)) (split_slash name)).
    reflexivity. }
  rewrite Hlast, Hsplit. reflexivity.
Qed.

Section LocatorStorePath.
Context `{Ext : Externals}.

Lemma sanitized_segment (raw id : jsstring) :
  length id = 32 -> no_slash id ->
  plain_segment (id ++ js "-" ++ sanitizeDerivationName raw).
Proof.
  intros Hlen Hns. destruct (sanitized_plain raw) as (_ & Hname & _).
  repeat split.
  - intros E. apply (f_equal (@length char16)) in E.
    rewrite length_app, Hlen in E. cbn in E. lia.
  - apply Forall_app. split; [exact Hns |].
    apply Forall_app. split; [| exact Hname].
    constructor; [discriminate | constructor].
  - intros E. apply (f_equal (@length char16)) in E.
    rewrite length_app, Hlen in E. cbn in E. lia.
  - intros E. apply (f_equal (@length char16)) in E.
    rewrite length_app, Hlen in E. cbn in E. lia.
Qed.

(** X12. Under the default store root the path of a sanitised name, and so
    of every locator, is [/nix/store/<id>-<name>] to the letter: 32
    characters of the base32 alphabet, a dash and the name; it lies
    directly in [/nix/store] and has at most 251 characters. *)
Theorem sanitized_store_path (raw checksum hashAlgorithm : jsstring) :
  let name := sanitizeDerivationName raw in
  let path := computeFixedOutputStorePath name checksum hashAlgorithm DEFAULT_STORE_PATH in
  exists id,
    length id = 32 /\
    Forall (fun c => In c BASE32_CHARSET) id /\
    path = js "/nix/store/" ++ id ++ js "-" ++ name /\
    ppath_dirname path = js "/nix/store" /\
    length path <= 251.
Proof.
  cbv zeta. unfold computeFixedOutputStorePath.
  match goal with
  | |- context [encodeBase32 (compressHash ?d 20)] =>
      destruct (store_id_shape d) as [Hlen Hns];
      pose proof (encodeBase32_alphabet (compressHash d 20)) as Hal;
      set (id := encodeBase32 (compressHash d 20)) in *
  end.
  exists id.
  destruct (ppath_join_normal store_root_normal (sanitized_segment raw Hlen Hns))
    as [E D].
  split; [exact Hlen |]. split; [exact Hal |].
  split; [rewrite E; reflexivity |]. split; [exact D |].
  rewrite E. change DEFAULT_STORE_PATH with (js "/nix/store").
  rewrite !length_app. cbn [length]. rewrite !length_app, Hlen.
  destruct (sanitize_shape raw) as (_ & H207 & _).
  change (length (js "/nix/store")) with 10. change (length (js "-")) with 1.
  lia.
Qed.

(** The store path of a sanitised name, spelled out. *)
Lemma store_path_spelled (raw checksum hashAlgorithm : jsstring) :
  exists id,
    computeFixedOutputStorePath (sanitizeDerivationName raw) checksum hashAlgorithm
      DEFAULT_STORE_PATH
    = js "/nix/store/" ++ id ++ js "-" ++ sanitizeDerivationName raw.
Proof.
  unfold computeFixedOutputStorePath.
  match goal with
  | |- context [encodeBase32 (compressHash ?d 20)] =>
      destruct (store_id_shape d) as [Hlen Hns];
      exists (encodeBase32 (compressHash d 20))
  end.
  destruct (ppath_join_normal store_root_normal (sanitized_segment raw Hlen Hns))
    as [E _].
  rewrite E. reflexivity.
Qed.

(** White space printed around such a path is all that [trim] removes. *)
Lemma store_path_trim (raw checksum hashAlgorithm ws1 ws2 : jsstring) :
  let path :=
    computeFixedOutputStorePath (sanitizeDerivationName raw) checksum hashAlgorithm
      DEFAULT_STORE_PATH in
  blank ws1 -> blank ws2 -> trim (ws1 ++ path ++ ws2) = path.
Proof.
  cbv zeta. intros B1 B2.
  destruct (store_path_spelled raw checksum hashAlgorithm) as [id E]. rewrite E.
  destruct (sanitize_shape raw) as (Hne & _ & Hch & _).
  destruct (exists_last Hne) as (front & c & Hname).
  assert (Hc : is_js_space c = false).
  { apply name_char_not_space. rewrite Hname in Hch.
    apply Forall_app in Hch. destruct Hch as [_ Hch]. now inversion Hch. }
  apply (@trim_blank_around ws1 ws2 _ SLASH c
           (js "nix/store/" ++ id ++ js "-" ++ sanitizeDerivationName raw));
    try assumption.
  - reflexivity.
  - left. reflexivity.
  - exists (js "/nix/store/" ++ id ++ js "-" ++ front).
    rewrite Hname at 1. now rewrite <- !app_assoc.
Qed.

End LocatorStorePath.

(* --------------------------------------------------------------------- *)
(** ** More on fetchPackageFromNixStore *)
(* --------------------------------------------------------------------- *)

Section MoreFetchProperties.
Context `{Ext : Externals} `{Rt : Runtime}.
Variable World : Type.
Variable handler : forall X : Type, Call X -> World -> (Exn + X) * World.

Local Abbreviation storePathFor name checksum :=
  (computeFixedOutputStorePath name checksum DEFAULT_HASH_ALGORITHM DEFAULT_STORE_PATH).

Ltac ask :=
  match goal with
  | H : @handler ?X ?c ?w = _ |- context [@handler ?X ?c ?w] => rewrite H
  | |- context [@handler ?X ?c ?w] =>
      let e := fresh "e" in
      let x := fresh "x" in
      let w' := fresh "w" in
      let E := fresh "E" in
      destruct (@handler X c w) as [[e | x] w'] eqn:E
  end.

Ltac units := repeat match goal with x : unit |- _ => destruct x end.

Ltac drive :=
  repeat first
    [ progress cbn [run bind await negb fst snd]
    | ask; units
    | match goal with
      | |- context [if ?b then _ else _] => destruct b eqn:?
      end ].

Ltac find_in := cbn [In]; repeat (first [left; reflexivity | right]).

Local Arguments computeFixedOutputStorePath : simpl never.
Local Arguments locatorDerivationName : simpl never.
Local Arguments ppath_join : simpl never.
Local Arguments ppath_dirname : simpl never.
Local Arguments trim : simpl never.
Local Arguments str_eqb : simpl never.
Local Arguments js : simpl never.

(** Start a fetch: the three ways an expected checksum can be given. *)
Ltac start_fetch expectedChecksum :=
  unfold fetchPackageFromNixStore;
  destruct expectedChecksum as [expected |];
  [destruct (truthy expected) eqn:Hexpected; [rewrite ?store_path_truthy |] |].

(** X13. Whatever the collaborators do, one fetch reports a hit or a miss
    at most once and never both, invokes the loader at most once, runs
    [nix-store] at most once, opens at most one archive, and makes at most
    ten calls in all. *)
Theorem fetch_call_budget
    (locator : Locator) (expectedChecksum : option jsstring) (w : World) :
  let '(tr, res) := run handler (fetchPackageFromNixStore locator expectedChecksum) w in
  count is_onHit tr + count is_onMiss tr <= 1 /\
  count is_loader tr <= 1 /\
  count is_execvp tr <= 1 /\
  count is_new_ZipFS tr <= 1 /\
  count is_loader tr <= count is_onMiss tr /\
  length tr <= 10.
Proof.
  start_fetch expectedChecksum; drive; cbn; lia.
Qed.

(** X14. The checksum a fetch returns is never empty and names the archive
    it opened: the archive handed back was opened, read-only, at the store
    path computed from the derivation name and that checksum, and the
    release function closes that same archive.  Given back as the expected
    checksum, it predicts the path that was opened. *)
Theorem returned_checksum_names_archive
    (locator : Locator) (expectedChecksum : option jsstring) (w : World) :
  let derivationName := locatorDerivationName locator in
  let '(tr, res) := run handler (fetchPackageFromNixStore locator expectedChecksum) w in
  forall fs release checksum, res = inr (fs, release, checksum) ->
    truthy checksum = true /\
    release = discardAndClose fs /\
    (exists libzip,
       In (Called (new_ZipFS (storePathFor derivationName checksum) libzip true)
             (inr fs)) tr) /\
    forallb answered tr = true.
Proof.
  cbv zeta. start_fetch expectedChecksum; drive.
  all: intros fs release checksum Hres; try discriminate.
  all: injection Hres as <- <- <-.
  all: repeat apply conj; try reflexivity; try assumption.
  all: eexists; find_in.
Qed.

(** X15. A hit touches nothing: with the predicted path found, the fetch
    computes no checksum, removes and renames no file and runs no
    [nix-store]; its calls are the lookup, the report and the opening of
    the archive. *)
Theorem hit_touches_nothing (locator : Locator) (expected : jsstring) (w w1 : World) :
  truthy expected = true ->
  answers handler w
    (xfs_existsPromise (storePathFor (locatorDerivationName locator) expected))
    true w1 ->
  let '(tr, res) := run handler (fetchPackageFromNixStore locator (Some expected)) w in
  count is_checksumFile tr = 0 /\
  count is_unlink tr = 0 /\
  count is_rename tr = 0 /\
  count is_execvp tr = 0 /\
  count is_onMiss tr = 0 /\
  Forall
    (fun e =>
       In (call_name e)
         ["xfs.existsPromise"; "onHit"; "getLibzipPromise"; "new ZipFS"]%string)
    tr.
Proof.
  intros Hexp Hhit. unfold answers in Hhit.
  unfold fetchPackageFromNixStore. rewrite Hexp, store_path_truthy.
  cbn [run bind await]. rewrite Hhit. drive.
  all: repeat apply conj; try reflexivity.
  all: repeat (constructor; [cbn; auto 6 |]); constructor.
Qed.

Ltac reach_miss H expectedChecksum :=
  unfold takes_miss_branch, answers in *;
  unfold fetchPackageFromNixStore;
  destruct expectedChecksum as [expected |];
  [destruct (truthy expected) eqn:Hexpected;
   [rewrite ?store_path_truthy | subst] | subst].

(** X16. A failed import leaves the artifact behind: when [nix-store]
    rejects, or prints a path other than the computed one, the fetch stops
    there; it removes no file, the renamed artifact included, and opens no
    archive. *)
Theorem failed_import_leaves_artifact
    (locator : Locator) (expectedChecksum : option jsstring)
    (w w1 w2 w3 w4 w5 w6 : World) (resultPath : PortablePath) (fileSum : jsstring) :
  let derivationName := locatorDerivationName locator in
  let storePath := storePathFor derivationName (js "nix.1/" ++ fileSum) in
  let tempDir := ppath_dirname resultPath in
  let loadPath := ppath_join tempDir derivationName in
  let import :=
    execUtils_execvp (js "nix-store")
      [js "--add-fixed"; js "sha512"; js "./" ++ derivationName] tempDir true in
  takes_miss_branch handler locator expectedChecksum w w1 ->
  answers handler w1 onMiss tt w2 ->
  answers handler w2 loader resultPath w3 ->
  answers handler w3 (hashUtils_checksumFile resultPath) fileSum w4 ->
  answers handler w4 (xfs_existsPromise storePath) false w5 ->
  answers handler w5 (xfs_renamePromise resultPath loadPath) tt w6 ->
  (forall stdout w7, handler import w6 = (inr stdout, w7) -> trim stdout <> storePath) ->
  let '(tr, res) := run handler (fetchPackageFromNixStore locator expectedChecksum) w in
  count is_unlink tr = 0 /\
  count is_new_ZipFS tr = 0 /\
  count is_rename tr = 1 /\
  exists failure, res = inl failure.
Proof.
  cbv zeta. intros Hmiss H1 H2 H3 H4 H5 Hbad.
  change CACHE_KEY_NS with (js "nix.1/") in *.
  reach_miss Hmiss expectedChecksum.
  all: change CACHE_KEY_NS with (js "nix.1/").
  all: cbn [run bind await]; rewrite ?Hmiss; cbn [run bind await].
  all: rewrite H1; cbn [run bind await]; rewrite H2; cbn [run bind await].
  all: rewrite H3; cbn [run bind await]; rewrite H4; cbn [run bind await].
  all: rewrite H5; cbn [run bind await].
  all: ask.
  all: cbn [run bind await].
  all: try (specialize (Hbad _ _ eq_refl); apply str_eqb_false in Hbad;
            rewrite Hbad; cbn [run bind await negb]).
  all: repeat apply conj; try reflexivity; eexists; reflexivity.
Qed.

(** X17. White space around the path [nix-store] prints does not matter:
    whatever blanks and line ends surround the computed path in the output,
    the import is accepted, the renamed artifact is removed, and, the
    removal and the opening of the archive answering, the fetch returns the
    fresh checksum. *)
Theorem padded_report_accepted
    (locator : Locator) (expectedChecksum : option jsstring)
    (w w1 w2 w3 w4 w5 w6 w7 : World) (resultPath : PortablePath)
    (fileSum ws1 ws2 : jsstring) :
  let derivationName := locatorDerivationName locator in
  let storePath := storePathFor derivationName (js "nix.1/" ++ fileSum) in
  let tempDir := ppath_dirname resultPath in
  let loadPath := ppath_join tempDir derivationName in
  let import :=
    execUtils_execvp (js "nix-store")
      [js "--add-fixed"; js "sha512"; js "./" ++ derivationName] tempDir true in
  takes_miss_branch handler locator expectedChecksum w w1 ->
  answers handler w1 onMiss tt w2 ->
  answers handler w2 loader resultPath w3 ->
  answers handler w3 (hashUtils_checksumFile resultPath) fileSum w4 ->
  answers handler w4 (xfs_existsPromise storePath) false w5 ->
  answers handler w5 (xfs_renamePromise resultPath loadPath) tt w6 ->
  blank ws1 -> blank ws2 ->
  answers handler w6 import (ws1 ++ storePath ++ ws2) w7 ->
  let '(tr, res) := run handler (fetchPackageFromNixStore locator expectedChecksum) w in
  (forall m, res <> inl (ThrownError m)) /\
  (exists r, In (Called (xfs_unlinkPromise loadPath) r) tr) /\
  (forallb answered tr = true ->
   exists fs, res = inr (fs, discardAndClose fs, js "nix.1/" ++ fileSum)).
Proof.
  cbv zeta. intros Hmiss H1 H2 H3 H4 H5 B1 B2 H6.
  change CACHE_KEY_NS with (js "nix.1/") in *.
  reach_miss Hmiss expectedChecksum.
  all: change CACHE_KEY_NS with (js "nix.1/").
  all: cbn [run bind await]; rewrite ?Hmiss; cbn [run bind await].
  all: rewrite H1; cbn [run bind await]; rewrite H2; cbn [run bind await].
  all: rewrite H3; cbn [run bind await]; rewrite H4; cbn [run bind await].
  all: rewrite H5; cbn [run bind await]; rewrite H6; cbn [run bind await].
  all: unfold locatorDerivationName at 1 2;
       rewrite (store_path_trim _ _ _ B1 B2), str_eqb_refl;
       fold (locatorDerivationName locator).
  all: drive.
  all: split; [intros; discriminate |].
  all: split; [eexists; find_in |].
  all: cbn; intros; try discriminate; eexists; reflexivity.
Qed.

(** A fetch never returns an empty checksum. *)
Lemma returned_checksum_truthy
    (locator : Locator) (expectedChecksum : option jsstring) (w : World)
    (fs : ZipFS) (release : ReleaseFn) (checksum : jsstring) :
  snd (run handler (fetchPackageFromNixStore locator expectedChecksum) w)
    = inr (fs, release, checksum) ->
  truthy checksum = true.
Proof.
  start_fetch expectedChecksum; drive.
  all: cbn [snd]; intros Hres; try discriminate.
  all: injection Hres as <- <- <-; try reflexivity; assumption.
Qed.

(** X18. What a fetch returns is good for the next one: given back as the
    expected checksum, with the archive the first fetch opened still in
    place, the checksum leads to a hit; the loader is not invoked, nothing
    is imported, and the same checksum comes back. *)
Theorem refetch_hits
    (locator : Locator) (expectedChecksum : option jsstring) (w w' w'' : World)
    (fs : ZipFS) (release : ReleaseFn) (checksum : jsstring) :
  snd (run handler (fetchPackageFromNixStore locator expectedChecksum) w)
    = inr (fs, release, checksum) ->
  answers handler w'
    (xfs_existsPromise (storePathFor (locatorDerivationName locator) checksum))
    true w'' ->
  let '(tr, res) := run handler (fetchPackageFromNixStore locator (Some checksum)) w' in
  count is_loader tr = 0 /\
  count is_execvp tr = 0 /\
  count is_onHit tr = 1 /\
  (forall m, res <> inl (ThrownError m)) /\
  (forallb answered tr = true ->
   exists fs', res = inr (fs', discardAndClose fs', checksum)).
Proof.
  intros Hfirst Hthere. apply returned_checksum_truthy in Hfirst.
  unfold answers in Hthere.
  unfold fetchPackageFromNixStore. rewrite Hfirst, store_path_truthy.
  cbn [run bind await]. rewrite Hthere. drive.
  all: repeat apply conj; try reflexivity.
  all: try (intros; discriminate).
  all: cbn; intros; try discriminate; eexists; reflexivity.
Qed.

(** X19. What [nix-store] is asked to import is a file the fetch has just
    moved into place: in every run, the path [./name] of the command line,
    seen from the directory the command runs in, is the target of a rename
    that was answered before. *)
Theorem import_names_renamed_file
    (locator : Locator) (expectedChecksum : option jsstring) (w : World) :
  let '(tr, res) := run handler (fetchPackageFromNixStore locator expectedChecksum) w in
  forall p, In (Some p) (map import_target tr) -> In (Some p) (map renamed_to tr).
Proof.
  assert (Hname : locatorDerivationName locator <> []).
  { unfold locatorDerivationName. apply sanitize_shape. }
  start_fetch expectedChecksum; drive.
  all: cbn [map import_target renamed_to nth In]; intros p Hp.
  all: repeat (destruct Hp as [Hp | Hp]; [try discriminate |]); try contradiction.
  all: injection Hp as <-.
  all: change (46%N :: 47%N :: locatorDerivationName locator)
         with (js "./" ++ locatorDerivationName locator).
  all: rewrite ppath_join_dot_slash by (apply ppath_dirname_nonempty || exact Hname).
  all: find_in.
Qed.

End MoreFetchProperties.

Lemma hit_touches_nothing_witness :
  let '(tr, res) :=
    run Sim.handler
      (fetchPackageFromNixStore Sim.left_pad (Some Sim.SHA512_OF_EMPTY)) Sim.stocked in
  count is_unlink tr = 0 /\ count is_execvp tr = 0.
Proof.
  pose proof (@hit_touches_nothing _ _ _ Sim.handler Sim.left_pad Sim.SHA512_OF_EMPTY
                Sim.stocked Sim.stocked eq_refl ltac:(sim_answer)) as H.
  destruct (run Sim.handler _ Sim.stocked) as [tr res].
  destruct H as (_ & H1 & _ & H2 & _). now split.
Defined.

Lemma returned_checksum_names_archive_witness :
  let '(tr, res) :=
    run Sim.handler (fetchPackageFromNixStore Sim.left_pad None) Sim.fresh in
  (exists fs, res = inr (fs, discardAndClose fs, js "nix.1/" ++ Sim.SHA512_OF_EMPTY)) /\
  forallb answered tr = true.
Proof.
  pose proof (@returned_checksum_names_archive _ _ _ Sim.handler Sim.left_pad None
                Sim.fresh) as H.
  cbv zeta in H.
  destruct (run Sim.handler _ Sim.fresh) as [tr res] eqn:E.
  assert (R : exists fs,
            res = inr (fs, discardAndClose fs, js "nix.1/" ++ Sim.SHA512_OF_EMPTY)).
  { apply (f_equal snd) in E. cbn [snd] in E. rewrite <- E. vm_compute.
    eexists. reflexivity. }
  split; [exact R |].
  destruct R as [fs R].
  destruct (H _ _ _ R) as (_ & _ & _ & Ha). exact Ha.
Defined.

Lemma failed_import_leaves_artifact_witness :
  let '(tr, res) :=
    run Sim.handler (fetchPackageFromNixStore Sim.left_pad None) Sim.drifting in
  count is_unlink tr = 0 /\ count is_new_ZipFS tr = 0.
Proof.
  pose proof (@failed_import_leaves_artifact _ _ _ Sim.handler Sim.left_pad None
                Sim.drifting Sim.drifting
                (SimRuns.reported Sim.drifting) (SimRuns.loaded Sim.drifting)
                (SimRuns.summed Sim.drifting) (SimRuns.probed Sim.drifting)
                (SimRuns.renamed Sim.drifting) Sim.DOWNLOAD Sim.SHA512_OF_EMPTY) as H.
  cbv zeta in H.
  specialize (H eq_refl ltac:(sim_answer) ltac:(sim_answer) ltac:(sim_answer)
                ltac:(sim_answer) ltac:(sim_answer)).
  match type of H with ?P -> _ => assert (Hbad : P) end.
  { intros stdout w7 E. vm_compute in E. injection E as <- _.
    vm_compute. discriminate. }
  specialize (H Hbad).
  destruct (run Sim.handler _ Sim.drifting) as [tr res].
  destruct H as (H1 & H2 & _). now split.
Defined.

Lemma padded_report_accepted_witness :
  let '(tr, res) :=
    run Sim.handler (fetchPackageFromNixStore Sim.left_pad None) Sim.fresh in
  exists fs, res = inr (fs, discardAndClose fs, js "nix.1/" ++ Sim.SHA512_OF_EMPTY).
Proof.
  pose proof (@padded_report_accepted _ _ _ Sim.handler Sim.left_pad None
                Sim.fresh Sim.fresh
                (SimRuns.reported Sim.fresh) (SimRuns.loaded Sim.fresh)
                (SimRuns.summed Sim.fresh) (SimRuns.probed Sim.fresh)
                (SimRuns.renamed Sim.fresh) (SimRuns.imported Sim.fresh)
                Sim.DOWNLOAD Sim.SHA512_OF_EMPTY [] [10%N]) as H.
  cbv zeta in H.
  specialize (H eq_refl ltac:(sim_answer) ltac:(sim_answer) ltac:(sim_answer)
                ltac:(sim_answer) ltac:(sim_answer)).
  assert (B1 : blank []) by constructor.
  assert (B2 : blank [10%N]) by (repeat constructor).
  specialize (H B1 B2 ltac:(sim_answer)).
  destruct (run Sim.handler _ Sim.fresh) as [tr res] eqn:E.
  destruct H as (_ & _ & Hret).
  apply Hret. apply (f_equal fst) in E. cbn [fst] in E. rewrite <- E.
  vm_compute. reflexivity.
Defined.

Lemma hashToSri_of_prefixed_checksum_witness :
  hashToSri (js "nix.1/cf83e1357eefb8bd") (js "sha512") = js "sha512-".
Proof.
  destruct (hashToSri_of_prefixed_checksum [] (js "sha512")) as [_ H].
  apply (H 110%N 105%N); [reflexivity | reflexivity |]. left. reflexivity.
Defined.

Lemma refetch_hits_witness :
  let '(tr, res) :=
    run Sim.handler
      (fetchPackageFromNixStore Sim.left_pad (Some (js "nix.1/" ++ Sim.SHA512_OF_EMPTY)))
      (SimRuns.imported Sim.fresh) in
  count is_loader tr = 0 /\ count is_onHit tr = 1.
Proof.
  pose proof (@refetch_hits _ Sim.runtime _ Sim.handler Sim.left_pad None Sim.fresh
                (SimRuns.imported Sim.fresh) (SimRuns.imported Sim.fresh)
                SimRuns.storePath (@discardAndClose Sim.runtime SimRuns.storePath)
                (js "nix.1/" ++ Sim.SHA512_OF_EMPTY)) as H.
  specialize (H ltac:(vm_compute; reflexivity) ltac:(sim_answer)).
  destruct (run Sim.handler _ (SimRuns.imported Sim.fresh)) as [tr res].
  destruct H as (H1 & _ & H2 & _). now split.
Defined.

(* --------------------------------------------------------------------- *)
(** ** The loader's second URL *)
(* --------------------------------------------------------------------- *)

Lemma startsWith_2f (s : jsstring) :
  startsWith s (js "%2f") =
  match s with
  | a :: b :: c :: _ => N.eqb a PERCENT && N.eqb b DIGIT_2 && N.eqb c LOWER_F
  | _ => false
  end.
Proof.
  destruct s as [| a [| b [| c [| d s]]]]; cbn;
    rewrite ?andb_false_r, ?andb_true_r, ?andb_assoc; reflexivity.
Qed.

(** What [replace_2f] does at the head of a text. *)
Lemma replace_2f_step (a : char16) (rest : jsstring) :
  replace_2f (a :: rest) =
  if startsWith (a :: rest) (js "%2f")
  then SLASH :: replace_2f (skipn 2 rest)
  else a :: replace_2f rest.
Proof.
  rewrite startsWith_2f.
  destruct rest as [| b [| c rest']]; try reflexivity.
Qed.

Lemma replace_2f_head (a : char16) (rest : jsstring) :
  exists t, replace_2f (a :: rest) = a :: t \/ replace_2f (a :: rest) = SLASH :: t.
Proof.
  rewrite replace_2f_step. destruct (startsWith _ _); eexists; eauto.
Qed.

Lemma replace_2f_clean_upto (n : nat) (s : jsstring) :
  length s <= n -> includes (replace_2f s) (js "%2f") = false.
Proof.
  revert s. induction n as [| n IH]; intros s Hn.
  - destruct s; [reflexivity | cbn in Hn; lia].
  - destruct s as [| a rest]; [reflexivity |].
    cbn [length] in Hn.
    rewrite replace_2f_step.
    destruct (startsWith (a :: rest) (js "%2f")) eqn:Hm.
    + cbn [includes]. rewrite startsWith_2f.
      rewrite IH by (rewrite length_skipn; lia).
      destruct (replace_2f (skipn 2 rest)) as [| b [| c t]]; reflexivity.
    + cbn [includes]. rewrite (IH rest) by lia. rewrite orb_false_r.
      rewrite startsWith_2f in *.
      destruct rest as [| b rest1]; [reflexivity |].
      rewrite replace_2f_step. rewrite startsWith_2f.
      destruct rest1 as [| c rest2].
      * reflexivity.
      * destruct rest2 as [| d rest3].
        -- cbn. exact Hm.
        -- destruct (N.eqb b PERCENT && N.eqb c DIGIT_2 && N.eqb d LOWER_F) eqn:Hb.
           ++ destruct (replace_2f (skipn 2 (c :: d :: rest3))) as [| x t];
                [reflexivity |].
              apply andb_true_iff in Hb. destruct Hb as [Hb _].
              apply andb_true_iff in Hb. destruct Hb as [Hb _].
              apply N.eqb_eq in Hb. subst b. cbn. now rewrite andb_false_r.
           ++ destruct (replace_2f_head c (d :: rest3)) as [t [-> | ->]].
              ** exact Hm.
              ** cbn. now rewrite andb_false_r.
Qed.

Lemma replace_2f_fixed (s : jsstring) :
  includes s (js "%2f") = false -> replace_2f s = s.
Proof.
  induction s as [| a rest IH]; [reflexivity |].
  cbn [includes]. intros H. apply orb_false_iff in H. destruct H as [H1 H2].
  rewrite replace_2f_step, H1. now rewrite IH.
Qed.

Lemma replace_2f_length (s : jsstring) (n : nat) :
  length s <= n -> length (replace_2f s) <= length s.
Proof.
  revert s. induction n as [| n IH]; intros s Hn.
  - destruct s; [cbn; lia | cbn in Hn; lia].
  - destruct s as [| a rest]; [cbn; lia |]. cbn [length] in Hn.
    rewrite replace_2f_step. destruct (startsWith _ _).
    + cbn [length]. specialize (IH (skipn 2 rest)).
      rewrite length_skipn in IH. lia.
    + cbn [length]. specialize (IH rest). lia.
Qed.

(** X20. The URL of the second attempt holds no [%2f] any more, however
    the escapes overlapped in the first; replacing again changes nothing;
    and a URL is left as it is exactly when it held none.  The second URL
    is never longer than the first. *)
Theorem replace_2f_clean (url : jsstring) :
  includes (replace_2f url) (js "%2f") = false /\
  replace_2f (replace_2f url) = replace_2f url /\
  (replace_2f url = url <-> includes url (js "%2f") = false) /\
  length (replace_2f url) <= length url.
Proof.
  pose proof (@replace_2f_clean_upto (length url) url (le_n _)) as H.
  split; [exact H |].
  split; [now apply replace_2f_fixed |].
  split; [| now apply (@replace_2f_length url (length url))].
  split; [intros E; now rewrite <- E | apply replace_2f_fixed].
Qed.

(** X21. Up to its first [%], a URL is kept; a [%2f] there becomes one
    slash and the replacement goes on behind it, so the URL of a scoped
    package, [/@scope%2fname/...], becomes [/@scope/name/...]; other
    escapes, [%2F] in upper case among them, stay. *)
Theorem replace_2f_scoped (before after : jsstring) :
  ~ In PERCENT before ->
  replace_2f (before ++ js "%2f" ++ after) = before ++ SLASH :: replace_2f after /\
  (forall c d, (c, d) <> (DIGIT_2, LOWER_F) ->
     exists rest,
       replace_2f (before ++ PERCENT :: c :: d :: after) = before ++ PERCENT :: rest).
Proof.
  intros Hb. induction before as [| a before IH].
  - split; [reflexivity |].
    intros c d Hcd. cbn [app]. rewrite replace_2f_step, startsWith_2f.
    destruct (N.eqb c DIGIT_2) eqn:Ec; destruct (N.eqb d LOWER_F) eqn:Ed;
      rewrite ?andb_false_r; cbn [andb]; try (eexists; reflexivity).
    apply N.eqb_eq in Ec, Ed. subst. now contradiction Hcd.
  - assert (Ha : N.eqb a PERCENT = false).
    { apply N.eqb_neq. intros ->. apply Hb. now left. }
    destruct IH as [IH1 IH2]; [intros Hin; apply Hb; now right |].
    split.
    + cbn [app]. rewrite replace_2f_step, startsWith_2f.
      replace (match before ++ js "%2f" ++ after with
               | b :: c :: _ => N.eqb a PERCENT && N.eqb b DIGIT_2 && N.eqb c LOWER_F
               | _ => false
               end) with false.
      * now rewrite IH1.
      * rewrite Ha. now destruct (before ++ js "%2f" ++ after) as [| ? [| ? ?]].
    + intros c d Hcd. destruct (IH2 c d Hcd) as [rest E].
      exists rest. cbn [app]. rewrite replace_2f_step, startsWith_2f.
      replace (match before ++ PERCENT :: c :: d :: after with
               | b :: c :: _ => N.eqb a PERCENT && N.eqb b DIGIT_2 && N.eqb c LOWER_F
               | _ => false
               end) with false.
      * now rewrite E.
      * rewrite Ha. now destruct (before ++ PERCENT :: c :: d :: after) as [| ? [| ? ?]].
Qed.

Lemma replace_2f_scoped_witness :
  replace_2f (js "/@babel%2fcore/-/core-7.0.0.tgz") = js "/@babel/core/-/core-7.0.0.tgz".
Proof.
  destruct (@replace_2f_scoped (js "/@babel") (js "core/-/core-7.0.0.tgz")) as [H _].
  - vm_compute. intros H. repeat (destruct H as [H | H]; [discriminate |]). exact H.
  - exact H.
Defined.

(* --------------------------------------------------------------------- *)
(** ** The loader: download and conversion *)
(* --------------------------------------------------------------------- *)

Section LoaderProperties.
Context `{Ext : Externals} `{Rt : Runtime} `{Npm : !NpmPlugin}.
Variable World : Type.
Variable handler : forall X : Type, Loader.Call X -> World -> (Exn + X) * World.

Ltac ask_loader :=
  match goal with
  | H : @handler ?X ?c ?w = _ |- context [@handler ?X ?c ?w] => rewrite H
  | |- context [@handler ?X ?c ?w] =>
      let e := fresh "e" in
      let x := fresh "x" in
      let w' := fresh "w" in
      let E := fresh "E" in
      destruct (@handler X c w) as [[e | x] w'] eqn:E
  end.

Ltac drive_loader :=
  repeat first
    [ progress cbn [Loader.run Loader.bind Loader.await Loader.try_catch fst snd]
    | ask_loader;
      repeat match goal with x : unit |- _ => destruct x end ].

Local Arguments Loader.tgzPathIn : simpl never.
Local Arguments Loader.zipPathIn : simpl never.
Local Arguments replace_2f : simpl never.
Local Arguments Loader.convertTgzToZip : simpl never.
Local Arguments js : simpl never.

(** X22. A conversion that returns has made exactly five calls, all
    answered: a fresh directory, the tarball written there as
    [archive.tgz] and given the fixed time stamps, [bsdtar] run from the
    root with [TZ=UTC] to write [archive.zip] beside it, and the tarball
    removed; what it returns is the path of that archive.  A conversion
    that fails has removed nothing, and fails with the exception of the
    last call it made. *)
Theorem convertTgzToZip_outcome (bsdtarExe : jsstring) (tgz : Buffer) (w : World) :
  let '(tr, res) := Loader.run handler (Loader.convertTgzToZip bsdtarExe tgz) w in
  (forall zipPath, res = inr zipPath ->
     exists tempDir stdout,
       zipPath = Loader.zipPathIn tempDir /\
       tr = [Loader.Called Loader.xfs_mktempPromise (inr tempDir);
             Loader.Called
               (Loader.xfs_writeFilePromise (Loader.tgzPathIn tempDir) tgz) (inr tt);
             Loader.Called
               (Loader.xfs_utimesPromise (Loader.tgzPathIn tempDir) SAFE_TIME SAFE_TIME)
               (inr tt);
             Loader.Called
               (Loader.execUtils_execvp bsdtarExe
                  [js "-cf"; Loader.zipPathIn tempDir; js "--format=zip";
                   js "@" ++ Loader.tgzPathIn tempDir]
                  [SLASH] true [(js "TZ", js "UTC")])
               (inr stdout);
             Loader.Called (Loader.xfs_unlinkPromise (Loader.tgzPathIn tempDir))
               (inr tt)]) /\
  (forall e, res = inl e ->
     existsb (fun entry => Loader.is_unlink entry && Loader.answered entry) tr = false /\
     exists X (c : Loader.Call X), last tr (Loader.Called c (inl e)) = Loader.Called c (inl e)
       /\ tr <> []).
Proof.
  unfold Loader.convertTgzToZip. drive_loader.
  all: split; [intros zipPath Hres; try discriminate | intros e' Hres; try discriminate].
  all: try (injection Hres as <-).
  all: try (split; [reflexivity |]; do 2 eexists; split; [reflexivity | discriminate]).
  do 2 eexists. split; reflexivity.
Qed.

(** The conversion makes no request of its own. *)
Lemma convertTgzToZip_no_request (bsdtarExe : jsstring) (tgz : Buffer) (w : World) :
  Loader.count Loader.is_get
    (fst (Loader.run handler (Loader.convertTgzToZip bsdtarExe tgz) w)) = 0.
Proof. unfold Loader.convertTgzToZip. drive_loader; reflexivity. Qed.

(** X23. The download is tried at most twice and only the download: when
    the first request answers there is no second one, whatever happens to
    the conversion afterwards; when it is rejected, its exception is
    dropped and the one retry goes to the URL with every [%2f] replaced;
    when that is rejected too, the loader fails with the second exception
    and has made no other call. *)
Theorem fetchFromNetworkAlt_retries_once
    (bsdtarExe : jsstring) (locator : Locator) (w : World) :
  let first := Loader.npmHttpUtils_get (getLocatorUrl locator) locator in
  let second := Loader.npmHttpUtils_get (replace_2f (getLocatorUrl locator)) locator in
  let '(tr, res) := Loader.run handler (Loader.fetchFromNetworkAlt bsdtarExe locator) w in
  (forall tgz w1, handler first w = (inr tgz, w1) ->
     Loader.count Loader.is_get tr = 1 /\
     (tr, res) =
       (let '(tr', res') :=
          Loader.run handler (Loader.convertTgzToZip bsdtarExe tgz) w1 in
        (Loader.Called first (inr tgz) :: tr', res'))) /\
  (forall e1 w1, handler first w = (inl e1, w1) ->
     Loader.count Loader.is_get tr = 2 /\
     (forall e2 w2, handler second w1 = (inl e2, w2) ->
        tr = [Loader.Called first (inl e1); Loader.Called second (inl e2)] /\
        res = inl e2) /\
     (forall tgz w2, handler second w1 = (inr tgz, w2) ->
        (tr, res) =
          (let '(tr', res') :=
             Loader.run handler (Loader.convertTgzToZip bsdtarExe tgz) w2 in
           (Loader.Called first (inl e1) :: Loader.Called second (inr tgz) :: tr',
            res')))).
Proof.
  cbv zeta. unfold Loader.fetchFromNetworkAlt.
  drive_loader.
  all: repeat match goal with
       | |- context [Loader.run handler (Loader.convertTgzToZip ?exe ?tgz) ?w] =>
           destruct (Loader.run handler (Loader.convertTgzToZip exe tgz) w)
             as [tr' res'] eqn:Hrun;
           pose proof (convertTgzToZip_no_request exe tgz w) as Hnone;
           rewrite Hrun in Hnone; cbn [fst] in Hnone
       end.
  all: unfold Loader.count in *; cbn [filter Loader.is_get length];
       rewrite ?Hnone.
  all: split; [intros tgz' w1' Hfirst; try discriminate
              | intros e1' w1' Hfirst; try discriminate].
  all: injection Hfirst as <- <-.
  all: try (split; [reflexivity | now rewrite ?Hrun]).
  all: split; [reflexivity |].
  all: split; [intros e2' w2' Hsecond | intros tgz' w2' Hsecond].
  all: match goal with
       | H1 : @handler ?X ?c ?w = _, H2 : @handler ?X ?c ?w = _ |- _ =>
           rewrite H1 in H2
       end.
  all: try discriminate.
  all: injection Hsecond as <- <-.
  all: try (split; reflexivity).
  all: now rewrite ?Hrun.
Qed.

End LoaderProperties.


Lemma convertTgzToZip_outcome_witness :
  let '(tr, res) :=
    Loader.run LoaderSim.handler
      (@Loader.convertTgzToZip _ Sim.runtime LoaderSim.npm
         LoaderSim.BSDTAR LoaderSim.TARBALL)
      LoaderSim.empty_registry in
  res = inr (js "/tmp/xfs-3fa1c2d4/archive.zip") /\ length tr = 5.
Proof.
  pose proof (@convertTgzToZip_outcome _ Sim.runtime LoaderSim.npm _ LoaderSim.handler
                LoaderSim.BSDTAR LoaderSim.TARBALL LoaderSim.empty_registry) as H.
  destruct (Loader.run LoaderSim.handler _ LoaderSim.empty_registry) as [tr res] eqn:E.
  assert (R : res = inr (js "/tmp/xfs-3fa1c2d4/archive.zip")).
  { apply (f_equal snd) in E. cbn [snd] in E. rewrite <- E. vm_compute. reflexivity. }
  split; [exact R |].
  destruct H as [H _]. destruct (H _ R) as (tempDir & stdout & _ & ->). reflexivity.
Defined.

Lemma fetchFromNetworkAlt_retries_once_witness :
  let '(tr, res) :=
    Loader.run LoaderSim.handler
      (@Loader.fetchFromNetworkAlt _ Sim.runtime LoaderSim.npm
         LoaderSim.BSDTAR LoaderSim.babel_core)
      LoaderSim.plain_registry in
  Loader.count Loader.is_get tr = 2 /\
  nth_error tr 1 =
    Some (Loader.Called
            (Loader.npmHttpUtils_get (js "/@babel/core/-/core-7.0.0.tgz")
               LoaderSim.babel_core)
            (inr LoaderSim.TARBALL)).
Proof.
  pose proof (@fetchFromNetworkAlt_retries_once _ Sim.runtime LoaderSim.npm _ LoaderSim.handler
                LoaderSim.BSDTAR LoaderSim.babel_core LoaderSim.plain_registry) as H.
  cbv zeta in H.
  destruct (Loader.run LoaderSim.handler _ LoaderSim.plain_registry) as [tr res].
  destruct H as [_ H].
  destruct (H LoaderSim.NOT_FOUND LoaderSim.plain_registry eq_refl) as (H2 & _ & H3).
  split; [exact H2 |].
  specialize (H3 LoaderSim.TARBALL LoaderSim.plain_registry eq_refl).
  apply (f_equal fst) in H3. cbn [fst] in H3. rewrite H3. reflexivity.
Defined.

Lemma archive_names_plain :
  plain_segment (js "archive.zip") /\ plain_segment (js "archive.tgz").
Proof.
  split; repeat split; try discriminate; apply no_slash_check; reflexivity.
Qed.

(** X24. The archive a conversion returns lies directly in the directory
    [mktemp] gave, beside the tarball: for a directory in normal form the
    two paths are [dir/archive.zip] and [dir/archive.tgz], the directory of
    the archive is [dir] again, and the path the fetch then renames the
    archive to, for whatever derivation name, is [dir/name], in that same
    directory. *)
Theorem archive_in_temporary_directory (tempDir : PortablePath) (raw : jsstring) :
  normal_absolute tempDir ->
  let zipPath := Loader.zipPathIn tempDir in
  let name := sanitizeDerivationName raw in
  zipPath = tempDir ++ js "/archive.zip" /\
  Loader.tgzPathIn tempDir = tempDir ++ js "/archive.tgz" /\
  ppath_dirname zipPath = tempDir /\
  ppath_join (ppath_dirname zipPath) name = tempDir ++ SLASH :: name /\
  ppath_dirname (ppath_join (ppath_dirname zipPath) name) = tempDir.
Proof.
  intros Hdir. cbv zeta. unfold Loader.zipPathIn, Loader.tgzPathIn.
  destruct archive_names_plain as [Hzip Htgz].
  destruct (ppath_join_normal Hdir Hzip) as [E1 D1].
  destruct (ppath_join_normal Hdir Htgz) as [E2 _].
  destruct (ppath_join_normal Hdir (sanitized_plain raw)) as [E3 D3].
  rewrite D1, E3. rewrite E3 in D3.
  split; [exact E1 |]. split; [exact E2 |]. split; [reflexivity |].
  split; [reflexivity | exact D3].
Qed.

Lemma archive_in_temporary_directory_witness :
  Loader.zipPathIn LoaderSim.TEMP_DIR = js "/tmp/xfs-3fa1c2d4/archive.zip" /\
  ppath_join (ppath_dirname (Loader.zipPathIn LoaderSim.TEMP_DIR))
    (sanitizeDerivationName (js "left-pad@npm:1.3.0.zip"))
  = js "/tmp/xfs-3fa1c2d4/left-pad-npm-1.3.0.zip".
Proof.
  assert (Hdir : normal_absolute LoaderSim.TEMP_DIR).
  { exists (js "tmp"), [js "xfs-3fa1c2d4"]. split; [| reflexivity].
    repeat constructor; try discriminate; apply no_slash_check; reflexivity. }
  destruct (@archive_in_temporary_directory LoaderSim.TEMP_DIR
              (js "left-pad@npm:1.3.0.zip") Hdir) as (H1 & _ & _ & H2 & _).
  split; [exact H1 | exact H2].
Defined.

(* --------------------------------------------------------------------- *)
(** ** generateNixExpr.ts: what is written for a package *)
(* --------------------------------------------------------------------- *)

Lemma toString_hex_no_slash (buf : Buffer) : no_slash (toString_hex buf).
Proof.
  unfold toString_hex. induction buf as [| b buf IH]; [constructor |].
  cbn [flat_map app].
  assert (H : forall n, hex_digit n <> SLASH).
  { intros n. unfold hex_digit, SLASH. destruct (N.ltb n 10); lia. }
  repeat (constructor; [apply H |]). exact IH.
Qed.

(** The second part of a text with a slash after a part that has none. *)
Lemma second_part_after_key (key h rest : jsstring) :
  no_slash key -> no_slash h ->
  second_part (key ++ SLASH :: h) = Some h /\
  second_part (key ++ SLASH :: h ++ SLASH :: rest) = Some h.
Proof.
  intros Hk Hh. unfold second_part.
  rewrite !split_slash_app, !(split_slash_no_slash Hk), !(split_slash_no_slash Hh).
  split; reflexivity.
Qed.

Lemma name_char_safe (c : char16) : is_name_char c = true -> nix_string_safe c.
Proof.
  unfold is_name_char, nix_string_safe, QUOTE, BACKSLASH, DOLLAR. intros H.
  bools; lia.
Qed.

Lemma base64_text_safe (c : char16) :
  In c BASE64_ALPHABET \/ c = PAD -> nix_string_safe c.
Proof.
  intros [H | ->]; [| repeat split; discriminate].
  cbn in H.
  repeat (destruct H as [<- | H]; [repeat split; discriminate |]).
  contradiction.
Qed.

Section GenerateNixExprProperties.
Context `{Ext : Externals} `{Npm : !NpmPlugin} `{Proj : !Project}.

(** X25. The hash written for a package is the SRI form of the digest its
    stored checksum carries: with a checksum [key/hex], whatever the cache
    key before the slash, the entry is the template filled with the
    derivation name of the package, its quoted URL, and [sha512-] followed
    by the base64 of the digest. *)
Theorem stored_checksum_becomes_sri (pkg : Locator) (key : jsstring) (digest : Buffer) :
  no_slash key ->
  storedChecksums_get pkg = Some (key ++ js "/" ++ toString_hex digest) ->
  fetchNpm_entry pkg =
  inr (fetchNpm_text (locatorDerivationName pkg)
         (JSON_stringify (archiveUrl_of pkg))
         (js "sha512-" ++ toString_base64 digest)).
Proof.
  intros Hkey Hstored. unfold fetchNpm_entry. rewrite Hstored.
  destruct (@second_part_after_key key (toString_hex digest) [] Hkey
              (toString_hex_no_slash digest)) as [E _].
  change (js "/" ++ toString_hex digest) with (SLASH :: toString_hex digest).
  rewrite E. unfold hashToSri. rewrite hex_decode_encode. reflexivity.
Qed.



(** X26. Nothing interpolated between double quotes can leave them: a
    sanitised name, so the name of every fetch derivation and the [pname]
    and [version] of the package, and the SRI hash computed from whatever
    checksum, hold no double quote, no backslash and no dollar sign. *)
Theorem interpolated_values_stay_quoted :
  (forall raw, Forall nix_string_safe (sanitizeDerivationName raw)) /\
  (forall pkg : Locator, Forall nix_string_safe (locatorDerivationName pkg)) /\
  (forall checksum, Forall nix_string_safe (hashToSri checksum (js "sha512"))).
Proof.
  assert (S : forall raw, Forall nix_string_safe (sanitizeDerivationName raw)).
  { intros raw. destruct (sanitize_shape raw) as (_ & _ & H & _).
    eapply Forall_impl; [| exact H]. apply name_char_safe. }
  split; [exact S |]. split; [intros pkg; apply S |].
  intros checksum. unfold hashToSri.
  apply Forall_app. split; [| apply Forall_app; split].
  - repeat constructor; discriminate.
  - repeat constructor; discriminate.
  - eapply Forall_impl; [| apply toString_base64_chars]. apply base64_text_safe.
Qed.

Lemma packageDerivations_step (acc : jsstring) (pkg : Locator) (rest : list Locator) :
  passes pkg ->
  exists text,
    (if is_npm pkg then fetchNpm_entry pkg = inr text else text = []) /\
    packageDerivations_from acc (pkg :: rest) = packageDerivations_from (acc ++ text) rest.
Proof.
  unfold passes, is_ignored, is_npm. cbn [packageDerivations_from].
  destruct (startsWith (reference_of pkg) (js "npm:")).
  - intros [text E]. exists text. now rewrite E.
  - cbn [negb andb]. intros H. exists []. rewrite app_nil_r. split; [reflexivity |].
    destruct (startsWith (reference_of pkg) (js "virtual:")); [reflexivity |].
    cbn [orb] in H. now rewrite H.
Qed.

Lemma packageDerivations_from_passing (acc : jsstring) (pkgs : list Locator) :
  Forall passes pkgs ->
  exists texts,
    Forall2 (fun pkg text => fetchNpm_entry pkg = inr text) (filter is_npm pkgs) texts /\
    forall rest,
      packageDerivations_from acc (pkgs ++ rest)
      = packageDerivations_from (acc ++ concat texts) rest.
Proof.
  intros H. revert acc. induction H as [| pkg pkgs Hp Hps IH]; intros acc.
  - exists []. split; [constructor |]. intros rest. cbn. now rewrite app_nil_r.
  - destruct (IH acc) as (texts0 & _ & _).
    cbn [filter]. destruct (is_npm pkg) eqn:Hn.
    + destruct (@packageDerivations_step acc pkg [] Hp) as (text & Ht & _).
      rewrite Hn in Ht.
      destruct (IH (acc ++ text)) as (texts & F & E).
      exists (text :: texts). split; [constructor; assumption |].
      intros rest. cbn [app].
      destruct (@packageDerivations_step acc pkg (pkgs ++ rest) Hp) as (text' & Ht' & ->).
      rewrite Hn in Ht'. rewrite Ht in Ht'. injection Ht' as <-.
      rewrite E. cbn [concat]. now rewrite app_assoc.
    + destruct (IH acc) as (texts & F & E).
      exists texts. split; [exact F |].
      intros rest. cbn [app].
      destruct (@packageDerivations_step acc pkg (pkgs ++ rest) Hp) as (text' & Ht' & ->).
      rewrite Hn in Ht'. subst text'. rewrite app_nil_r. apply E.
Qed.

(** X27. When every stored package is an [npm:] one with a usable
    checksum, a virtual one or the top-level workspace, the text generated
    is the entries of the [npm:] packages, one after the other in the order
    of the packages; the others add nothing. *)
Theorem packageDerivations_collects (pkgs : list Locator) :
  Forall passes pkgs ->
  exists texts,
    Forall2 (fun pkg text => fetchNpm_entry pkg = inr text) (filter is_npm pkgs) texts /\
    packageDerivations pkgs = inr (concat texts).
Proof.
  intros H. destruct (packageDerivations_from_passing [] H) as (texts & F & E).
  exists texts. split; [exact F |].
  unfold packageDerivations. rewrite <- (app_nil_r pkgs), E. reflexivity.
Qed.

(** X28. Generation is refused exactly for a package of another kind: it
    fails with [Cannot generate fetch derivation for package: ...] when,
    and only when, after packages it gets past it meets one that is
    neither [npm:], nor virtual, nor the workspace [workspace:.]; the
    message names that first one, and nothing of the text gathered so far
    is given back. *)
Theorem packageDerivations_refuses (pkgs : list Locator) (message : jsstring) :
  packageDerivations pkgs = inl (CannotGenerate message) <->
  exists good bad rest,
    pkgs = good ++ bad :: rest /\
    Forall passes good /\
    is_npm bad = false /\ is_ignored bad = false /\
    message = js "Cannot generate fetch derivation for package: " ++ stringifyLocator bad.
Proof.
  unfold packageDerivations. generalize (@nil char16) as acc. split.
  - revert acc. induction pkgs as [| pkg pkgs IH]; intros acc H; [discriminate |].
    cbn [packageDerivations_from] in H.
    destruct (startsWith (reference_of pkg) (js "npm:")) eqn:Hn.
    + destruct (fetchNpm_entry pkg) as [e | text] eqn:He.
      * injection H as ->. unfold fetchNpm_entry in He.
        destruct (storedChecksums_get pkg) as [stored |]; [| discriminate].
        destruct (second_part stored); discriminate.
      * destruct (IH _ H) as (good & bad & rest & -> & Hg & Hb).
        exists (pkg :: good), bad, rest. split; [reflexivity |].
        split; [| exact Hb]. constructor; [| exact Hg].
        unfold passes, is_npm. rewrite Hn. now exists text.
    + destruct (startsWith (reference_of pkg) (js "virtual:")) eqn:Hv;
        [| destruct (str_eqb (reference_of pkg) (js "workspace:.")) eqn:Hw].
      * destruct (IH _ H) as (good & bad & rest & -> & Hg & Hb).
        exists (pkg :: good), bad, rest. split; [reflexivity |].
        split; [| exact Hb]. constructor; [| exact Hg].
        unfold passes, is_ignored, is_npm. now rewrite Hn, Hv.
      * destruct (IH _ H) as (good & bad & rest & -> & Hg & Hb).
        exists (pkg :: good), bad, rest. split; [reflexivity |].
        split; [| exact Hb]. constructor; [| exact Hg].
        unfold passes, is_ignored, is_npm. rewrite Hn, Hv, Hw. reflexivity.
      * injection H as <-. exists [], pkg, pkgs. split; [reflexivity |].
        split; [constructor |].
        unfold is_ignored, is_npm. rewrite Hn, Hv, Hw. repeat split.
  - intros (good & bad & rest & -> & Hg & Hn & Hi & ->).
    destruct (packageDerivations_from_passing acc Hg) as (texts & _ & E).
    rewrite E. cbn [packageDerivations_from].
    unfold is_ignored, is_npm in *. rewrite Hn in *. cbn [negb andb] in Hi.
    apply orb_false_iff in Hi. destruct Hi as [-> ->]. reflexivity.
Qed.

End GenerateNixExprProperties.

Lemma stored_checksum_becomes_sri_witness :
  @fetchNpm_entry node_externals LoaderSim.npm ProjectSim.project Sim.left_pad =
  inr (fetchNpm_text (js "left-pad-npm-1.3.0.zip")
         ([QUOTE] ++ js "https://registry.npmjs.org/left-pad/-/left-pad-1.3.0.tgz" ++ [QUOTE])
         (js "sha512-z4PhNX7vuL3xVChQ1m2AB9Yg5AULVxXcg/SpIdNs6c5H0NE8XYXysP+DGNKHfuwvY7kxvUdBeoGlODJ6+SfaPg==")).
Proof.
  rewrite (@stored_checksum_becomes_sri node_externals LoaderSim.npm ProjectSim.project
             Sim.left_pad (js "nix.1") (Buffer_from_hex Sim.SHA512_OF_EMPTY)).
  - vm_compute. reflexivity.
  - apply no_slash_check. reflexivity.
  - vm_compute. reflexivity.
Defined.

Lemma packageDerivations_collects_witness :
  exists text,
    @packageDerivations node_externals LoaderSim.npm ProjectSim.project
      [ProjectSim.workspace; Sim.left_pad] = inr text /\
    @fetchNpm_entry node_externals LoaderSim.npm ProjectSim.project Sim.left_pad
      = inr text.
Proof.
  assert (P : Forall (@passes node_externals LoaderSim.npm ProjectSim.project)
                [ProjectSim.workspace; Sim.left_pad]).
  { repeat constructor. vm_compute. eexists. reflexivity. }
  destruct (@packageDerivations_collects node_externals LoaderSim.npm
              ProjectSim.project _ P) as (texts & F & E).
  match type of F with
  | Forall2 _ ?l _ => change l with ([Sim.left_pad] : list (@Locator node_externals)) in F
  end.
  inversion F as [| pkg text pkgs' texts' Htext Hrest]; subst.
  inversion Hrest; subst.
  exists text. split; [| exact Htext].
  rewrite E. cbn [concat]. now rewrite app_nil_r.
Defined.

Lemma packageDerivations_refuses_witness :
  @packageDerivations node_externals LoaderSim.npm ProjectSim.project
    [Sim.left_pad; ProjectSim.patched; ProjectSim.workspace]
  = inl (CannotGenerate
           (js "Cannot generate fetch derivation for package: resolve@patch:resolve@1.20.0#builtin<compat/resolve>")).
Proof.
  apply (@packageDerivations_refuses node_externals LoaderSim.npm ProjectSim.project).
  exists [Sim.left_pad], ProjectSim.patched, [ProjectSim.workspace].
  split; [reflexivity |].
  split; [repeat constructor; vm_compute; eexists; reflexivity |].
  repeat split.
Defined.

(* --------------------------------------------------------------------- *)
(** ** generateSharedLoader.ts: the block that is replaced *)
(* --------------------------------------------------------------------- *)

Lemma scan_braces_skip (idx index : nat) (head rest : jsstring)
    (start end_ : nat) (depth : Z) :
  no_braces head ->
  scan_braces idx index (head ++ rest) start end_ depth
  = scan_braces idx (index + length head) rest start end_ depth.
Proof.
  intros H. revert index. induction H as [| c head Hc Hhead IH]; intros index.
  - cbn [app length]. now rewrite Nat.add_0_r.
  - cbn [app scan_braces length]. rewrite Hc, IH. f_equal. lia.
Qed.

Lemma brace_cases (c : char16) :
  (c = LBRACE /\ is_brace c = true) \/
  (c = RBRACE /\ N.eqb c LBRACE = false /\ is_brace c = true) \/
  (N.eqb c LBRACE = false /\ N.eqb c RBRACE = false /\ is_brace c = false).
Proof.
  unfold is_brace.
  destruct (N.eqb c LBRACE) eqn:E1; [left; apply N.eqb_eq in E1; now split |].
  destruct (N.eqb c RBRACE) eqn:E2; [right; left; apply N.eqb_eq in E2; now split |].
  right. right. now repeat split.
Qed.

(** Inside a block whose braces pair up, the scan goes on to the end of
    it at the depth it came in with. *)
Lemma scan_braces_balanced (idx : nat) (body rest : jsstring) (start end_ : nat) :
  forall (d index : nat),
    balanced_from d body = true ->
    scan_braces idx index (body ++ rest) start end_ (Z.of_nat (S d))
    = scan_braces idx (index + length body) rest start end_ 1%Z.
Proof.
  induction body as [| c body IH]; intros d index H.
  - cbn [balanced_from] in H. apply Nat.eqb_eq in H. subst d.
    cbn [app length]. now rewrite Nat.add_0_r.
  - cbn [app scan_braces length balanced_from] in *.
    replace (index + S (length body)) with (S index + length body) by lia.
    destruct (brace_cases c) as [[-> Hb] | [(-> & Hl & Hb) | (Hl & Hr & Hb)]].
    + rewrite Hb. change (N.eqb LBRACE LBRACE) with true in *. cbn [negb andb].
      rewrite andb_false_r.
      replace (Z.eqb (Z.of_nat (S d)) 0) with false by (symmetry; apply Z.eqb_neq; lia).
      replace (Z.of_nat (S d) + 1)%Z with (Z.of_nat (S (S d))) by lia.
      replace (Z.eqb (Z.of_nat (S (S d))) 0) with false
        by (symmetry; apply Z.eqb_neq; lia).
      now apply IH.
    + rewrite Hb, Hl in *. change (N.eqb RBRACE RBRACE) with true in H.
      destruct d as [| d]; [discriminate |].
      replace (Z.eqb (Z.of_nat (S (S d))) 0) with false
        by (symmetry; apply Z.eqb_neq; lia).
      cbn [andb].
      replace (Z.of_nat (S (S d)) - 1)%Z with (Z.of_nat (S d)) by lia.
      replace (Z.eqb (Z.of_nat (S d)) 0) with false by (symmetry; apply Z.eqb_neq; lia).
      now apply IH.
    + rewrite Hb. rewrite Hl, Hr in H. now apply IH.
Qed.

(** Inside a block that is never closed, the scan runs out. *)
Lemma scan_braces_unclosed (idx : nat) (body : jsstring) (start end_ : nat) :
  forall (d index : nat),
    never_closes d body = true ->
    scan_braces idx index body start end_ (Z.of_nat (S d)) = inr (start, end_).
Proof.
  induction body as [| c body IH]; intros d index H; [reflexivity |].
  cbn [scan_braces never_closes] in *.
  destruct (brace_cases c) as [[-> Hb] | [(-> & Hl & Hb) | (Hl & Hr & Hb)]].
  - rewrite Hb. change (N.eqb LBRACE LBRACE) with true in *. cbn [negb andb].
    rewrite andb_false_r.
    replace (Z.eqb (Z.of_nat (S d)) 0) with false by (symmetry; apply Z.eqb_neq; lia).
    replace (Z.of_nat (S d) + 1)%Z with (Z.of_nat (S (S d))) by lia.
    replace (Z.eqb (Z.of_nat (S (S d))) 0) with false
      by (symmetry; apply Z.eqb_neq; lia).
    now apply IH.
  - rewrite Hb, Hl in *. change (N.eqb RBRACE RBRACE) with true in H.
    destruct d as [| d]; [discriminate |].
    replace (Z.eqb (Z.of_nat (S (S d))) 0) with false
      by (symmetry; apply Z.eqb_neq; lia).
    cbn [andb].
    replace (Z.of_nat (S (S d)) - 1)%Z with (Z.of_nat (S d)) by lia.
    replace (Z.eqb (Z.of_nat (S d)) 0) with false by (symmetry; apply Z.eqb_neq; lia).
    now apply IH.
  - rewrite Hb. rewrite Hl, Hr in H. now apply IH.
Qed.

(** A file cut at [idx], when something is left after the cut. *)
Lemma cut_at (file : jsstring) (idx : nat) (after : jsstring) :
  slice_from idx file = after -> after <> [] ->
  file = slice_to idx file ++ after /\ length (slice_to idx file) = idx.
Proof.
  unfold slice_from, slice_to. intros E Hne. split.
  - now rewrite <- E, firstn_skipn.
  - rewrite length_firstn.
    destruct (Nat.le_gt_cases idx (length file)) as [Hle | Hgt]; [lia |].
    rewrite skipn_all2 in E by lia. congruence.
Qed.

Lemma slice_to_past (front after : jsstring) (n : nat) :
  n <= length after ->
  slice_to (length front + n) (front ++ after) = front ++ slice_to n after.
Proof.
  unfold slice_to. intros H. rewrite firstn_app.
  rewrite firstn_all2 by lia. f_equal. f_equal. lia.
Qed.

Lemma slice_from_past (front after : jsstring) (n : nat) :
  slice_from (length front + n) (front ++ after) = slice_from n after.
Proof.
  unfold slice_from. rewrite skipn_app.
  rewrite skipn_all2 by lia. cbn [app]. f_equal. lia.
Qed.

(** X29. The body of the first block after [$$SETUP_STATE] is what gets
    replaced: when the text from the marker on is some text without
    braces, an opening brace, a body whose braces pair up, the closing
    brace and a rest, the loader generated is the file with that body, and
    nothing else, exchanged for the setup code. *)
Theorem generateSharedLoader_replaces_body
    (loaderFile head body tail : jsstring) (idx : nat) :
  indexOf loaderFile SETUP_STATE_MARKER = Some idx ->
  slice_from idx loaderFile = head ++ LBRACE :: body ++ RBRACE :: tail ->
  no_braces head ->
  balanced_from 0 body = true ->
  loaderFile = slice_to idx loaderFile ++ head ++ LBRACE :: body ++ RBRACE :: tail /\
  generateSharedLoader loaderFile =
  inr (slice_to idx loaderFile ++ head ++ LBRACE :: SETUP_STATE ++ RBRACE :: tail).
Proof.
  intros Hidx Hcut Hhead Hbody.
  destruct (@cut_at loaderFile idx _ Hcut) as [Hfile Hlen]; [now destruct head |].
  split; [exact Hfile |].
  unfold generateSharedLoader. rewrite Hidx, Hcut.
  rewrite scan_braces_skip by exact Hhead.
  cbn [scan_braces]. change (is_brace LBRACE) with true.
  change (N.eqb LBRACE LBRACE) with true. cbn [negb andb Z.eqb Z.add].
  rewrite (@scan_braces_balanced idx body (RBRACE :: tail) _ 0 0) by exact Hbody.
  cbn [scan_braces]. change (is_brace RBRACE) with true.
  change (N.eqb RBRACE LBRACE) with false. cbn [negb andb Z.eqb Z.sub Z.add Z.opp Z.pos_sub].
  set (front := slice_to idx loaderFile) in *.
  rewrite Hfile.
  replace (idx + (0 + length head) + 1) with (length front + S (length head)) by lia.
  replace (idx + (S (0 + length head) + length body))
    with (length front + (length head + S (length body))) by lia.
  rewrite slice_to_past, slice_from_past.
  - f_equal. rewrite <- !app_assoc. f_equal.
    unfold slice_to, slice_from.
    replace (S (length head)) with (length (head ++ [LBRACE]))
      by (rewrite length_app; cbn; lia).
    replace (head ++ LBRACE :: body ++ RBRACE :: tail)
      with ((head ++ [LBRACE]) ++ body ++ RBRACE :: tail)
      by (now rewrite <- app_assoc).
    rewrite firstn_app, firstn_all, Nat.sub_diag. cbn [firstn]. rewrite app_nil_r.
    rewrite <- app_assoc. cbn [app]. f_equal. f_equal. f_equal.
    replace (length head + S (length body))
      with (length ((head ++ [LBRACE]) ++ body))
      by (rewrite !length_app; cbn; lia).
    replace ((head ++ [LBRACE]) ++ body ++ RBRACE :: tail)
      with (((head ++ [LBRACE]) ++ body) ++ RBRACE :: tail)
      by (now rewrite <- !app_assoc).
    rewrite skipn_app, skipn_all, Nat.sub_diag. reflexivity.
  - rewrite !length_app. cbn [length]. rewrite !length_app. cbn [length]. lia.
Qed.

Lemma indexOf_from_none (i : nat) (s needle : jsstring) :
  includes s needle = false -> indexOf_from i s needle = None.
Proof.
  revert i. induction s as [| c s IH]; intros i H.
  - cbn [includes] in H. apply orb_false_iff in H. destruct H as [H _].
    cbn [indexOf_from]. now rewrite H.
  - cbn [includes] in H. apply orb_false_iff in H. destruct H as [H1 H2].
    cbn [indexOf_from]. rewrite H1. now apply IH.
Qed.

(** X30. What the generator refuses and what it lets through.  A file
    without the marker is refused, and so is one whose first brace after
    the marker is a closing one.  A file with no brace after the marker,
    or whose first block there is never closed, is not refused: the setup
    code is put in, at the very start or after the opening brace, and the
    whole file follows it once more. *)
Theorem generateSharedLoader_edge_cases (loaderFile : jsstring) :
  (includes loaderFile SETUP_STATE_MARKER = false ->
   generateSharedLoader loaderFile = inl NO_SETUP_STATE) /\
  (forall idx head tail,
     indexOf loaderFile SETUP_STATE_MARKER = Some idx ->
     slice_from idx loaderFile = head ++ RBRACE :: tail ->
     no_braces head ->
     generateSharedLoader loaderFile = inl UNBALANCED_BRACES) /\
  (forall idx,
     indexOf loaderFile SETUP_STATE_MARKER = Some idx ->
     no_braces (slice_from idx loaderFile) ->
     generateSharedLoader loaderFile = inr (SETUP_STATE ++ loaderFile)) /\
  (forall idx head body,
     indexOf loaderFile SETUP_STATE_MARKER = Some idx ->
     slice_from idx loaderFile = head ++ LBRACE :: body ->
     no_braces head ->
     never_closes 0 body = true ->
     generateSharedLoader loaderFile =
     inr (slice_to idx loaderFile ++ head ++ LBRACE :: SETUP_STATE ++ loaderFile)).
Proof.
  unfold generateSharedLoader. repeat apply conj.
  - intros H. unfold indexOf. now rewrite indexOf_from_none.
  - intros idx head tail Hidx Hcut Hhead. rewrite Hidx, Hcut.
    rewrite scan_braces_skip by exact Hhead. reflexivity.
  - intros idx Hidx Hnone. rewrite Hidx.
    rewrite <- (app_nil_r (slice_from idx loaderFile)).
    rewrite scan_braces_skip by exact Hnone. reflexivity.
  - intros idx head body Hidx Hcut Hhead Hbody. rewrite Hidx, Hcut.
    destruct (@cut_at loaderFile idx _ Hcut) as [Hfile Hlen]; [now destruct head |].
    rewrite scan_braces_skip by exact Hhead.
    cbn [scan_braces]. change (is_brace LBRACE) with true.
    change (N.eqb LBRACE LBRACE) with true. cbn [negb andb Z.eqb Z.add].
    rewrite (@scan_braces_unclosed idx body _ 0 0) by exact Hbody.
    change (slice_from 0 loaderFile) with loaderFile.
    f_equal.
    assert (E : slice_to (idx + (0 + length head) + 1) loaderFile
                = slice_to idx loaderFile ++ head ++ [LBRACE]).
    { set (front := slice_to idx loaderFile) in *.
      rewrite Hfile at 1.
      replace (idx + (0 + length head) + 1) with (length front + S (length head)) by lia.
      rewrite slice_to_past by (rewrite length_app; cbn [length]; lia).
      f_equal. unfold slice_to.
      replace (S (length head)) with (length (head ++ [LBRACE]))
        by (rewrite length_app; cbn; lia).
      replace (head ++ LBRACE :: body) with ((head ++ [LBRACE]) ++ body)
        by (now rewrite <- app_assoc).
      rewrite firstn_app, firstn_all, Nat.sub_diag. cbn [firstn].
      now rewrite app_nil_r. }
    rewrite E, <- !app_assoc. reflexivity.
Qed.

Lemma generateSharedLoader_replaces_body_witness :
  generateSharedLoader
    (js "function $$SETUP_STATE(hydrate, basePath) { return hydrate({a: 1}, {basePath}); } go();")
  = inr (js "function $$SETUP_STATE(hydrate, basePath) {" ++ SETUP_STATE ++ js "} go();").
Proof.
  apply (@generateSharedLoader_replaces_body
           (js "function $$SETUP_STATE(hydrate, basePath) { return hydrate({a: 1}, {basePath}); } go();")
           (js "$$SETUP_STATE(hydrate, basePath) ")
           (js " return hydrate({a: 1}, {basePath}); ")
           (js " go();") 9).
  - reflexivity.
  - reflexivity.
  - apply Forall_forall. intros c Hc.
    repeat (destruct Hc as [<- | Hc]; [reflexivity |]). contradiction.
  - reflexivity.
Defined.

Lemma generateSharedLoader_edge_cases_witness :
  generateSharedLoader (js "function $$SETUP_STATE() { if (x) { y(); }")
  = inr (js "function $$SETUP_STATE() {" ++ SETUP_STATE ++
         js "function $$SETUP_STATE() { if (x) { y(); }").
Proof.
  destruct (generateSharedLoader_edge_cases
              (js "function $$SETUP_STATE() { if (x) { y(); }")) as (_ & _ & _ & H).
  apply (H 9 (js "$$SETUP_STATE() ") (js " if (x) { y(); }")).
  - reflexivity.
  - reflexivity.
  - apply Forall_forall. intros c Hc.
    repeat (destruct Hc as [<- | Hc]; [reflexivity |]). contradiction.
  - reflexivity.
Defined.
